(** * nummethods: digit-by-digit ln, exp, sqrt, tan and atan

    A shallow embedding of [log.cpp] (which also carries the
    square-root unit) and [trig.cpp].

    Every routine of the source is a function from one [double] to one
    [double], built from the four arithmetic operations, comparisons,
    [fabs], a few libm calls on table arguments and loops.  The
    routines are written once, over an interface [Num] of exactly those
    operations, and read at two instances:

    - [float], Rocq's primitive IEEE 754 binary64 numbers with
      round-to-nearest-even: the program as it runs (one rounding per
      operation, no fused multiply-add);
    - [R], the real numbers: the algorithm in exact arithmetic, where
      statements over all inputs are proved.

    Loops are bounded by a fuel argument; [None] means the fuel ran out
    before the loop left.  The [int] digit counters are modelled by
    [Z] (they stay far below 2^31 on every run evaluated here). *)

From Stdlib Require Import ZArith QArith Qreals Reals Floats.
From Stdlib Require Import List Sorted Lia Lra.
Import ListNotations.

Set Warnings "-inexact-float".

(** ** The arithmetic of the source *)

Declare Scope num_scope.
Delimit Scope num_scope with num.

Class Num (T : Type) : Type := {
  lit : Q -> T;            (* a decimal literal, as the compiler reads it *)
  of_int : Z -> T;         (* an [int] converted to [double] *)
  add : T -> T -> T;
  sub : T -> T -> T;
  mul : T -> T -> T;
  div : T -> T -> T;
  opp : T -> T;
  fabs : T -> T;
  ltb : T -> T -> bool;
  leb : T -> T -> bool;
  eqb : T -> T -> bool;
  log : T -> T;            (* libm log *)
  atan : T -> T;           (* libm atan *)
  pow10 : Z -> T;          (* libm pow(10, e) *)
  int_log10 : T -> Z       (* int(log10(x)) *)
}.

Infix "+" := add : num_scope.
Infix "-" := sub : num_scope.
Infix "*" := mul : num_scope.
Infix "/" := div : num_scope.
Notation "- x" := (opp x) : num_scope.
Infix "<?" := ltb : num_scope.
Infix "<=?" := leb : num_scope.
Infix "=?" := eqb : num_scope.
Notation "x >? y" := (ltb y x) : num_scope.
Notation "x >=? y" := (leb y x) : num_scope.

(** *** Loops *)

(** [while (cond) body]. *)
Fixpoint while {St : Type} (fuel : nat) (cond : St -> bool) (body : St -> St)
    (s : St) : option St :=
  if cond s then
    match fuel with
    | O => None
    | S f => while f cond body (body s)
    end
  else Some s.

(** [do { body } while (cond)], where the body may [break] before it
    assigns anything: [body s = None] is the [break]. *)
Fixpoint do_while {St : Type} (fuel : nat) (body : St -> option St)
    (cond : St -> bool) (s : St) : option St :=
  match body s with
  | None => Some s
  | Some s' =>
      if cond s' then
        match fuel with
        | O => None
        | S f => do_while f body cond s'
        end
      else Some s'
  end.

(** [for (c = 0; c < k; c++) body] on an [int] bound [k]. *)
Definition repeat_int {St : Type} (k : Z) (body : St -> St) (s : St) : St :=
  Nat.iter (Z.to_nat k) body s.

(** [digits[j]++] and [digits[j]--].  The counters are [int] in the
    sources and integers of [Z] here: the two agree as long as a
    counter stays below 2^31, which the statements on the counters
    below establish on the ranges they cover.  Only [digits[0]] of
    [exp1] can leave that range on a [double] input (from a magnitude
    of [2^31 * ln 10], about 4.94e9, where the [int] overflows); no
    statement is made about [exp1] there, except where its first loop
    does not return at all. *)
Fixpoint bump (j : nat) (d : Z) (digits : list Z) : list Z :=
  match digits, j with
  | [], _ => []
  | x :: r, O => (x + d)%Z :: r
  | x :: r, S j' => x :: bump j' d r
  end.

Definition digit (digits : list Z) (j : nat) : Z := nth j digits 0%Z.

Definition bind {A B : Type} (o : option A) (f : A -> option B) : option B :=
  match o with
  | Some a => f a
  | None => None
  end.

Notation "x <- c ;; k" := (bind c (fun x => k))
  (at level 61, c at next level, right associativity).
Notation "' p <- c ;; k" := (bind c (fun x => let 'p := x in k))
  (at level 61, p pattern, c at next level, right associativity).

(** [for (j = lo; j < lo + n; j++) body j], the body holding a loop. *)
Fixpoint for_up {St : Type} (lo n : nat) (body : nat -> St -> option St)
    (s : St) : option St :=
  match n with
  | O => Some s
  | S n' => s' <- body lo s ;; for_up (S lo) n' body s'
  end.

(** [for (j = hi; j > hi - n; j--) body j]. *)
Fixpoint for_down {St : Type} (hi n : nat) (body : nat -> St -> St) (s : St) : St :=
  match n with
  | O => s
  | S n' => for_down (Nat.pred hi) n' body (body hi s)
  end.

(** ** The two readings of the arithmetic *)

(** *** binary64 *)

(** The integer [z] rounded to the nearest [double]. *)
Definition Z2F (z : Z) : float :=
  SF2Prim (binary_normalize prec emax z 0 false).

(** A decimal literal [m / 10^k] of the source: numerator and power of
    ten are exact doubles for every literal of the two files (the
    numerators are below 2^53, the powers at most 10^15), so the one
    rounding of the quotient is the rounding of the literal. *)
Definition lit_float (q : Q) : float :=
  PrimFloat.div (Z2F (Qnum q)) (Z2F (Zpos (Qden q))).

(** libm's [log] at the ten arguments the tables of log.cpp pass to it;
    each value is the double nearest to the logarithm of the (rounded)
    argument.  Other arguments are never passed. *)
Definition libm_log (x : float) : float :=
  if PrimFloat.eqb x 10 then 0x1.26bb1bbb55516p+1
  else if PrimFloat.eqb x 2 then 0x1.62e42fefa39efp-1
  else if PrimFloat.eqb x 1.1 then 0x1.8663f793c46ccp-4
  else if PrimFloat.eqb x 1.01 then 0x1.460d6ccca367cp-7
  else if PrimFloat.eqb x 1.001 then 0x1.060354f8c3cc4p-10
  else if PrimFloat.eqb x 1.0001 then 0x1.a368d0657fcd4p-14
  else if PrimFloat.eqb x 1.00001 then 0x1.4f8aea9af0a25p-17
  else if PrimFloat.eqb x 1.000001 then 0x1.0c6f713f33a1dp-20
  else if PrimFloat.eqb x 1.0000001 then 0x1.ad7f2847b6492p-24
  else if PrimFloat.eqb x 1.00000001 then 0x1.5798ede32d4d7p-27
  else nan.

(** libm's [atan] at the seven arguments of the table of trig.cpp. *)
Definition libm_atan (x : float) : float :=
  if PrimFloat.eqb x 1 then 0x1.921fb54442d18p-1
  else if PrimFloat.eqb x 0.1 then 0x1.983e282e2cc4dp-4
  else if PrimFloat.eqb x 0.01 then 0x1.47ab48b1efb5dp-7
  else if PrimFloat.eqb x 0.001 then 0x1.0624d77516e16p-10
  else if PrimFloat.eqb x 0.0001 then 0x1.a36e2e9a4f662p-14
  else if PrimFloat.eqb x 0.00001 then 0x1.4f8b588e06854p-17
  else if PrimFloat.eqb x 0.000001 then 0x1.0c6f7a0b5e767p-20
  else nan.

(** [pow(10, e)] as glibc computes it for the exponents the sources
    pass (1 to 308 in [range_reduction], 6 in [exp1]): the power of
    ten rounded to the nearest double, except at [e = 23] and
    [e = 210], where the result is one unit in the last place above
    it.  (Negative exponents are never passed.) *)
Definition pow10_float (e : Z) : float :=
  if (e =? 23)%Z then 0x1.52d02c7e14af7p+76
  else if (e =? 210)%Z then 0x1.8557f31326bbcp+697
  else if (0 <=? e)%Z then Z2F (10 ^ e)
  else PrimFloat.div 1 (Z2F (10 ^ (- e))).

(** The number of times [den] can be multiplied by ten and stay at most
    [num]: the integer part of the decimal logarithm of [num / den]
    when [den <= num]. *)
Fixpoint ilog10 (fuel : nat) (num den : Z) : Z :=
  match fuel with
  | O => 0
  | S f =>
      if (10 * den <=? num)%Z then (1 + ilog10 f num (10 * den))%Z else 0%Z
  end.

(** [int(log10(x))]: the decimal logarithm truncated towards zero,
    computed on the exact value [m * 2^e] of the double.  libm rounds
    the logarithm to a double before the truncation, so on the few
    doubles just below a power of ten (999.9999999999999, say) the
    source starts one exponent higher than this model; the first loop
    of [range_reduction] then only makes one more pass that lowers the
    exponent, and reaches the same state.  For zero, negative and
    non-finite [x] the conversion of the source is undefined; the
    x86-64 conversion gives [INT_MIN], which is what this model
    returns. *)
Definition int_log10_float (x : float) : Z :=
  match Prim2SF x with
  | S754_finite false m e =>
      let num := if (0 <=? e)%Z then (Zpos m * 2 ^ e)%Z else Zpos m in
      let den := if (0 <=? e)%Z then 1%Z else (2 ^ (- e))%Z in
      if (den <=? num)%Z then ilog10 400 num den
      else (- ilog10 400 den num)%Z
  | _ => (- 2 ^ 31)%Z
  end.

#[export] Instance Num_float : Num float := {|
  lit := lit_float;
  of_int := Z2F;
  add := PrimFloat.add;
  sub := PrimFloat.sub;
  mul := PrimFloat.mul;
  div := PrimFloat.div;
  opp := PrimFloat.opp;
  fabs := PrimFloat.abs;
  ltb := PrimFloat.ltb;
  leb := PrimFloat.leb;
  eqb := PrimFloat.eqb;
  log := libm_log;
  atan := libm_atan;
  pow10 := pow10_float;
  int_log10 := int_log10_float
|}.

(** *** Exact arithmetic *)

Definition Rltb (x y : R) : bool := if Rlt_dec x y then true else false.
Definition Rleb (x y : R) : bool := if Rle_dec x y then true else false.
Definition Reqb (x y : R) : bool := if Req_dec_T x y then true else false.

(** The decimal logarithm truncated towards zero. *)
Definition int_log10_R (x : R) : Z :=
  let v := (ln x / ln 10)%R in
  if Rle_dec 0 v then Int_part v else (- Int_part (- v))%Z.

#[export] Instance Num_R : Num R := {|
  lit := Q2R;
  of_int := IZR;
  add := Rplus;
  sub := Rminus;
  mul := Rmult;
  div := Rdiv;
  opp := Ropp;
  fabs := Rabs;
  ltb := Rltb;
  leb := Rleb;
  eqb := Reqb;
  log := ln;
  atan := Ratan.atan;
  pow10 := powerRZ 10;
  int_log10 := int_log10_R
|}.

(** ** log.cpp *)

Section Log.
Context {T : Type} `{Num T}.
Local Open Scope num_scope.

Definition M : nat := 7.

Definition ln10 : T := log (lit 10).

(** [logs] and [table] of [ln1]. *)
Definition ln_logs : list T :=
  [log (lit 2); log (lit 1.1); log (lit 1.01); log (lit 1.001);
   log (lit 1.0001); log (lit 1.00001); log (lit 1.000001);
   log (lit 1.0000001)].

Definition ln_table : list T :=
  [lit 2; lit 1.1; lit 1.01; lit 1.001; lit 1.0001; lit 1.00001;
   lit 1.000001; lit 1.0000001].

(** [while (a >= 10.0) { a = a / 10; kln10 += ln10; }]
    on the state [(a, kln10)]. *)
Definition ln_exponent (fuel : nat) (n : T) : option (T * T) :=
  while fuel (fun s => fst s >=? lit 10)
    (fun s => (fst s / lit 10, snd s + ln10)) (n, lit 0).

(** The body of the [do] loop of entry [j], on the state [(a, digits)]. *)
Definition ln_digit_body (j : nat) (s : T * list Z) : option (T * list Z) :=
  let p := fst s * nth j ln_table (lit 0) in
  if p >=? lit 10 then None
  else Some (p, bump j 1 (snd s)).

Definition ln_digit_loop (fuel : nat) (j : nat) (s : T * list Z)
    : option (T * list Z) :=
  do_while fuel (ln_digit_body j) (fun s => fst s <? lit 10) s.

(** [for (int j = 0; j < M; j++) do ... while (a < 10.0);] *)
Definition ln_digits (fuel : nat) (a : T) : option (T * list Z) :=
  for_up 0 M (ln_digit_loop fuel) (a, repeat 0%Z M).

(** [result = (10.0 - a) / 10.0;
     for (int j = M - 1; j >= 0; j--) result = result + digits[j] * logs[j];] *)
Definition ln_recombine (digits : list Z) (a : T) : T :=
  for_down (M - 1) M
    (fun j result => result + of_int (digit digits j) * nth j ln_logs (lit 0))
    ((lit 10 - a) / lit 10).

Definition ln1 (fuel : nat) (n : T) : option T :=
  if n <=? lit 0 then Some (lit 0)
  else
    '(a, kln10) <- ln_exponent fuel n ;;
    '(a, digits) <- ln_digits fuel a ;;
    let result := ln_recombine digits a in
    let result := ln10 - result in
    let result := result + kln10 in
    Some result.

Definition K : nat := 7.

(** [logs] and [table] of [exp1]: ten entries, of which the loops use
    the first [K + 1]. *)
Definition exp_logs : list T :=
  [ln10; log (lit 2); log (lit 1.1); log (lit 1.01); log (lit 1.001);
   log (lit 1.0001); log (lit 1.00001); log (lit 1.000001);
   log (lit 1.0000001); log (lit 1.00000001)].

Definition exp_table : list T :=
  [lit 0; lit 2; lit 1.1; lit 1.01; lit 1.001; lit 1.0001; lit 1.00001;
   lit 1.000001; lit 1.0000001; lit 1.00000001].

(** The body of the [do] loop of entry [j], on the state [(a, digits)]. *)
Definition exp_digit_body (j : nat) (s : T * list Z) : option (T * list Z) :=
  let s' := fst s - nth j exp_logs (lit 0) in
  if s' <? lit 0 then None
  else Some (s', bump j 1 (snd s)).

Definition exp_digit_loop (fuel : nat) (j : nat) (s : T * list Z)
    : option (T * list Z) :=
  do_while fuel (exp_digit_body j) (fun s => fst s >=? lit 0) s.

(** [for (int j = 0; j < K + 1; j++) do ... while (a >= 0.0);] *)
Definition exp_digits (fuel : nat) (a : T) : option (T * list Z) :=
  for_up 0 (K + 1) (exp_digit_loop fuel) (a, repeat 0%Z (K + 1)).

(** The body of [for (int j = K; j > 0; j--)]. *)
Definition exp_rebuild_step (digits : list Z) (j : nat) (result : T) : T :=
  repeat_int (digit digits j)
    (fun r => r * nth j exp_table (lit 0) + lit 1) result
  / lit 10.

Definition exp_reconstruct (digits : list Z) (result : T) : T :=
  for_down K K (exp_rebuild_step digits) result.

Definition exp1 (fuel : nat) (n : T) : option T :=
  if n >? lit 230 then Some (lit 0)
  else
    let a := fabs n in
    let is_neg := n <? lit 0 in
    '(a, digits) <- exp_digits fuel a ;;
    let result := a in
    let result := result * pow10 (Z.of_nat K - 1) in
    let result := exp_reconstruct digits result in
    let result := result + lit 0.1 in
    let result := result * lit 10 in
    let result := repeat_int (digit digits 0) (fun r => r * lit 10) result in
    let result := if is_neg then lit 1 / result else result in
    Some result.

End Log.

(** ** sqrt.cpp (second unit of log.cpp) *)

Section Sqrt.
Context {T : Type} `{Num T}.
Local Open Scope num_scope.

(** One pass of the body of the [do] loop: the state is [(last, result)]. *)
Definition sqrt_step (n : T) (s : T * T) : T * T :=
  let last := snd s in
  let sx := n / last in
  (last, (last + sx) / lit 2).

Definition sqrt_cond (s : T * T) : bool :=
  fabs (fst s - snd s) >? lit 1e-15.

(** [do { ... } while (fabs(last - result) > 1e-15)]; [last] is
    uninitialised before the first pass, which overwrites it. *)
Definition sqrt_loop (fuel : nat) (n : T) (result : T) : option (T * T) :=
  do_while fuel (fun s => Some (sqrt_step n s)) sqrt_cond (result, result).

Definition sqrt1 (fuel : nat) (n : T) : option T :=
  if n <? lit 0 then Some (lit 0)
  else if n =? lit 0 then Some (lit 0)
  else
    let result := n / lit 10 in
    s <- sqrt_loop fuel n result ;;
    Some (snd s).
End Sqrt.

(** ** trig.cpp *)

(** The two ways [tan1] returns. *)
Inductive tan_exit (T : Type) : Type :=
| Invalid : tan_exit T              (* [return 0; // Error: Invalid input value] *)
| Quotient : T -> tan_exit T.       (* [return result;] *)

Arguments Invalid {T}.
Arguments Quotient {T} _.

Section Trig.
Context {T : Type} `{Num T}.
Local Open Scope num_scope.

Definition pi : T := lit 3.141592653589793.

(** [tans] and [table]; the table length is [K = 7] here as well. *)
Definition tans : list T :=
  [atan (lit 1); atan (lit 0.1); atan (lit 0.01); atan (lit 0.001);
   atan (lit 0.0001); atan (lit 0.00001); atan (lit 0.000001)].

Definition table : list T :=
  [lit 1; lit 0.1; lit 0.01; lit 0.001; lit 0.0001; lit 0.00001;
   lit 0.000001].

(** The body of [while (exp > 0)], on the state [(n, exp)]. *)
Definition rr_scale_step (s : T * Z) : T * Z :=
  let two_pi := lit 2 * pi * pow10 (snd s) in
  if fst s >=? two_pi then (fst s - two_pi, snd s)
  else (fst s, (snd s - 1)%Z).

(** The first loop, from a given starting exponent. *)
Definition rr_scale (fuel : nat) (n : T) (exp : Z) : option (T * Z) :=
  while fuel (fun s => (0 <? snd s)%Z) rr_scale_step (n, exp).

(** [while (n > 0) n = n - 2 * pi;] *)
Definition rr_unit (fuel : nat) (n : T) : option T :=
  while fuel (fun n => n >? lit 0) (fun n => n - lit 2 * pi) n.

Definition range_reduction (fuel : nat) (n : T) : option T :=
  let exp := int_log10 n in
  s <- rr_scale fuel n exp ;;
  n <- rr_unit fuel (fst s) ;;
  Some (n + lit 2 * pi).

(** The body of [for (int i = 0; i < K; i++)] of [tan1], on the state
    [(y, digits)]: the subtraction loop, then the correction. *)
Definition tan_digit (fuel : nat) (i : nat) (s : T * list Z)
    : option (T * list Z) :=
  s' <- while fuel (fun s => fst s >=? lit 0)
          (fun s => (fst s - nth i tans (lit 0), bump i 1 (snd s))) s ;;
  Some (fst s' + nth i tans (lit 0), bump i (-1) (snd s')).

Definition tan_digits (fuel : nat) (y : T) : option (T * list Z) :=
  for_up 0 K (tan_digit fuel) (y, repeat 0%Z K).

(** One pseudo-rotation by entry [i], on the state [(x, y)]. *)
Definition tan_rotation (i : nat) (s : T * T) : T * T :=
  let xnew := fst s * nth i table (lit 0) in
  let ynew := snd s * nth i table (lit 0) in
  (fst s - ynew, snd s + xnew).

(** [x = 1; for (int i = K - 1; i >= 0; i--) for (j < digits[i]) ...] *)
Definition tan_rotate (digits : list Z) (y : T) : T * T :=
  for_down (K - 1) K
    (fun i s => repeat_int (digit digits i) (tan_rotation i) s)
    (lit 1, y).

(** The vector [(x, y)] that [tan1] holds when it reaches [if (x == 0)]. *)
Definition tan_vector (fuel : nat) (n : T) : option (T * T) :=
  let y := fabs n in
  y <- range_reduction fuel y ;;
  '(y, digits) <- tan_digits fuel y ;;
  Some (tan_rotate digits y).

Definition tan_outcome (fuel : nat) (n : T) : option (tan_exit T) :=
  let is_neg := n <? lit 0 in
  '(x, y) <- tan_vector fuel n ;;
  if x =? lit 0 then Some Invalid
  else
    let result := y / x in
    Some (Quotient (if is_neg then - result else result)).

Definition tan1 (fuel : nat) (n : T) : option T :=
  o <- tan_outcome fuel n ;;
  match o with
  | Invalid => Some (lit 0)
  | Quotient result => Some result
  end.

(** The body of [while (true)] of entry [i] of [atan1], on the state
    [(x, y, digits)]. *)
Definition atan_digit_body (i : nat) (s : T * T * list Z)
    : option (T * T * list Z) :=
  let '(x, y, digits) := s in
  let xnew := x * nth i table (lit 0) in
  let ynew := y * nth i table (lit 0) in
  if (y - xnew) <? lit 0 then None
  else Some (x + ynew, y - xnew, bump i 1 digits).

Definition atan_digit_loop (fuel : nat) (i : nat) (s : T * T * list Z)
    : option (T * T * list Z) :=
  do_while fuel (atan_digit_body i) (fun _ => true) s.

Definition atan_digits (fuel : nat) (y : T) : option (T * T * list Z) :=
  for_up 0 K (atan_digit_loop fuel) (lit 1, y, repeat 0%Z K).

(** [for (int j = K - 1; j >= 0; j--) result = result + digits[j] * tans[j];] *)
Definition atan_recombine (digits : list Z) (result : T) : T :=
  for_down (K - 1) K
    (fun j result => result + of_int (digit digits j) * nth j tans (lit 0))
    result.

Definition atan1 (fuel : nat) (n : T) : option T :=
  let y := fabs n in
  let is_neg := n <? lit 0 in
  '(x, y, digits) <- atan_digits fuel y ;;
  let result := y / x in
  let result := atan_recombine digits result in
  Some (if is_neg then - result else result).

End Trig.

(** ** The harness *)

(** The inputs the harness of the square-root unit passes to [sqrt1]. *)
Definition tests_sqrt : list float :=
  [0; 54757; 125348; 0.5; 0.00035; 0.02; 1; 1.234e78]%float.

(** The inputs the harness of log.cpp passes to [ln1], and again to
    [EXP(LN(x))] in its symmetry test. *)
Definition tests_ln : list float :=
  [0.00000001; 0.001; 1.0; 1.1; 4.4; 9.99; 10; 11; 12.345; 15.873;
   25.2332; 1.234e34]%float.

(** The inputs the harness of trig.cpp passes to [atan1]. *)
Definition tests_atan : list float :=
  [0; 1; 20; -20; -12345e23; pi; pi / 2]%float.

(** [EXP(LN(x))] of the symmetry test of the harness. *)
Definition exp_of_ln {T : Type} `{Num T} (fuel : nat) (x : T) : option T :=
  l <- ln1 fuel x ;; exp1 fuel l.

(** The inputs the harness of trig.cpp passes to [tan1], and again to
    [ATAN(TAN(x))] in its symmetry test. *)
Definition tests_tan : list float :=
  [0; 0.984736; 0.1; 0.5; 1.5; pi / 2; -1.5; 1.234e5]%float.

(** [ATAN(TAN(x))] of the symmetry test of the harness. *)
Definition atan_of_tan {T : Type} `{Num T} (fuel : nat) (x : T) : option T :=
  t <- tan1 fuel x ;; atan1 fuel t.

(** ** Vocabulary of the statements *)

Local Open Scope R_scope.

(** The indices a descending [for] visits, in the order it visits them. *)
Fixpoint down_from (hi n : nat) : list nat :=
  match n with
  | O => []
  | S n' => hi :: down_from (Nat.pred hi) n'
  end.

(** The update of the loop of [sqrt1], in exact arithmetic. *)
Definition newton (n x : R) : R := (x + n / x) / 2.

(** [2 * pi] of the exact reading: twice the decimal constant of
    trig.cpp (which is not the real number pi). *)
Definition two_pi_R : R := 2 * pi.

(** The sum of the digit counts weighted by a table. *)
Fixpoint weighted (digits : list Z) (values : list R) : R :=
  match digits, values with
  | d :: digits', v :: values' => IZR d * v + weighted digits' values'
  | _, _ => 0
  end.

(** The angle that [atan1] has accounted for so far plus the angle
    of the vector it still holds. *)
Definition atan_angle (s : R * R * list Z) : R :=
  let '(x, y, digits) := s in
  Ratan.atan (y / x) + atan_recombine digits 0.

(** A list of numbers in strictly descending order. *)
Definition descending (l : list R) : Prop :=
  StronglySorted (fun x y => y < x) l.

(** The ratios and logarithms that the reconstruction and the digit
    loops of [exp1] use besides entry 0: entries 1 to [K]. *)
Definition exp_ratios_in_use {T : Type} `{Num T} : list T :=
  firstn K (tl exp_table).

(** The order that the specification's words describe, for comparison
    with [exp_reconstruct]: the same steps taken "most significant
    first", from the largest ratio (entry 1) to the smallest (entry
    [K]). *)
Definition exp_reconstruct_msb_first {T : Type} `{Num T}
    (digits : list Z) (result : T) : T :=
  fold_left (fun r j => exp_rebuild_step digits j r) (seq 1 K) result.

(** The way [tan1] leaves on [-n] when it leaves by [o] on [n]: the
    error exit stays the error exit, a quotient changes sign. *)
Definition tan_exit_opp {T : Type} `{Num T} (o : tan_exit T) : tan_exit T :=
  match o with
  | Invalid => Invalid
  | Quotient r => Quotient (opp r)
  end.

(** The vector [(x, y)] points in the direction [phi]: it is a
    positive multiple of [(cos phi, sin phi)]. *)
Definition polar (x y phi : R) : Prop :=
  exists rho, 0 < rho /\ x = rho * cos phi /\ y = rho * sin phi.

(** * Properties *)

(** ** The loops and the digit counters *)

Lemma while_exit {St : Type} (cond : St -> bool) (body : St -> St) :
  forall fuel s s', while fuel cond body s = Some s' -> cond s' = false.
Proof.
  induction fuel as [|f IH]; intros s s'; simpl;
    destruct (cond s) eqn:E; try discriminate.
  - intros [= <-]. exact E.
  - apply IH.
  - intros [= <-]. exact E.
Qed.

Lemma while_skip {St : Type} (cond : St -> bool) (body : St -> St) fuel s :
  cond s = false -> while fuel cond body s = Some s.
Proof. intros E. destruct fuel; simpl; rewrite E; reflexivity. Qed.

Lemma while_next {St : Type} (cond : St -> bool) (body : St -> St) fuel s :
  cond s = true ->
  while (S fuel) cond body s = while fuel cond body (body s).
Proof. intros E. simpl. rewrite E. reflexivity. Qed.

Lemma while_more_fuel {St : Type} (cond : St -> bool) (body : St -> St) :
  forall f f' s s',
    (f <= f')%nat -> while f cond body s = Some s' ->
    while f' cond body s = Some s'.
Proof.
  induction f as [|f IH]; intros f' s s' Hle; simpl;
    destruct (cond s) eqn:E; try discriminate.
  - intros [= <-]. apply while_skip, E.
  - destruct f' as [|f']; [lia|]. simpl. rewrite E. apply IH. lia.
  - intros [= <-]. apply while_skip, E.
Qed.

Lemma do_while_more_fuel {St : Type} (body : St -> option St)
    (cond : St -> bool) :
  forall f f' s s',
    (f <= f')%nat -> do_while f body cond s = Some s' ->
    do_while f' body cond s = Some s'.
Proof.
  induction f as [|f IH]; intros f' s s' Hle; cbn [do_while].
  - destruct (body s) as [s1|] eqn:E.
    + destruct (cond s1) eqn:Ec; [discriminate|].
      intros [= <-]. destruct f'; cbn [do_while]; rewrite E, Ec; reflexivity.
    + intros [= <-]. destruct f'; cbn [do_while]; rewrite E; reflexivity.
  - destruct f' as [|f']; [lia|]. cbn [do_while].
    destruct (body s) as [s1|]; [|tauto].
    destruct (cond s1); [|tauto]. apply IH. lia.
Qed.

Lemma for_up_more_fuel {St : Type} (body body' : nat -> St -> option St) :
  (forall j s s', body j s = Some s' -> body' j s = Some s') ->
  forall n lo s s',
    for_up lo n body s = Some s' -> for_up lo n body' s = Some s'.
Proof.
  intros Hb. induction n as [|n IH]; intros lo s s'; simpl; [tauto|].
  destruct (body lo s) as [s1|] eqn:E; [|discriminate].
  rewrite (Hb _ _ _ E). cbn [bind]. apply IH.
Qed.

Lemma for_up_invariant {St : Type} (P : St -> Prop)
    (body : nat -> St -> option St) :
  forall n lo s,
    (forall j s, (lo <= j < lo + n)%nat -> P s ->
                 exists s', body j s = Some s' /\ P s') ->
    P s -> exists s', for_up lo n body s = Some s' /\ P s'.
Proof.
  induction n as [|n IH]; intros lo s Hbody Hs; simpl.
  - exists s. split; [reflexivity | exact Hs].
  - destruct (Hbody lo s ltac:(lia) Hs) as (s1 & E1 & H1).
    rewrite E1. cbn [bind]. apply IH; [|exact H1].
    intros j s2 Hj. apply Hbody. lia.
Qed.

Lemma for_up_indexed {St : Type} (P : nat -> St -> Prop)
    (body : nat -> St -> option St) :
  forall n lo s,
    (forall j s, (lo <= j < lo + n)%nat -> P j s ->
                 exists s', body j s = Some s' /\ P (S j) s') ->
    P lo s -> exists s', for_up lo n body s = Some s' /\ P (lo + n)%nat s'.
Proof.
  induction n as [|n IH]; intros lo s Hbody Hs; simpl.
  - exists s. rewrite Nat.add_0_r. split; [reflexivity | exact Hs].
  - destruct (Hbody lo s ltac:(lia) Hs) as (s1 & E1 & H1).
    rewrite E1. cbn [bind].
    replace (lo + S n)%nat with (S lo + n)%nat by lia.
    apply IH; [|exact H1].
    intros j s2 Hj. apply Hbody. lia.
Qed.

Lemma for_down_visits {St : Type} (body : nat -> St -> St) :
  forall n hi s,
    for_down hi n body s = fold_left (fun s j => body j s) (down_from hi n) s.
Proof.
  induction n as [|n IH]; intros hi s; simpl.
  - reflexivity.
  - apply IH.
Qed.

Lemma bump_length (i : nat) (k : Z) (digits : list Z) :
  length (bump i k digits) = length digits.
Proof.
  revert i. induction digits as [|x r IH]; intros [|i]; simpl; auto.
Qed.

Lemma bump_nonneg (i : nat) (digits : list Z) :
  Forall (fun d => (0 <= d)%Z) digits ->
  Forall (fun d => (0 <= d)%Z) (bump i 1 digits).
Proof.
  intros Hd. revert i. induction Hd as [|d digits Hd Hrest IH]; intros i.
  - destruct i; constructor.
  - destruct i as [|i]; cbn [bump]; constructor; auto. lia.
Qed.

Lemma weighted_bump (i : nat) (digits : list Z) (values : list R) :
  (i < length digits)%nat ->
  weighted (bump i 1 digits) values = weighted digits values + nth i values 0.
Proof.
  revert i values. induction digits as [|d digits IH]; intros i values Hi.
  - simpl in Hi. lia.
  - destruct values as [|v values].
    + destruct i; simpl; lra.
    + destruct i as [|i]; cbn [bump weighted nth].
      * rewrite plus_IZR. lra.
      * rewrite IH by (simpl in Hi; lia). lra.
Qed.

Lemma weighted_zeros (n : nat) (values : list R) :
  weighted (repeat 0%Z n) values = 0.
Proof.
  revert values. induction n as [|n IH]; intros [|v values]; simpl;
    try reflexivity.
  rewrite IH. lra.
Qed.

(** ** Comparisons and literals of the exact reading *)

Lemma Rltb_true x y : Rltb x y = true <-> x < y.
Proof. unfold Rltb. destruct (Rlt_dec x y); split; intros; easy. Qed.

Lemma Rltb_false x y : Rltb x y = false <-> y <= x.
Proof.
  unfold Rltb. destruct (Rlt_dec x y); split; intros; try easy; lra.
Qed.

Lemma Rleb_true x y : Rleb x y = true <-> x <= y.
Proof. unfold Rleb. destruct (Rle_dec x y); split; intros; easy. Qed.

Lemma Rleb_false x y : Rleb x y = false <-> y < x.
Proof.
  unfold Rleb. destruct (Rle_dec x y); split; intros; try easy; lra.
Qed.

Lemma Reqb_true x y : Reqb x y = true <-> x = y.
Proof. unfold Reqb. destruct (Req_dec_T x y); split; intros; easy. Qed.

Lemma Reqb_false x y : Reqb x y = false <-> x <> y.
Proof. unfold Reqb. destruct (Req_dec_T x y); split; intros; easy. Qed.

(** Decide one comparison of the exact reading from the context. *)
Ltac Rcmp_true := first
  [ apply Rltb_true | apply Rleb_true | apply Reqb_true ]; try lra.
Ltac Rcmp_false := first
  [ apply Rltb_false | apply Rleb_false | apply Reqb_false ]; try lra.

(** Turn the literals of the goal into numerals of [R]. *)
Ltac Rlit :=
  cbn [lit of_int add sub mul div opp fabs ltb leb eqb log atan pow10
       int_log10 Num_R] in *;
  unfold Q2R in *; cbn [Qnum Qden] in *.

(** ** Growth of powers, and bounds on ln, exp and atan *)

Lemma INR_lt_pow (b : R) (k : nat) : 2 <= b -> INR k < b ^ k.
Proof.
  intros Hb. induction k as [|k IH].
  - simpl. lra.
  - rewrite S_INR. simpl.
    assert (1 <= b ^ k) by (apply pow_R1_Rle; lra).
    nra.
Qed.

Lemma pow_unbounded (b x : R) : 2 <= b -> exists k : nat, x < b ^ k.
Proof.
  intros Hb. destruct (INR_unbounded x) as [k Hk].
  exists k. pose proof (INR_lt_pow b k Hb). lra.
Qed.

Lemma pow_reaches (b x : R) : 1 < b -> exists k : nat, x <= b ^ k.
Proof.
  intros Hb. destruct (INR_unbounded (x / (b - 1))) as [k Hk].
  exists k. pose proof (poly k (b - 1) ltac:(lra)) as Hp.
  replace (1 + (b - 1)) with b in Hp by ring.
  assert (x < INR k * (b - 1)).
  { apply Rmult_lt_reg_r with (/ (b - 1)).
    - apply Rinv_0_lt_compat. lra.
    - rewrite Rmult_assoc, Rinv_r by lra. unfold Rdiv in Hk. lra. }
  lra.
Qed.

(** Three bounds on the logarithm and the exponential near the origin. *)
Lemma ln_one_minus (u : R) :
  0 <= u <= 1 / 2 -> - u - 2 * u ^ 2 <= ln (1 - u) <= - u.
Proof.
  intros Hu. split.
  - assert (Hpos : 0 < 1 + (u + 2 * u ^ 2)) by nra.
    pose proof (exp_ineq1_le (u + 2 * u ^ 2)) as He.
    assert (Hinv : exp (- u - 2 * u ^ 2) <= 1 - u).
    { replace (- u - 2 * u ^ 2) with (- (u + 2 * u ^ 2)) by ring.
      rewrite exp_Ropp.
      apply Rle_trans with (/ (1 + (u + 2 * u ^ 2))).
      - apply Rinv_le_contravar; assumption.
      - apply Rmult_le_reg_r with (1 + (u + 2 * u ^ 2)); [assumption|].
        rewrite Rinv_l by lra. nra. }
    rewrite <- (ln_exp (- u - 2 * u ^ 2)).
    destruct Hinv as [Hlt|Heq].
    + left. apply ln_increasing; [apply exp_pos | exact Hlt].
    + right. rewrite Heq. reflexivity.
  - pose proof (exp_ineq1_le (- u)) as He.
    rewrite <- (ln_exp (- u)).
    destruct He as [Hlt|Heq].
    + left. apply ln_increasing; lra.
    + right. f_equal. lra.
Qed.

Lemma ln_one_plus (a : R) :
  0 <= a <= 1 / 2 -> a - a ^ 2 <= ln (1 + a) <= a.
Proof.
  intros Ha. split.
  - assert (Hpos : 0 < 1 - a + a ^ 2) by nra.
    pose proof (exp_ineq1_le (- (a - a ^ 2))) as He.
    assert (Hinv : exp (a - a ^ 2) <= 1 + a).
    { replace (a - a ^ 2) with (- - (a - a ^ 2)) by ring.
      rewrite exp_Ropp.
      apply Rle_trans with (/ (1 - a + a ^ 2)).
      - apply Rinv_le_contravar; [assumption | lra].
      - apply Rmult_le_reg_r with (1 - a + a ^ 2); [assumption|].
        rewrite Rinv_l by lra. nra. }
    rewrite <- (ln_exp (a - a ^ 2)).
    destruct Hinv as [Hlt|Heq].
    + left. apply ln_increasing; [apply exp_pos | exact Hlt].
    + right. rewrite Heq. reflexivity.
  - pose proof (exp_ineq1_le a) as He.
    rewrite <- (ln_exp a) at 2.
    destruct He as [Hlt|Heq].
    + left. apply ln_increasing; lra.
    + right. f_equal. lra.
Qed.

Lemma exp_near_one (d : R) :
  Rabs d <= 1 / 2 -> Rabs (exp d - 1) <= 2 * Rabs d.
Proof.
  intros Hd.
  assert (Hd' : - (1 / 2) <= d <= 1 / 2).
  { pose proof (Rle_abs d). pose proof (Rle_abs (- d)) as H2.
    rewrite Rabs_Ropp in H2. lra. }
  pose proof (exp_ineq1_le d) as Hlo.
  assert (Hhi : exp d <= 1 + 2 * Rabs d).
  { pose proof (exp_ineq1_le (- d)) as He. rewrite exp_Ropp in He.
    pose proof (exp_pos d) as Hp.
    destruct (Rle_dec 0 d) as [Hge|Hlt].
    - rewrite Rabs_pos_eq by assumption.
      assert (exp d <= / (1 - d)).
      { rewrite <- (Rinv_inv (exp d)).
        apply Rinv_le_contravar; lra. }
      apply Rle_trans with (/ (1 - d)); [assumption|].
      apply Rmult_le_reg_r with (1 - d); [lra|].
      rewrite Rinv_l by lra. nra.
    - assert (exp d <= 1).
      { rewrite <- exp_0. left. apply exp_increasing. lra. }
      pose proof (Rabs_pos d). lra. }
  apply Rabs_le. split; [|lra].
  destruct (Rle_dec 0 d) as [Hge|Hlt].
  - rewrite Rabs_pos_eq by assumption. lra.
  - rewrite Rabs_left by lra. lra.
Qed.

(** The first two partial sums of the arctangent series bracket it. *)
Lemma atan_series_bounds (x : R) :
  0 < x < 1 -> x - x ^ 3 / 3 <= Ratan.atan x <= x.
Proof.
  intros Hx. rewrite (atan_eq_ps_atan x Hx). unfold ps_atan.
  destruct (in_int x) as [h|h]; [|exfalso; apply h; lra].
  destruct (ps_atan_exists_1 x h) as [v Pv].
  assert (H01 : 0 <= x <= 1) by lra.
  pose proof (alternated_series_ineq (Ratan_seq x) v 0
                (Ratan_seq_decreasing x H01) (Ratan_seq_converging x H01) Pv)
    as [Hlo Hhi].
  unfold tg_alt, Ratan_seq in Hlo, Hhi. simpl in Hlo, Hhi. simpl pow.
  lra.
Qed.

(** ** sqrt: the Newton loop *)

Lemma sqrt_step_R (n l x : R) : sqrt_step n (l, x) = (x, newton n x).
Proof. unfold sqrt_step, newton. cbn [snd]. Rlit. f_equal. lra. Qed.

Lemma newton_pos (n x : R) : 0 < n -> 0 < x -> 0 < newton n x.
Proof.
  intros Hn Hx. unfold newton.
  assert (0 < n / x) by (apply Rdiv_lt_0_compat; assumption). lra.
Qed.

(** The residual of an iterate is the square of the last move. *)
Lemma newton_square (n x : R) :
  0 < x -> newton n x * newton n x - n = (x - newton n x) * (x - newton n x).
Proof. intros Hx. unfold newton. field. lra. Qed.

(** The next move is the square of this one over twice the iterate ... *)
Lemma newton_move (n x : R) :
  0 < n -> 0 < x ->
  let y := newton n x in
  y - newton n y = (x - y) * (x - y) / (2 * y).
Proof.
  intros Hn Hx y. pose proof (newton_pos n x Hn Hx) as Hy. fold y in Hy.
  pose proof (newton_square n x Hx) as Hsq. fold y in Hsq.
  unfold newton at 1. fold y.
  replace ((x - y) * (x - y)) with (y * y - n) by lra.
  field. lra.
Qed.

(** ... and a move is never longer than the iterate it reaches: the
    moves at least halve (the contraction of the update). *)
Lemma newton_contraction (n x : R) :
  0 < n -> 0 < x ->
  Rabs (newton n x - newton n (newton n x)) <= Rabs (x - newton n x) / 2.
Proof.
  intros Hn Hx. pose proof (newton_pos n x Hn Hx) as Hy.
  pose proof (newton_move n x Hn Hx) as Hm. cbv zeta in Hm. rewrite Hm.
  set (y := newton n x) in *.
  assert (Hle : Rabs (x - y) <= y).
  { assert (Hq : 0 < n / x) by (apply Rdiv_lt_0_compat; assumption).
    unfold y, newton. apply Rabs_le. lra. }
  pose proof (Rabs_pos (x - y)) as H0.
  unfold Rdiv at 1. rewrite Rabs_mult, Rabs_mult.
  rewrite (Rabs_pos_eq (/ (2 * y))).
  - apply Rmult_le_reg_r with (2 * y); [lra|].
    rewrite Rmult_assoc, Rinv_l by lra. nra.
  - left. apply Rinv_0_lt_compat. lra.
Qed.

Lemma lit_tolerance : (lit 1e-15 : R) = 1 / 10 ^ 15.
Proof.
  cbn [lit Num_R]. unfold Q2R.
  replace (Qnum 1e-15) with 1%Z by reflexivity.
  replace (QDen 1e-15) with 1000000000000000%Z by reflexivity.
  lra.
Qed.

Lemma sqrt_cond_R (l r : R) :
  sqrt_cond (l, r) = true <-> 1 / 10 ^ 15 < Rabs (l - r).
Proof.
  unfold sqrt_cond. cbn [fst snd]. rewrite lit_tolerance.
  cbn [ltb fabs sub Num_R]. apply Rltb_true.
Qed.

(** The loop from any positive iterate [x]: once the first move is at
    most [2 ^ fuel] tolerances, [fuel] re-entries are enough. *)
Lemma sqrt_loop_R (n : R) :
  0 < n ->
  forall fuel l x,
    0 < x -> Rabs (x - newton n x) <= 2 ^ fuel * (1 / 10 ^ 15) ->
    exists l' r,
      do_while fuel (fun s : R * R => Some (sqrt_step n s)) sqrt_cond (l, x)
      = Some (l', r)
      /\ 0 < l' /\ r = newton n l' /\ Rabs (l' - r) <= 1 / 10 ^ 15.
Proof.
  intros Hn. induction fuel as [|f IH]; intros l x Hx Hmove.
  - exists x, (newton n x). cbn [do_while]. rewrite sqrt_step_R.
    destruct (sqrt_cond (x, newton n x)) eqn:E.
    + apply sqrt_cond_R in E. simpl pow in Hmove. lra.
    + split; [reflexivity|]. split; [exact Hx|]. split; [reflexivity|].
      simpl pow in Hmove. lra.
  - cbn [do_while]. rewrite sqrt_step_R.
    destruct (sqrt_cond (x, newton n x)) eqn:E.
    + apply IH.
      * apply newton_pos; assumption.
      * pose proof (newton_contraction n x Hn Hx) as Hc.
        change (2 ^ S f) with (2 * 2 ^ f) in Hmove. lra.
    + exists x, (newton n x).
      split; [reflexivity|]. split; [exact Hx|]. split; [reflexivity|].
      destruct (Rle_dec (Rabs (x - newton n x)) (1 / 10 ^ 15)) as [Hle|Hgt];
        [exact Hle|].
      assert (sqrt_cond (x, newton n x) = true)
        by (apply sqrt_cond_R; lra).
      congruence.
Qed.

(** [sqrt1] on a positive input, in exact arithmetic. *)
Lemma sqrt1_positive_R (n : R) :
  0 < n ->
  exists fuel l r,
    sqrt_loop fuel n (n / 10) = Some (l, r)
    /\ sqrt1 fuel n = Some r
    /\ 0 < l /\ r = (l + n / l) / 2
    /\ Rabs (l - r) <= 1 / 10 ^ 15
    /\ r * r - n = (l - r) * (l - r).
Proof.
  intros Hn.
  assert (Hx : 0 < n / 10) by lra.
  destruct (pow_unbounded 2 (Rabs (n / 10 - newton n (n / 10)) * 10 ^ 15)
              ltac:(lra)) as [fuel Hf].
  destruct (sqrt_loop_R n Hn fuel (n / 10) (n / 10) Hx) as (l & r & E & Hl & Hr & Hd).
  { assert (0 < 10 ^ 15) by (apply pow_lt; lra).
    apply Rmult_le_reg_r with (10 ^ 15); [assumption|].
    unfold Rdiv. rewrite Rmult_assoc, Rmult_assoc, Rinv_l by lra. lra. }
  exists fuel, l, r. unfold sqrt_loop.
  split; [exact E|]. split.
  - unfold sqrt1.
    replace ((n <? lit 0)%num) with false by (symmetry; Rlit; Rcmp_false).
    replace ((n =? lit 0)%num) with false by (symmetry; Rlit; Rcmp_false).
    unfold sqrt_loop.
    replace ((n / lit 10)%num) with (n / 10) by (Rlit; lra).
    rewrite E. reflexivity.
  - split; [exact Hl|]. split; [exact Hr|]. split; [exact Hd|].
    subst r. apply newton_square, Hl.
Qed.

(** In double arithmetic the loop leaves on each of them within 200
    re-entries, and the square of the result is within one unit in the
    last place of the input, [n * 2^-52]. *)
Lemma sqrt1_tests :
  Forall (fun n : float =>
            exists r, sqrt1 200 n = Some r
                      /\ PrimFloat.leb (PrimFloat.abs (r * r - n))
                           (n * 0x1p-52) = true)%float
         tests_sqrt.
Proof.
  unfold tests_sqrt.
  repeat (apply Forall_cons; [eexists; vm_compute; split; reflexivity|]).
  apply Forall_nil.
Qed.

(** C3, as the specification states it, fails in double arithmetic:
    on the harness input 125348 the loop returns 354.04519485512014,
    whose square is 125347.99999999999 in doubles, 1.46e-11 away from
    the input. *)
Lemma sqrt1_square_off :
  PrimFloat.leb 0 125348 = true /\
  sqrt1 200 125348%float = Some 354.04519485512014%float /\
  (354.04519485512014 * 354.04519485512014 - 125348
   = -1.4551915228366852e-11)%float /\
  PrimFloat.leb
    (PrimFloat.abs (354.04519485512014 * 354.04519485512014 - 125348))
    1e-14 = false.
Proof. vm_compute. repeat split. Qed.

(** C3, as the code has it.  In exact arithmetic, for every [n >= 0]
    [sqrt1] returns some [r >= 0] whose square is within 1e-30, hence
    within 1e-14, of [n], and [r = 0] for [n = 0]: the residual
    [r * r - n] is the square of the last move, and the loop leaves
    only when that move is at most 1e-15.  In double arithmetic the
    product [r * r] is itself rounded: on the harness inputs it is
    within [n * 2^-52] of [n], a bound that grows with [n] and is above
    the tolerance of the specification at [n = 125348]. *)
Theorem sqrt1_square :
  (forall n : R, 0 <= n ->
     exists fuel r,
       sqrt1 fuel n = Some r /\ 0 <= r
       /\ Rabs (r * r - n) <= 1 / 10 ^ 30 /\ (n = 0 -> r = 0))
  /\ Forall (fun n : float =>
               exists r, sqrt1 200 n = Some r
                         /\ PrimFloat.leb (PrimFloat.abs (r * r - n))
                              (n * 0x1p-52) = true)%float
            tests_sqrt.
Proof.
  split; [|exact sqrt1_tests].
  intros n [Hn|Hn].
  - destruct (sqrt1_positive_R n Hn) as (fuel & l & r & _ & E & Hl & Hr & Hd & Hsq).
    exists fuel, r. split; [exact E|]. split.
    + subst r. assert (0 < n / l) by (apply Rdiv_lt_0_compat; assumption). lra.
    + split; [|lra]. rewrite Hsq.
      rewrite Rabs_mult.
      pose proof (Rabs_pos (l - r)).
      replace (1 / 10 ^ 30) with ((1 / 10 ^ 15) * (1 / 10 ^ 15)) by lra.
      apply Rmult_le_compat; assumption.
  - subst n. exists O, 0. unfold sqrt1.
    replace ((0 <? lit 0)%num) with false by (symmetry; Rlit; Rcmp_false).
    replace ((0 =? lit 0)%num) with true by (symmetry; Rlit; Rcmp_true).
    split; [f_equal; Rlit; lra|]. split; [lra|]. split; [|reflexivity].
    rewrite Rmult_0_l, Rminus_0_r, Rabs_R0. lra.
Qed.

Lemma sqrt1_square_witness :
  0 <= 2 /\
  exists fuel r,
    sqrt1 fuel 2 = Some r /\ 0 <= r
    /\ Rabs (r * r - 2) <= 1 / 10 ^ 30 /\ (2 = 0 -> r = 0).
Proof.
  split; [lra|]. apply (proj1 sqrt1_square). lra.
Defined.

(** The Newton loop of [sqrt1], started at [n / 10], in exact
    arithmetic: for every [n > 0] it leaves, since the distance
    between successive iterates at least halves with each pass
    ([newton_contraction]) and so falls to 1e-15 after finitely many
    passes.  In double arithmetic the loop leaves on every harness
    input within 200 re-entries; that it leaves on every positive
    double is not proved here. *)
Theorem sqrt1_terminates :
  (forall n : R, 0 < n ->
     exists fuel l r,
       sqrt_loop fuel n (n / 10) = Some (l, r)
       /\ r = (l + n / l) / 2 /\ Rabs (l - r) <= 1 / 10 ^ 15
       /\ sqrt1 fuel n = Some r)
  /\ (forall n x : R, 0 < n -> 0 < x ->
        Rabs (newton n x - newton n (newton n x))
        <= Rabs (x - newton n x) / 2)
  /\ Forall (fun n : float => exists r, sqrt1 200 n = Some r) tests_sqrt.
Proof.
  split; [|split; [exact newton_contraction|]].
  - intros n Hn.
    destruct (sqrt1_positive_R n Hn) as (fuel & l & r & E & E1 & Hl & Hr & Hd & _).
    exists fuel, l, r. tauto.
  - eapply Forall_impl; [|exact sqrt1_tests].
    intros n (r & E & _). exists r. exact E.
Qed.

Lemma sqrt1_terminates_witness :
  0 < 2 /\
  exists fuel l r,
    sqrt_loop fuel 2 (2 / 10) = Some (l, r)
    /\ r = (l + 2 / l) / 2 /\ Rabs (l - r) <= 1 / 10 ^ 15
    /\ sqrt1 fuel 2 = Some r.
Proof.
  split; [lra|]. apply (proj1 sqrt1_terminates). lra.
Defined.

(** ** ln: the domain guard *)

(** C2.  [ln1] returns 0 on every input [n <= 0], whatever the
    arithmetic and with no loop pass allowed at all: the guard comes
    before the exponent loop and before the digit loops. *)
Theorem ln1_nonpositive {T : Type} `{Num T} (fuel : nat) (n : T) :
  leb n (lit 0) = true -> ln1 fuel n = Some (lit 0).
Proof. intros Hn. unfold ln1. rewrite Hn. reflexivity. Qed.

(** [Ln(-1)], with no fuel. *)
Lemma ln1_nonpositive_minus_one :
  PrimFloat.leb (-1)%float 0%float = true /\
  ln1 O (-1)%float = Some 0%float.
Proof.
  split; [reflexivity|].
  exact (ln1_nonpositive (T:=float) O (-1)%float eq_refl).
Defined.

Example ln1_zero : ln1 O 0%float = Some 0%float.
Proof. reflexivity. Qed.

Example ln1_minus_one_R : ln1 O (-1)%R = Some 0%R.
Proof.
  unfold ln1.
  replace ((-1 <=? lit 0)%num) with true by (symmetry; Rlit; Rcmp_true).
  f_equal. Rlit. lra.
Qed.

(** ** ln: the exponent loop *)

(** The exponent loop of the exact reading, from any state: with
    [a < 10 ^ (fuel + 1)] it leaves after [j] divisions, and [j]
    copies of [ln 10] are added to the accumulator. *)
Lemma ln_exponent_loop_R :
  forall fuel a k,
    0 < a -> a < 10 ^ S fuel ->
    exists a' (j : nat),
      while fuel (fun s : R * R => fst s >=? lit 10)%num
        (fun s => (fst s / lit 10, snd s + ln10)%num) (a, k)
      = Some (a', k + INR j * ln 10)
      /\ 0 < a' < 10 /\ (1 <= a -> 1 <= a') /\ a = a' * 10 ^ j.
Proof.
  induction fuel as [|f IH]; intros a k Ha Hlt.
  - exists a, O. rewrite while_skip.
    + simpl INR. rewrite Rmult_0_l, Rplus_0_r. simpl pow in *.
      repeat split; try lra.
    + cbn [fst]. simpl pow in Hlt. Rlit. Rcmp_false.
  - destruct (Rlt_dec a 10) as [Hs|Hs].
    + exists a, O. rewrite while_skip.
      * simpl INR. rewrite Rmult_0_l, Rplus_0_r. simpl pow.
        repeat split; try lra.
      * cbn [fst]. Rlit. Rcmp_false.
    + rewrite while_next by (cbn [fst]; Rlit; Rcmp_true).
      cbn [fst snd].
      destruct (IH (a / lit 10)%num (k + ln10)%num) as (a' & j & E & Hr & H1 & Hd).
      * Rlit. lra.
      * Rlit. change (10 ^ S (S f)) with (10 * 10 ^ S f) in Hlt. lra.
      * exists a', (S j). rewrite E. rewrite S_INR. split.
        { f_equal. f_equal. unfold ln10. Rlit.
          replace (10 * / 1) with 10 by lra. ring. }
        split; [exact Hr|]. split.
        { intros _. apply H1. Rlit. lra. }
        { Rlit. simpl pow. lra. }
Qed.

(** The loop of [ln1] itself, started with an empty accumulator. *)
Lemma ln_exponent_R (fuel : nat) (n : R) :
  0 < n -> n < 10 ^ S fuel ->
  exists a (j : nat),
    ln_exponent fuel n = Some (a, INR j * ln 10)
    /\ 0 < a < 10 /\ (1 <= n -> 1 <= a) /\ n = a * 10 ^ j.
Proof.
  intros Hn Hlt.
  destruct (ln_exponent_loop_R fuel n (lit 0) Hn Hlt) as (a & j & E & Hr).
  exists a, j. unfold ln_exponent. rewrite E.
  split; [|exact Hr]. f_equal. f_equal. Rlit. lra.
Qed.

Lemma ten_power_above (n : R) : exists k : nat, n < 10 ^ S k.
Proof.
  destruct (pow_unbounded 10 n ltac:(lra)) as [k Hk]. exists k.
  simpl. assert (0 < 10 ^ k) by (apply pow_lt; lra). lra.
Qed.

(** C6, as the code has it.  For every [n > 0] the exponent loop of
    [ln1] leaves, in exact arithmetic, after some number [j] of
    divisions with [n = a * 10 ^ j], the accumulator holding
    [j * ln 10] and the mantissa [a] in the open interval (0, 10);
    the mantissa is at least 1 when [n] is.  Inputs below 1 pass
    through unchanged, so the lower end of the interval is 0, not 1. *)
Theorem ln_exponent_mantissa (n : R) :
  0 < n ->
  exists fuel a kln10 (j : nat),
    ln_exponent fuel n = Some (a, kln10)
    /\ 0 < a < 10 /\ (1 <= n -> 1 <= a)
    /\ n = a * 10 ^ j /\ kln10 = INR j * ln 10.
Proof.
  intros Hn. destruct (ten_power_above n) as [k Hk].
  destruct (ln_exponent_R k n Hn Hk) as (a & j & E & Hr & H1 & Hd).
  exists k, a, (INR j * ln 10), j. tauto.
Qed.

Lemma ln_exponent_mantissa_witness :
  0 < 1234.5 /\
  exists fuel a kln10 (j : nat),
    ln_exponent fuel 1234.5 = Some (a, kln10)
    /\ 0 < a < 10 /\ (1 <= 1234.5 -> 1 <= a)
    /\ 1234.5 = a * 10 ^ j /\ kln10 = INR j * ln 10.
Proof.
  split; [lra|]. apply ln_exponent_mantissa. lra.
Defined.

(** C6, as the specification states it, fails: [0.001] is one of the
    inputs the harness of log.cpp passes to [ln1]; the loop does not
    run on it and the mantissa it leaves, [0.001], is below 1. *)
Lemma ln_exponent_below_one :
  PrimFloat.ltb 0 0.001 = true /\
  ln_exponent 100 0.001%float = Some (0.001%float, 0%float) /\
  PrimFloat.leb 1 0.001 = false.
Proof. vm_compute. repeat split. Qed.

(** In double arithmetic the loop can only leave with a mantissa
    that is not [>= 10]. *)
Lemma ln_exponent_exit (fuel : nat) (n a k : float) :
  ln_exponent fuel n = Some (a, k) -> PrimFloat.leb 10 a = false.
Proof.
  intros E. apply while_exit in E. exact E.
Qed.

(** ** ln: the digit loops and the distance to the logarithm *)

Lemma ln1_more_fuel {T : Type} `{Num T} (f f' : nat) (n l : T) :
  (f <= f')%nat -> ln1 f n = Some l -> ln1 f' n = Some l.
Proof.
  intros Hle. unfold ln1. destruct (leb n (lit 0)); [tauto|].
  unfold ln_exponent.
  destruct (while f _ _ (n, lit 0)) as [[a k]|] eqn:E1; [|discriminate].
  rewrite (while_more_fuel _ _ _ _ _ _ Hle E1). cbn [bind].
  destruct (ln_digits f a) as [[a' d]|] eqn:E2; [|discriminate].
  unfold ln_digits in *.
  rewrite (for_up_more_fuel (ln_digit_loop f) (ln_digit_loop f')
             ltac:(intros j s s'; apply do_while_more_fuel, Hle) _ _ _ _ E2).
  tauto.
Qed.

Lemma ln_table_in_range (i : nat) :
  (i < M)%nat ->
  1000001 / 1000000 <= nth i (ln_table (T:=R)) (lit 0) <= 2
  /\ nth i (ln_logs (T:=R)) 0 = ln (nth i (ln_table (T:=R)) (lit 0)).
Proof.
  intros Hi. unfold M in Hi.
  do 7 (destruct i as [|i];
        [cbn [nth ln_table ln_logs]; split; [Rlit; lra | reflexivity]|]).
  lia.
Qed.

(** The digit loop of one entry of [ln1] in exact arithmetic: the
    mantissa is multiplied by the ratio while it stays below 10, and
    [ln a] minus the logarithms counted so far does not change. *)
Lemma ln_digit_loop_R (i : nat) (t : R) :
  (i < M)%nat -> t = nth i (ln_table (T:=R)) (lit 0) ->
  forall fuel a digits,
    0 < a < 10 -> 10 <= a * t ^ S fuel -> length digits = M ->
    exists a' digits',
      ln_digit_loop fuel i (a, digits) = Some (a', digits')
      /\ a <= a' < 10 /\ 10 <= a' * t /\ length digits' = M
      /\ ln a' - weighted digits' ln_logs = ln a - weighted digits ln_logs.
Proof.
  intros Hi Et. destruct (ln_table_in_range i Hi) as [Ht Elog].
  rewrite <- Et in Ht, Elog. unfold ln_digit_loop.
  assert (Hbody : forall a digits,
            ln_digit_body i (a, digits)
            = if Rleb 10 (a * t) then None
              else Some (a * t, bump i 1 digits)).
  { intros a digits. unfold ln_digit_body. rewrite <- Et. cbn [fst snd].
    cbn [mul leb Num_R]. replace (lit 10 : R) with 10 by (Rlit; lra).
    reflexivity. }
  assert (Hcond : forall a, a < 10 -> (a <? lit 10)%num = true).
  { intros a Ha. Rlit. Rcmp_true. }
  induction fuel as [|f IH]; intros a digits Ha Hreach Hlen.
  - exists a, digits. cbn [do_while]. rewrite Hbody.
    replace (Rleb 10 (a * t)) with true
      by (symmetry; Rcmp_true; simpl pow in Hreach; lra).
    simpl pow in Hreach. repeat split; try lra. exact Hlen.
  - cbn [do_while]. rewrite Hbody.
    destruct (Rleb 10 (a * t)) eqn:E.
    + apply Rleb_true in E. exists a, digits.
      repeat split; try lra. exact Hlen.
    + apply Rleb_false in E. cbn [fst]. rewrite Hcond by exact E.
      destruct (IH (a * t) (bump i 1 digits))
        as (a' & d' & E' & Ha' & Hexit & Hlen' & Hinv).
      * nra.
      * change (t ^ S (S f)) with (t * t ^ S f) in Hreach. lra.
      * rewrite bump_length. exact Hlen.
      * exists a', d'. split; [exact E'|]. split; [nra|].
        split; [exact Hexit|]. split; [exact Hlen'|].
        rewrite Hinv, weighted_bump by (rewrite Hlen; exact Hi).
        rewrite Elog, ln_mult by lra. ring.
Qed.

Lemma ln_digits_R (a0 : R) :
  0 < a0 < 10 ->
  exists fuel a digits,
    ln_digits fuel a0 = Some (a, digits)
    /\ a0 <= a < 10 /\ 10 <= a * (1000001 / 1000000) /\ length digits = M
    /\ ln a - weighted digits ln_logs = ln a0.
Proof.
  intros Ha0.
  destruct (pow_reaches (1000001 / 1000000) (10 / a0) ltac:(lra)) as [fuel Hf].
  assert (Hreach : 10 <= a0 * (1000001 / 1000000) ^ fuel).
  { apply Rmult_le_reg_r with (/ a0).
    - apply Rinv_0_lt_compat. lra.
    - rewrite (Rmult_comm a0), Rmult_assoc, Rinv_r by lra.
      unfold Rdiv in Hf. lra. }
  destruct (for_up_indexed
              (fun j (s : R * list Z) =>
                 a0 <= fst s < 10 /\ length (snd s) = M
                 /\ ln (fst s) - weighted (snd s) ln_logs = ln a0
                 /\ (forall i, j = S i ->
                               10 <= fst s * nth i (ln_table (T:=R)) (lit 0)))
              (ln_digit_loop fuel) M 0 (a0, repeat 0%Z M))
    as ([a digits] & E & Ha & Hlen & Hinv & Hlast).
  - intros i [a digits] Hi (Ha & Hlen & Hinv & _). cbn [fst snd] in *.
    destruct (ln_table_in_range i ltac:(lia)) as [Ht _].
    destruct (ln_digit_loop_R i _ ltac:(lia) eq_refl fuel a digits)
      as (a' & d' & E' & Ha' & Hexit & Hlen' & Hinv').
    + lra.
    + set (t := nth i (ln_table (T:=R)) (lit 0)) in *.
      assert (Hpow : (1000001 / 1000000) ^ fuel <= t ^ S fuel).
      { apply Rle_trans with (t ^ fuel).
        - apply pow_incr. lra.
        - simpl. assert (0 < t ^ fuel) by (apply pow_lt; lra). nra. }
      assert (0 < (1000001 / 1000000) ^ fuel) by (apply pow_lt; lra).
      nra.
    + exact Hlen.
    + exists (a', d'). split; [exact E'|]. cbn [fst snd].
      split; [lra|]. split; [exact Hlen'|].
      split; [rewrite Hinv'; exact Hinv|].
      intros i' [= <-]. exact Hexit.
  - cbn [fst snd]. split; [lra|]. split; [apply repeat_length|].
    split; [rewrite weighted_zeros; ring | discriminate].
  - cbn [fst snd] in *. exists fuel, a, digits. split; [exact E|].
    split; [exact Ha|]. split; [|split; [exact Hlen | exact Hinv]].
    specialize (Hlast 6%nat eq_refl). cbn [nth ln_table] in Hlast.
    revert Hlast. Rlit. lra.
Qed.

Lemma ln_recombine_weighted (digits : list Z) (a : R) :
  length digits = M ->
  ln_recombine digits a = (10 - a) / 10 + weighted digits ln_logs.
Proof.
  unfold M. intros Hlen.
  do 8 (destruct digits as [|? digits]; try discriminate Hlen).
  unfold ln_recombine, M, ln_logs.
  cbn [for_down Nat.sub Nat.pred digit nth weighted]. Rlit. field.
Qed.

(** [ln1] in exact arithmetic: it returns on every positive input, at
    most 2e-12 above the logarithm. *)
Lemma ln1_R (n : R) :
  0 < n ->
  exists fuel l, ln1 fuel n = Some l /\ 0 <= l - ln n <= 2 / 10 ^ 12.
Proof.
  intros Hn.
  destruct (ten_power_above n) as [f1 Hf1].
  destruct (ln_exponent_R f1 n Hn Hf1) as (a0 & j & E1 & Ha0 & _ & Hn0).
  set (k := INR j * ln 10) in *. assert (Hk : k = INR j * ln 10) by reflexivity.
  destruct (ln_digits_R a0 Ha0) as (f2 & a & digits & E2 & Ha & Hexit & Hlen & Hinv).
  exists (Nat.max f1 f2). unfold ln1.
  replace ((n <=? lit 0)%num) with false by (symmetry; Rlit; Rcmp_false).
  unfold ln_exponent in *.
  rewrite (while_more_fuel _ _ _ _ _ _ (Nat.le_max_l f1 f2) E1). cbn [bind].
  unfold ln_digits in *.
  rewrite (for_up_more_fuel (ln_digit_loop f2) (ln_digit_loop (Nat.max f1 f2))
             ltac:(intros i s s'; apply do_while_more_fuel, Nat.le_max_r)
             _ _ _ _ E2).
  cbn [bind]. eexists. split; [reflexivity|].
  rewrite ln_recombine_weighted by exact Hlen.
  unfold ln10. cbn [add sub log Num_R].
  replace (lit 10 : R) with 10 by (Rlit; lra).
  assert (Hln : ln n = ln a0 + INR j * ln 10).
  { rewrite Hn0, ln_mult, ln_pow by (try apply pow_lt; lra). reflexivity. }
  set (u := (10 - a) / 10).
  assert (Hu : 0 <= u <= 1 / 2) by (unfold u; lra).
  assert (Hu2 : u <= 1 / 10 ^ 6) by (unfold u; lra).
  assert (Hla : ln a = ln 10 + ln (1 - u)).
  { rewrite <- ln_mult by (unfold u; lra). f_equal. unfold u. field. }
  pose proof (ln_one_minus u Hu) as Hb.
  assert (u ^ 2 <= (1 / 10 ^ 6) ^ 2) by (apply pow_incr; lra).
  rewrite Hk, Hln. split; nra.
Qed.

(** ** exp: the range guard and the sign of the result *)

(** The guard, for any arithmetic. *)
Lemma exp1_above_230 {T : Type} `{Num T} (fuel : nat) (n : T) :
  ltb (lit 230) n = true -> exp1 fuel n = Some (lit 0).
Proof. intros Hn. unfold exp1. rewrite Hn. reflexivity. Qed.

Lemma exp1_more_fuel {T : Type} `{Num T} (f f' : nat) (n r : T) :
  (f <= f')%nat -> exp1 f n = Some r -> exp1 f' n = Some r.
Proof.
  intros Hle. unfold exp1. destruct (ltb (lit 230) n); [tauto|].
  destruct (exp_digits f (fabs n)) as [[a d]|] eqn:E; [|discriminate].
  unfold exp_digits in *.
  rewrite (for_up_more_fuel (exp_digit_loop f) (exp_digit_loop f')
             ltac:(intros j s s'; apply do_while_more_fuel, Hle) _ _ _ _ E).
  tauto.
Qed.

(** Every logarithm the digit loops of [exp1] subtract is at least
    [ln 1.000001], the smallest of the [K + 1] entries in use. *)
Lemma exp_logs_lower (j : nat) :
  (j < K + 1)%nat -> ln (1000001 / 1000000) <= nth j (exp_logs (T:=R)) (lit 0).
Proof.
  intros Hj. unfold K in Hj.
  assert (Hmono : forall y, 1000001 / 1000000 <= y ->
                            ln (1000001 / 1000000) <= ln y).
  { intros y [Hy| <-]; [left; apply ln_increasing; lra | right; reflexivity]. }
  do 8 (destruct j as [|j]; [cbn [nth exp_logs]; unfold ln10; Rlit;
                             apply Hmono; lra|]).
  lia.
Qed.

Lemma ln_smallest_pos : 0 < ln (1000001 / 1000000).
Proof. rewrite <- ln_1. apply ln_increasing; lra. Qed.

Lemma ln_smallest_small : ln (1000001 / 1000000) <= 1 / 10 ^ 6.
Proof.
  pose proof (ln_one_plus (1 / 10 ^ 6) ltac:(lra)) as [_ H].
  replace (1000001 / 1000000) with (1 + 1 / 10 ^ 6) by lra. exact H.
Qed.

Lemma exp_table_in_range (j : nat) :
  (j < K + 1)%nat ->
  nth j (exp_logs (T:=R)) 0
  = ln (if Nat.eqb j 0 then 10 else nth j (exp_table (T:=R)) (lit 0))
  /\ ((1 <= j)%nat ->
      nth j (exp_table (T:=R)) (lit 0) = 1 + / 10 ^ (j - 1)).
Proof.
  intros Hj. unfold K in Hj.
  destruct j as [|j].
  { split; [cbn; unfold ln10; Rlit; f_equal; lra | lia]. }
  do 7 (destruct j as [|j];
        [cbn [nth exp_table exp_logs Nat.eqb Nat.sub]; split;
         [reflexivity | intros _; cbn [pow]; Rlit; lra]|]).
  lia.
Qed.

(** A digit loop of [exp1] once more, this time with what it keeps:
    the remainder plus the logarithms counted so far. *)
Lemma exp_digit_loop_sum (j : nat) (L : R) :
  (j < K + 1)%nat -> L = nth j (exp_logs (T:=R)) (lit 0) -> 0 < L ->
  forall fuel a digits,
    0 <= a -> a < INR (S fuel) * L ->
    length digits = (K + 1)%nat -> Forall (fun d => (0 <= d)%Z) digits ->
    exists a' digits',
      exp_digit_loop fuel j (a, digits) = Some (a', digits')
      /\ 0 <= a' <= a /\ a' < L
      /\ length digits' = (K + 1)%nat
      /\ Forall (fun d => (0 <= d)%Z) digits'
      /\ a' + weighted digits' exp_logs = a + weighted digits exp_logs.
Proof.
  intros Hj EL HL. unfold exp_digit_loop.
  assert (Hbody : forall a digits,
            exp_digit_body j (a, digits)
            = if Rltb (a - L) 0 then None
              else Some (a - L, bump j 1 digits)).
  { intros a digits. unfold exp_digit_body. rewrite <- EL. cbn [fst snd].
    cbn [sub ltb Num_R]. replace (lit 0 : R) with 0 by (Rlit; lra).
    reflexivity. }
  assert (Hcond : forall a, 0 <= a -> (a >=? lit 0)%num = true).
  { intros a Ha. Rlit. Rcmp_true. }
  assert (Enth : nth j (exp_logs (T:=R)) 0 = L).
  { rewrite EL. f_equal. Rlit. lra. }
  induction fuel as [|f IH]; intros a digits Ha Hf Hlen Hd.
  - exists a, digits. cbn [do_while]. rewrite Hbody. simpl INR in Hf.
    replace (Rltb (a - L) 0) with true by (symmetry; Rcmp_true).
    repeat split; try lra; assumption.
  - cbn [do_while]. rewrite Hbody.
    destruct (Rltb (a - L) 0) eqn:E.
    + apply Rltb_true in E. exists a, digits.
      repeat split; try lra; assumption.
    + apply Rltb_false in E. cbn [fst]. rewrite Hcond by exact E.
      destruct (IH (a - L) (bump j 1 digits))
        as (a' & d' & E' & Ha' & Hexit & Hlen' & Hd' & Hsum).
      * exact E.
      * rewrite S_INR in Hf. lra.
      * rewrite bump_length. exact Hlen.
      * apply bump_nonneg, Hd.
      * exists a', d'. split; [exact E'|]. split; [lra|].
        split; [exact Hexit|]. split; [exact Hlen'|]. split; [exact Hd'|].
        rewrite Hsum, weighted_bump by (rewrite Hlen; exact Hj).
        rewrite Enth. ring.
Qed.

Lemma exp_digits_sum (a0 : R) :
  0 <= a0 ->
  exists fuel a digits,
    exp_digits fuel a0 = Some (a, digits)
    /\ 0 <= a < ln (1000001 / 1000000)
    /\ length digits = (K + 1)%nat
    /\ Forall (fun d => (0 <= d)%Z) digits
    /\ a + weighted digits exp_logs = a0.
Proof.
  intros Ha0.
  destruct (INR_unbounded (a0 / ln (1000001 / 1000000))) as [fuel Hf].
  pose proof ln_smallest_pos as Hpos.
  assert (Hfuel : a0 < INR (S fuel) * ln (1000001 / 1000000)).
  { rewrite S_INR. apply Rmult_lt_reg_r with (/ ln (1000001 / 1000000)).
    - apply Rinv_0_lt_compat, Hpos.
    - rewrite Rmult_assoc, Rinv_r by lra. unfold Rdiv in Hf. lra. }
  destruct (for_up_indexed
              (fun j (s : R * list Z) =>
                 0 <= fst s <= a0 /\ length (snd s) = (K + 1)%nat
                 /\ Forall (fun d => (0 <= d)%Z) (snd s)
                 /\ fst s + weighted (snd s) exp_logs = a0
                 /\ (forall i, j = S i ->
                               fst s < nth i (exp_logs (T:=R)) (lit 0)))
              (exp_digit_loop fuel) (K + 1) 0 (a0, repeat 0%Z (K + 1)))
    as ([a digits] & E & Ha & Hlen & Hd & Hsum & Hlast).
  - intros j [a digits] Hj (Ha & Hlen & Hd & Hsum & _). cbn [fst snd] in *.
    pose proof (exp_logs_lower j ltac:(lia)) as HL.
    destruct (exp_digit_loop_sum j _ ltac:(lia) eq_refl ltac:(lra)
                fuel a digits)
      as (a' & d' & E' & Ha' & Hexit & Hlen' & Hd' & Hsum').
    + lra.
    + pose proof (pos_INR (S fuel)). nra.
    + exact Hlen.
    + exact Hd.
    + exists (a', d'). split; [exact E'|]. cbn [fst snd].
      split; [lra|]. split; [exact Hlen'|]. split; [exact Hd'|].
      split; [rewrite Hsum'; exact Hsum|].
      intros i' [= <-]. exact Hexit.
  - cbn [fst snd]. split; [lra|]. split; [apply repeat_length|].
    split; [apply Forall_forall; intros d Hd; apply repeat_spec in Hd; lia|].
    split; [rewrite weighted_zeros; ring | discriminate].
  - cbn [fst snd] in *. exists fuel, a, digits. split; [exact E|].
    split; [|tauto]. split; [lra|].
    specialize (Hlast 7%nat eq_refl). cbn [nth exp_logs] in Hlast.
    revert Hlast. Rlit. intros Hlast.
    replace (1000001 / 1000000) with (1000001 * / 1000000) by lra.
    exact Hlast.
Qed.

(** One application of [result = result * ratio + 1] multiplies
    [1 + result / s] by the ratio [1 + 1 / s]. *)
Lemma rebuild_iter (t s r : R) (k : nat) :
  0 < s -> t = 1 + / s ->
  1 + Nat.iter k (fun r => r * t + 1) r / s = (1 + r / s) * t ^ k
  /\ (0 <= r -> 0 <= Nat.iter k (fun r => r * t + 1) r).
Proof.
  intros Hs Et. induction k as [|k [IH IHpos]]; simpl.
  - split; [ring | tauto].
  - split.
    + rewrite (Rmult_comm t), <- Rmult_assoc, <- IH.
      rewrite Et. field. lra.
    + intros Hr. specialize (IHpos Hr).
      assert (0 < t) by (rewrite Et; assert (0 < / s)
                           by (apply Rinv_0_lt_compat; lra); lra).
      nra.
Qed.

(** One entry of the reconstruction, in logarithms. *)
Lemma exp_rebuild_step_R (digits : list Z) (j : nat) (r : R) :
  (1 <= j < K + 1)%nat -> (0 <= digit digits j)%Z -> 0 <= r ->
  let r' := exp_rebuild_step digits j r in
  0 <= r'
  /\ ln (1 + r' * 10 / 10 ^ (j - 1))
     = ln (1 + r / 10 ^ (j - 1))
       + IZR (digit digits j) * nth j (exp_logs (T:=R)) 0.
Proof.
  intros Hj Hd Hr r'.
  destruct (exp_table_in_range j ltac:(lia)) as [Elog Etab].
  specialize (Etab ltac:(lia)).
  replace (Nat.eqb j 0) with false in Elog
    by (symmetry; apply Nat.eqb_neq; lia).
  set (t := nth j (exp_table (T:=R)) (lit 0)) in *.
  assert (Hs : 0 < 10 ^ (j - 1)) by (apply pow_lt; lra).
  assert (Ht : 0 < t).
  { rewrite Etab. assert (0 < / 10 ^ (j - 1))
      by (apply Rinv_0_lt_compat; exact Hs). lra. }
  destruct (rebuild_iter t (10 ^ (j - 1)) r (Z.to_nat (digit digits j)) Hs Etab)
    as [Hiter Hpos].
  specialize (Hpos Hr).
  assert (Er' : r' = Nat.iter (Z.to_nat (digit digits j))
                       (fun r => r * t + 1) r / 10).
  { unfold r', exp_rebuild_step, repeat_int. fold t.
    cbn [div Num_R]. replace (lit 10 : R) with 10 by (Rlit; lra).
    f_equal. clear. induction (Z.to_nat (digit digits j)) as [|k IH];
      simpl; [reflexivity|].
    simpl in IH. rewrite IH. unfold Q2R. simpl. lra. }
  split; [rewrite Er'; lra|].
  replace (r' * 10) with (Nat.iter (Z.to_nat (digit digits j))
                            (fun r => r * t + 1) r) by (rewrite Er'; field).
  rewrite Hiter, ln_mult, ln_pow, Elog.
  - rewrite INR_IZR_INZ, Z2Nat.id by exact Hd. reflexivity.
  - exact Ht.
  - assert (0 <= r / 10 ^ (j - 1)) by (apply Rle_mult_inv_pos; lra). lra.
  - apply pow_lt, Ht.
Qed.

(** The whole reconstruction, with the two statements that follow it. *)
Lemma exp_reconstruct_R (digits : list Z) (a : R) :
  length digits = (K + 1)%nat -> Forall (fun d => (0 <= d)%Z) digits ->
  0 <= a ->
  let r := exp_reconstruct digits (a * 10 ^ 6) in
  0 <= r
  /\ ln ((r + 1 / 10) * 10) + IZR (digit digits 0) * ln 10
     = ln (1 + a) + weighted digits exp_logs.
Proof.
  unfold K. intros Hlen Hd Ha.
  do 9 (destruct digits as [|? digits]; try discriminate Hlen).
  assert (Hdig : forall j, (0 <= digit [z; z0; z1; z2; z3; z4; z5; z6] j)%Z).
  { intros j. unfold digit.
    destruct (Nat.lt_ge_cases j 8) as [Hlt|Hge].
    - eapply (proj1 (Forall_forall _ _) Hd), nth_In. simpl. exact Hlt.
    - rewrite nth_overflow by (simpl; lia). lia. }
  set (d := [z; z0; z1; z2; z3; z4; z5; z6]) in *.
  unfold exp_reconstruct, K. cbn [for_down Nat.pred].
  set (r7 := exp_rebuild_step d 7 (a * 10 ^ 6)).
  set (r6 := exp_rebuild_step d 6 r7).
  set (r5 := exp_rebuild_step d 5 r6).
  set (r4 := exp_rebuild_step d 4 r5).
  set (r3 := exp_rebuild_step d 3 r4).
  set (r2 := exp_rebuild_step d 2 r3).
  set (r1 := exp_rebuild_step d 1 r2).
  assert (H0 : 0 <= a * 10 ^ 6) by nra.
  destruct (exp_rebuild_step_R d 7 _ ltac:(unfold K; lia) (Hdig _) H0) as [P7 E7].
  fold r7 in P7, E7.
  destruct (exp_rebuild_step_R d 6 _ ltac:(unfold K; lia) (Hdig _) P7) as [P6 E6].
  fold r6 in P6, E6.
  destruct (exp_rebuild_step_R d 5 _ ltac:(unfold K; lia) (Hdig _) P6) as [P5 E5].
  fold r5 in P5, E5.
  destruct (exp_rebuild_step_R d 4 _ ltac:(unfold K; lia) (Hdig _) P5) as [P4 E4].
  fold r4 in P4, E4.
  destruct (exp_rebuild_step_R d 3 _ ltac:(unfold K; lia) (Hdig _) P4) as [P3 E3].
  fold r3 in P3, E3.
  destruct (exp_rebuild_step_R d 2 _ ltac:(unfold K; lia) (Hdig _) P3) as [P2 E2].
  fold r2 in P2, E2.
  destruct (exp_rebuild_step_R d 1 _ ltac:(unfold K; lia) (Hdig _) P2) as [P1 E1].
  fold r1 in P1, E1.
  split; [exact P1|].
  cbn [Nat.sub] in E1, E2, E3, E4, E5, E6, E7.
  replace (r7 * 10 / 10 ^ 6) with (r7 / 10 ^ 5) in E7 by (field; lra).
  replace (r6 * 10 / 10 ^ 5) with (r6 / 10 ^ 4) in E6 by (field; lra).
  replace (r5 * 10 / 10 ^ 4) with (r5 / 10 ^ 3) in E5 by (field; lra).
  replace (r4 * 10 / 10 ^ 3) with (r4 / 10 ^ 2) in E4 by (field; lra).
  replace (r3 * 10 / 10 ^ 2) with (r3 / 10 ^ 1) in E3 by (field; lra).
  replace (r2 * 10 / 10 ^ 1) with (r2 / 10 ^ 0) in E2 by (field; lra).
  replace (a * 10 ^ 6 / 10 ^ 6) with a in E7 by (field; lra).
  replace (1 + r1 * 10 / 10 ^ 0) with ((r1 + 1 / 10) * 10) in E1
    by (simpl; field).
  rewrite E1, E2, E3, E4, E5, E6, E7.
  unfold d, digit. cbn [nth weighted exp_logs].
  unfold ln10. Rlit. replace (10 * / 1) with 10 by lra. ring.
Qed.

Lemma repeat_times_ten (k : Z) (v : R) :
  repeat_int k (fun r : R => (r * lit 10)%num) v = v * 10 ^ Z.to_nat k.
Proof.
  unfold repeat_int. induction (Z.to_nat k) as [|m IH]; simpl.
  - ring.
  - simpl in IH. rewrite IH. unfold Q2R. simpl. lra.
Qed.

(** [exp1] in exact arithmetic: on every input up to 230 it returns a
    positive number whose logarithm is within 1e-12 of the input. *)
Lemma exp1_R (n : R) :
  n <= 230 ->
  exists fuel r,
    exp1 fuel n = Some r /\ 0 < r /\ Rabs (ln r - n) <= 1 / 10 ^ 12.
Proof.
  intros Hn.
  destruct (exp_digits_sum (Rabs n) (Rabs_pos n))
    as (fuel & a & digits & E & Ha & Hlen & Hd & Hsum).
  exists fuel. unfold exp1.
  replace ((n >? lit 230)%num) with false by (symmetry; Rlit; Rcmp_false).
  cbn [fabs Num_R]. rewrite E. cbn [bind].
  replace ((a * pow10 (Z.of_nat K - 1))%num) with (a * 10 ^ 6)
    by (cbn [mul pow10 Num_R]; unfold K; simpl; lra).
  destruct (exp_reconstruct_R digits a Hlen Hd ltac:(lra)) as [Hr Hln].
  set (r := exp_reconstruct digits (a * 10 ^ 6)) in *.
  replace (((r + lit 0.1) * lit 10)%num) with ((r + 1 / 10) * 10)
    by (Rlit; lra).
  rewrite repeat_times_ten.
  set (k := Z.to_nat (digit digits 0)) in *.
  set (v := (r + 1 / 10) * 10 * 10 ^ k).
  assert (Hpow : 0 < 10 ^ k) by (apply pow_lt; lra).
  assert (Hv : 0 < v) by (unfold v; nra).
  assert (Hd0 : (0 <= digit digits 0)%Z).
  { unfold digit. destruct digits as [|d0 digits]; [discriminate Hlen|].
    cbn [nth]. inversion Hd; assumption. }
  assert (Hlnv : ln v = Rabs n + (ln (1 + a) - a)).
  { unfold v. rewrite ln_mult, ln_pow by lra.
    unfold k. rewrite INR_IZR_INZ, Z2Nat.id by exact Hd0. lra. }
  assert (Hsmall : a <= 1 / 10 ^ 6)
    by (pose proof ln_smallest_small; lra).
  pose proof (ln_one_plus a ltac:(lra)) as Hb.
  assert (Ha2 : a ^ 2 <= (1 / 10 ^ 6) ^ 2) by (apply pow_incr; lra).
  eexists. split; [reflexivity|].
  destruct ((n <? lit 0)%num) eqn:Hneg.
  - revert Hneg. Rlit. intros Hneg. apply Rltb_true in Hneg.
    rewrite Rabs_left in Hlnv by lra.
    split; [apply Rdiv_lt_0_compat; lra|].
    replace (1 * / 1 / v) with (/ v) by (field; lra).
    rewrite ln_Rinv by exact Hv. apply Rabs_le. lra.
  - revert Hneg. Rlit. intros Hneg. apply Rltb_false in Hneg.
    rewrite Rabs_pos_eq in Hlnv by lra.
    split; [exact Hv|]. apply Rabs_le. lra.
Qed.

(** The two boundary runs of the specification, in double arithmetic. *)
Lemma exp1_at_231 : exp1 200 231%float = Some 0%float.
Proof. vm_compute. reflexivity. Qed.

Lemma exp1_at_230 :
  exists r : float,
    exp1 200 230%float = Some r
    /\ PrimFloat.ltb 7.722e99 r = true /\ PrimFloat.ltb r 7.723e99 = true.
Proof. eexists. vm_compute. repeat split. Qed.

(** C1, as the specification states it, fails in double arithmetic:
    [-1000] is not above 230, the first digit loop counts 434 copies
    of [ln 10], the 434 multiplications by 10 overflow to infinity and
    the reciprocal taken for a negative input is 0, which is not
    strictly positive. *)
Lemma exp1_zero_below_230 :
  PrimFloat.leb (-1000) 230 = true /\
  option_map fst (exp_digits 500 (PrimFloat.abs (-1000)))
    = Some 9.6305232740854994e-08%float /\
  option_map (fun s => digit (snd s) 0) (exp_digits 500 (PrimFloat.abs (-1000)))
    = Some 434%Z /\
  exp1 500 (-1000)%float = Some 0%float /\
  PrimFloat.ltb 0 0 = false.
Proof. vm_compute. repeat split. Qed.

(** Further down, [exp1] does not return at all in double
    arithmetic: at [-1e17] the subtraction [a - ln10] rounds back to
    [a], so the first digit loop counts without end (and would
    overflow its [int] counter), whatever the number of passes
    allowed. *)
Lemma exp1_never_returns (fuel : nat) : exp1 fuel (-1e17)%float = None.
Proof.
  assert (Hbody : forall d,
            exp_digit_body 0 (1e17%float, d)
            = Some (1e17%float, bump 0 1 d)).
  { intros d. unfold exp_digit_body. cbn [fst snd].
    replace (sub 1e17%float (nth 0 exp_logs (lit 0))) with 1e17%float
      by (vm_compute; reflexivity).
    replace (ltb 1e17%float (lit 0)) with false by (vm_compute; reflexivity).
    reflexivity. }
  assert (Hcond : leb (lit 0) 1e17%float = true) by (vm_compute; reflexivity).
  assert (Hloop : forall f d, exp_digit_loop f 0 (1e17%float, d) = None).
  { unfold exp_digit_loop.
    induction f as [|f IH]; intros d; cbn [do_while]; rewrite Hbody;
      cbn [fst]; rewrite Hcond.
    - reflexivity.
    - apply IH. }
  unfold exp1.
  replace (ltb (lit 230) (-1e17)%float) with false by (vm_compute; reflexivity).
  replace (fabs (-1e17)%float) with 1e17%float by (vm_compute; reflexivity).
  unfold exp_digits. cbn [for_up Nat.add K]. rewrite Hloop. reflexivity.
Qed.

(** ** exp: the order of the reconstruction *)

Lemma exp_ratios_descending : descending (exp_ratios_in_use ++ [1]).
Proof.
  unfold descending, exp_ratios_in_use, exp_table, K. cbn [tl firstn app].
  Rlit.
  repeat (apply SSorted_cons;
          [|repeat (apply Forall_cons; [lra|]); apply Forall_nil]).
  apply SSorted_nil.
Qed.

Lemma ln_ratios_descending : descending (firstn M ln_table ++ [1]).
Proof.
  unfold descending, ln_table, M. cbn [firstn app]. Rlit.
  repeat (apply SSorted_cons;
          [|repeat (apply Forall_cons; [lra|]); apply Forall_nil]).
  apply SSorted_nil.
Qed.

(** C5, as the specification states it, fails.  The first entry the
    reconstruction applies is entry [K = 7], whose ratio 1.000001 is
    the smallest in use, not the largest; and taking the steps from
    the largest ratio down changes the result: with the single digit
    [digits[1] = 1] (the input ln 2) the code rebuilds 0.1 from 0,
    which the last two statements of [exp1] turn into 2, while the
    most-significant-first order rebuilds 1e-7. *)
Lemma exp_reconstruct_not_msb_first :
  hd O (down_from K K) = 7%nat /\
  PrimFloat.ltb (nth 7 exp_table 0%float) (nth 1 exp_table 0%float) = true /\
  exp_reconstruct [0; 1; 0; 0; 0; 0; 0; 0]%Z 0%float = 0.1%float /\
  exp_reconstruct_msb_first [0; 1; 0; 0; 0; 0; 0; 0]%Z 0%float
    = 1.0000000000000002e-07%float /\
  exp_reconstruct_msb_first [0; 1; 0; 0; 0; 0; 0; 0]%Z 0%float
    <> exp_reconstruct [0; 1; 0; 0; 0; 0; 0; 0]%Z 0%float.
Proof.
  split; [reflexivity|]. split; [reflexivity|].
  split; [vm_compute; reflexivity|]. split.
  - vm_compute. reflexivity.
  - vm_compute. intros E.
    apply (f_equal (fun x => PrimFloat.eqb x 0.1)) in E.
    vm_compute in E. discriminate.
Qed.

(** C5, as the code has it.  The reconstruction of [exp1] visits the
    entries 7, 6, ..., 1 in this order (entry 0, the [ln 10] entry,
    is left out); at each entry it applies [result = result * ratio + 1]
    once per digit count and then divides by 10.  The ratios of
    entries 1 to 7 descend from 2 to 1.000001, so the walk starts at
    the least significant entry and ends at the most significant one:
    the same direction as the recombination of [ln1], which visits
    6, 5, ..., 0 over ratios that descend in the same way. *)
Theorem exp_reconstruct_order :
  (forall (T : Type) (N : Num T) (digits : list Z) (r : T),
      exp_reconstruct digits r
      = fold_left (fun r j => exp_rebuild_step digits j r)
          [7; 6; 5; 4; 3; 2; 1]%nat r
      /\ (forall j,
            exp_rebuild_step digits j r
            = div (Nat.iter (Z.to_nat (digit digits j))
                     (fun r => add (mul r (nth j exp_table (lit 0))) (lit 1)) r)
                (lit 10))
      /\ ln_recombine digits r
         = fold_left
             (fun res j =>
                add res (mul (of_int (digit digits j)) (nth j ln_logs (lit 0))))
             [6; 5; 4; 3; 2; 1; 0]%nat
             (div (sub (lit 10) r) (lit 10)))
  /\ descending (exp_ratios_in_use ++ [1])
  /\ descending (firstn M ln_table ++ [1]).
Proof.
  split; [|split; [exact exp_ratios_descending | exact ln_ratios_descending]].
  intros T N digits r. split; [|split].
  - unfold exp_reconstruct. rewrite for_down_visits. reflexivity.
  - intros j. reflexivity.
  - unfold ln_recombine. rewrite for_down_visits. reflexivity.
Qed.

(** ** The round trip through ln and exp *)

(** [EXP(LN(x))] in exact arithmetic: on every positive [x] whose
    computed logarithm is at most 230, the round trip returns [x] to
    within [x * 6e-12]. *)
Lemma exp_of_ln_R (x : R) :
  0 < x ->
  exists fuel l,
    ln1 fuel x = Some l
    /\ 0 <= l - ln x <= 2 / 10 ^ 12
    /\ (l <= 230 ->
        exists r, exp_of_ln fuel x = Some r /\ Rabs (r - x) <= x * (6 / 10 ^ 12)).
Proof.
  intros Hx. destruct (ln1_R x Hx) as (f1 & l & E1 & Hl).
  destruct (Rle_dec l 230) as [Hle|Hgt].
  - destruct (exp1_R l Hle) as (f2 & r & E2 & Hr & Hlr).
    exists (Nat.max f1 f2), l.
    pose proof (ln1_more_fuel f1 _ _ _ (Nat.le_max_l f1 f2) E1) as E1'.
    split; [exact E1'|]. split; [exact Hl|]. intros _.
    exists r. unfold exp_of_ln. rewrite E1'. cbn [bind].
    split; [apply (exp1_more_fuel f2 _ _ _ (Nat.le_max_r f1 f2) E2)|].
    set (d := ln r - ln x).
    assert (Hd : Rabs d <= 3 / 10 ^ 12).
    { unfold d. apply Rabs_le.
      pose proof (Rle_abs (ln r - l)) as H1.
      pose proof (Rle_abs (- (ln r - l))) as H2.
      rewrite Rabs_Ropp in H2. lra. }
    assert (Er : r = x * exp d).
    { assert (Hq : exp d = r / x).
      { unfold d. unfold Rminus. rewrite exp_plus, exp_Ropp.
        rewrite (exp_ln r Hr), (exp_ln x Hx). reflexivity. }
      rewrite Hq. field. lra. }
    rewrite Er.
    replace (x * exp d - x) with (x * (exp d - 1)) by ring.
    rewrite Rabs_mult, (Rabs_pos_eq x) by lra.
    apply Rmult_le_compat_l; [lra|].
    pose proof (exp_near_one d ltac:(lra)). lra.
  - exists f1, l. split; [exact E1|]. split; [exact Hl|]. lra.
Qed.

(** C8, as the specification states it, fails: for 1e200 the
    logarithm, 460.5, is above 230, [exp1] answers with its sentinel
    0, and the difference to [x] is [x] itself; no tolerance that
    depends on the tables alone is above it.  On the last harness
    input the round trip is good to 13 digits and still 2.9e21 away
    from [x]. *)
Lemma exp_of_ln_far :
  PrimFloat.ltb 0 1e200 = true /\
  ln1 200 1e200%float = Some 460.51701859880785%float /\
  exp_of_ln 200 1e200%float = Some 0%float /\
  PrimFloat.abs (0 - 1e200) = 1e200%float /\
  PrimFloat.ltb (PrimFloat.abs (0 - 1e200)) 1 = false /\
  exp_of_ln 200 1.234e34%float = Some 1.2339999999997097e+34%float /\
  PrimFloat.ltb 1e21 (PrimFloat.abs (1.2339999999997097e+34 - 1.234e34))
  = true.
Proof. vm_compute. repeat split. Qed.

Lemma exp_of_ln_tests :
  Forall (fun x : float =>
            exists r, exp_of_ln 200 x = Some r
                      /\ PrimFloat.leb (PrimFloat.abs (r - x)) (x * 1e-12)
                         = true)%float
         tests_ln.
Proof.
  unfold tests_ln.
  repeat (apply Forall_cons; [eexists; vm_compute; split; reflexivity|]).
  apply Forall_nil.
Qed.

(** C8, as the code has it.  Whenever [Ln(x)] is above 230 the round
    trip returns 0, whatever the arithmetic.  In exact arithmetic
    [Ln(x)] is returned for every [x > 0], and when it is at most 230
    [Exp(Ln(x))] is within [x * 6e-12] of [x]: the tolerance is
    relative to [x] and holds on the domain that [exp1] accepts.  In
    double arithmetic the twelve inputs of the symmetry test come
    back within [x * 1e-12]. *)
Theorem exp_of_ln_round_trip :
  (forall (T : Type) (N : Num T) (fuel : nat) (x l : T),
      ln1 fuel x = Some l -> ltb (lit 230) l = true ->
      exp_of_ln fuel x = Some (lit 0))
  /\ (forall x : R,
        0 < x ->
        exists fuel l,
          ln1 fuel x = Some l
          /\ (l <= 230 ->
              exists r,
                exp_of_ln fuel x = Some r
                /\ Rabs (r - x) <= x * (6 / 10 ^ 12)))
  /\ Forall (fun x : float =>
               exists r, exp_of_ln 200 x = Some r
                         /\ PrimFloat.leb (PrimFloat.abs (r - x)) (x * 1e-12)
                            = true)%float
            tests_ln.
Proof.
  split; [|split; [|exact exp_of_ln_tests]].
  - intros T N fuel x l El Hl. unfold exp_of_ln. rewrite El. cbn [bind].
    apply exp1_above_230, Hl.
  - intros x Hx. destruct (exp_of_ln_R x Hx) as (fuel & l & E & _ & Hr).
    exists fuel, l. split; [exact E | exact Hr].
Qed.

Lemma exp_of_ln_round_trip_witness :
  (ln1 200 1e200%float = Some 460.51701859880785%float
   /\ PrimFloat.ltb 230 460.51701859880785 = true
   /\ exp_of_ln 200 1e200%float = Some 0%float)
  /\ (0 < 2
      /\ exists fuel l,
           ln1 fuel 2 = Some l
           /\ (l <= 230 ->
               exists r,
                 exp_of_ln fuel 2 = Some r
                 /\ Rabs (r - 2) <= 2 * (6 / 10 ^ 12))).
Proof.
  assert (E : ln1 200 1e200%float = Some 460.51701859880785%float)
    by (vm_compute; reflexivity).
  split.
  - split; [exact E|]. split; [reflexivity|].
    exact (proj1 exp_of_ln_round_trip float Num_float 200%nat 1e200%float
             460.51701859880785%float E eq_refl).
  - split; [lra|]. apply (proj1 (proj2 exp_of_ln_round_trip)). lra.
Defined.

(** ** Range reduction *)

Lemma two_pi_R_value : two_pi_R = 2 * (3141592653589793 / 10 ^ 15).
Proof. unfold two_pi_R, pi. Rlit. lra. Qed.

Lemma lit_two_pi : (lit 2 * pi)%num = two_pi_R.
Proof. unfold two_pi_R, pi. Rlit. lra. Qed.

Lemma powerRZ_10_nat (e : Z) :
  (0 < e)%Z -> exists m : nat, powerRZ 10 e = INR m /\ 10 <= INR m.
Proof.
  intros He. exists (10 ^ Z.to_nat e)%nat.
  rewrite <- (Z2Nat.id e) at 1 by lia. rewrite <- pow_powerRZ.
  rewrite pow_INR. replace (INR 10) with 10 by (simpl; lra).
  split; [reflexivity|].
  replace 10 with (10 ^ 1) at 1 by lra.
  apply Rle_pow; [lra | lia].
Qed.

Lemma rr_scale_step_R (n : R) (e : Z) :
  rr_scale_step (n, e)
  = if Rleb (two_pi_R * powerRZ 10 e) n
    then (n - two_pi_R * powerRZ 10 e, e) else (n, (e - 1)%Z).
Proof.
  unfold rr_scale_step. cbn [fst snd]. rewrite lit_two_pi. reflexivity.
Qed.

(** The first loop in exact arithmetic, from any exponent: it leaves
    with the exponent at or below 0, having subtracted a whole number
    of periods and kept [n] non-negative.  Every pass either lowers the
    exponent or takes more than 60 off [n]. *)
Lemma rr_scale_R :
  forall fuel n e,
    0 <= n -> ((0 < e)%Z -> IZR e + n / 60 <= INR fuel) ->
    exists n' e' (m : nat),
      rr_scale fuel n e = Some (n', e')
      /\ (e' <= 0)%Z /\ 0 <= n' /\ n = n' + INR m * two_pi_R.
Proof.
  unfold rr_scale.
  induction fuel as [|f IH]; intros n e Hn Hfuel.
  - assert (He : (e <= 0)%Z).
    { destruct (Z_lt_le_dec 0 e) as [Hp|]; [|assumption].
      specialize (Hfuel Hp). simpl INR in Hfuel.
      assert (1 <= IZR e) by (apply IZR_le; lia). lra. }
    exists n, e, O. rewrite while_skip by (cbn [snd]; apply Z.ltb_ge; exact He).
    simpl INR. repeat split; [assumption | assumption | lra].
  - destruct (Z_lt_le_dec 0 e) as [Hp|He].
    + rewrite while_next by (cbn [snd]; apply Z.ltb_lt; exact Hp).
      specialize (Hfuel Hp). rewrite S_INR in Hfuel.
      destruct (powerRZ_10_nat e Hp) as (m & Em & Hm).
      rewrite rr_scale_step_R, Em.
      pose proof two_pi_R_value as Hv.
      destruct (Rleb (two_pi_R * INR m) n) eqn:E.
      * apply Rleb_true in E.
        destruct (IH (n - two_pi_R * INR m) e) as (n' & e' & k & E' & He' & Hn' & Hk).
        { lra. }
        { intros _. nra. }
        exists n', e', (k + m)%nat. rewrite E'.
        rewrite plus_INR. repeat split; [assumption | assumption | lra].
      * destruct (IH n (e - 1)%Z) as (n' & e' & k & E' & He' & Hn' & Hk).
        { exact Hn. }
        { intros _. rewrite minus_IZR. lra. }
        exists n', e', k. rewrite E'. repeat split; assumption.
    + exists n, e, O. rewrite while_skip by (cbn [snd]; apply Z.ltb_ge; exact He).
      simpl INR. repeat split; [assumption | assumption | lra].
Qed.

(** The second loop in exact arithmetic: it leaves in (-2 pi, 0]. *)
Lemma rr_unit_R :
  forall fuel n,
    - two_pi_R < n -> n <= INR fuel * two_pi_R ->
    exists n' (m : nat),
      rr_unit fuel n = Some n'
      /\ - two_pi_R < n' <= 0 /\ n = n' + INR m * two_pi_R.
Proof.
  unfold rr_unit. rewrite lit_two_pi. pose proof two_pi_R_value as Hv.
  induction fuel as [|f IH]; intros n Hlo Hhi.
  - exists n, O. rewrite while_skip.
    + simpl INR in *. repeat split; lra.
    + Rlit. Rcmp_false. simpl INR in Hhi. lra.
  - destruct (Rlt_dec 0 n) as [Hp|Hp].
    + rewrite while_next by (Rlit; Rcmp_true).
      destruct (IH (n - two_pi_R)%num) as (n' & m & E & Hr & Hm).
      * cbn [sub Num_R]. lra.
      * rewrite S_INR in Hhi. cbn [sub Num_R]. lra.
      * exists n', (S m). rewrite E. rewrite S_INR.
        cbn [sub Num_R] in Hm. repeat split; lra.
    + exists n, O. rewrite while_skip by (Rlit; Rcmp_false).
      simpl INR. repeat split; lra.
Qed.

(** In exact arithmetic, from any starting exponent. *)
Lemma range_reduction_R (n : R) :
  0 <= n ->
  exists fuel r (k : Z),
    range_reduction fuel n = Some r
    /\ 0 < r <= two_pi_R /\ n = r + IZR k * two_pi_R.
Proof.
  intros Hn. pose proof two_pi_R_value as Hv.
  destruct (INR_unbounded (Rabs (IZR (int_log10 n)) + n)) as [fuel Hf].
  assert (Hfuel : IZR (int_log10 n) + n / 60 <= INR fuel /\ n <= INR fuel * two_pi_R).
  { pose proof (Rle_abs (IZR (int_log10 n))).
    pose proof (Rabs_pos (IZR (int_log10 n))).
    pose proof (pos_INR fuel). split; nra. }
  destruct Hfuel as [Hf1 Hf2].
  destruct (rr_scale_R fuel n (int_log10 n) Hn (fun _ => Hf1))
    as (n1 & e1 & m1 & E1 & _ & Hn1 & Hm1).
  assert (Hle : n1 <= n) by (pose proof (pos_INR m1); nra).
  destruct (rr_unit_R fuel n1 ltac:(lra) ltac:(lra))
    as (n2 & m2 & E2 & Hn2 & Hm2).
  exists fuel, (n2 + two_pi_R), (Z.of_nat (m1 + m2) - 1)%Z.
  unfold range_reduction. rewrite E1. cbn [bind fst]. rewrite E2. cbn [bind].
  rewrite lit_two_pi. split; [reflexivity|]. split; [lra|].
  rewrite minus_IZR, <- INR_IZR_INZ, plus_INR. lra.
Qed.

Lemma range_reduction_more_fuel {T : Type} `{Num T} (f f' : nat) (n r : T) :
  (f <= f')%nat ->
  range_reduction f n = Some r -> range_reduction f' n = Some r.
Proof.
  intros Hle. unfold range_reduction, rr_scale, rr_unit.
  destruct (while f _ rr_scale_step _) as [s|] eqn:E1; [|discriminate].
  rewrite (while_more_fuel _ _ _ _ _ _ Hle E1). cbn [bind].
  destruct (while f _ _ (fst s)) as [m|] eqn:E2; [|discriminate].
  rewrite (while_more_fuel _ _ _ _ _ _ Hle E2). tauto.
Qed.

(** C4.  In double arithmetic the code leaves the interval that the
    specification and its own comment ("Reduce ... to (0, 2*PI)")
    give, on small positive angles: for 1e-300 the exponent is not
    positive, the unit loop makes one pass, [1e-300 - 2 pi] rounds to
    [- 2 pi], and adding [2 pi] back gives exactly 0, which is outside
    (0, 2 pi]. *)
Lemma range_reduction_zero :
  PrimFloat.leb 0 1e-300 = true /\
  (int_log10_float 1e-300 <= 0)%Z /\
  (1e-300 - 2 * pi = - (2 * pi))%float /\
  range_reduction 100 1e-300%float = Some 0%float /\
  PrimFloat.ltb 0 0 = false.
Proof. vm_compute. repeat split. discriminate. Qed.

(** X22.  In exact arithmetic every angle [n >= 0] is reduced to
    some [r] in (0, 2 pi] that differs from [n] by a whole number of
    periods, and 0 is reduced to [2 pi]; [pi] is the decimal constant
    of trig.cpp.  In double arithmetic 0 is reduced to [2 pi] as
    well. *)
Theorem range_reduction_interval :
  (forall n : R, 0 <= n ->
     exists fuel r (k : Z),
       range_reduction fuel n = Some r
       /\ 0 < r <= 2 * pi /\ n = r + IZR k * (2 * pi)
       /\ (n = 0 -> r = 2 * pi))
  /\ range_reduction 0 0%float = Some (2 * pi)%float.
Proof.
  split; [|vm_compute; reflexivity].
  intros n Hn.
  destruct (range_reduction_R n Hn) as (fuel & r & k & E & Hr & Hk).
  exists fuel, r, k. fold two_pi_R.
  split; [exact E|]. split; [exact Hr|]. split; [exact Hk|].
  intros ->.
  pose proof two_pi_R_value as Hv.
  assert (Hk0 : IZR k * two_pi_R = - r) by lra.
  destruct (Z_lt_le_dec k (-1)) as [Hlt|Hge].
  - assert (IZR k <= -2) by (apply IZR_le; lia). nra.
  - destruct (Z_lt_le_dec (-1) k) as [Hgt|Hle].
    + assert (0 <= IZR k) by (apply IZR_le; lia). nra.
    + assert (k = (-1)%Z) by lia. subst k. lra.
Qed.

Lemma range_reduction_interval_witness :
  0 <= 100 /\
  exists fuel r (k : Z),
    range_reduction fuel 100 = Some r
    /\ 0 < r <= 2 * pi /\ 100 = r + IZR k * (2 * pi)
    /\ (100 = 0 -> r = 2 * pi).
Proof.
  split; [lra|]. apply (proj1 range_reduction_interval). lra.
Defined.

(** Further runs in double arithmetic: the harness angle 1.234e5 and a
    large one. *)
Example range_reduction_runs :
  range_reduction 100 1.234e5%float = Some 4.5237523001147295%float /\
  range_reduction 500 1e15%float = Some 2.1173916164671382%float.
Proof. vm_compute. split; reflexivity. Qed.

(** ** tan: the degenerate exit *)

Lemma tan_digits_more_fuel {T : Type} `{Num T} (f f' : nat) (y : T) s :
  (f <= f')%nat -> tan_digits f y = Some s -> tan_digits f' y = Some s.
Proof.
  intros Hle. unfold tan_digits. apply for_up_more_fuel.
  intros j s0 s1. unfold tan_digit.
  destruct (while f _ _ s0) as [s2|] eqn:E; [|discriminate].
  rewrite (while_more_fuel _ _ _ _ _ _ Hle E). tauto.
Qed.

Lemma tans_lower (i : nat) :
  (i < K)%nat ->
  Ratan.atan (1 / 1000000) <= nth i (tans (T:=R)) (lit 0).
Proof.
  intros Hi. unfold K in Hi.
  assert (Hmono : forall y, 1 / 1000000 <= y ->
                            Ratan.atan (1 / 1000000) <= Ratan.atan y).
  { intros y [Hy| <-]; [left; apply atan_increasing; lra | right; reflexivity]. }
  do 7 (destruct i as [|i]; [cbn [nth tans]; Rlit; apply Hmono; lra|]).
  lia.
Qed.

Lemma atan_smallest_pos : 0 < Ratan.atan (1 / 1000000).
Proof. rewrite <- atan_0. apply atan_increasing. lra. Qed.

(** The subtraction loop of one entry of [tan1] in exact arithmetic. *)
Lemma tan_subtract_R (i : nat) (t : R) :
  t = nth i (tans (T:=R)) (lit 0) ->
  0 < t ->
  forall fuel y d,
    - t <= y -> y < INR fuel * t ->
    exists y1 d1,
      while fuel (fun s : R * list Z => (fst s >=? lit 0)%num)
        (fun s => ((fst s - nth i tans (lit 0))%num, bump i 1 (snd s))) (y, d)
      = Some (y1, d1)
      /\ - t <= y1 < 0 /\ y1 <= y.
Proof.
  intros Et Ht. subst t. set (t := nth i (tans (T:=R)) (lit 0)) in *.
  induction fuel as [|f IH]; intros y d Hlo Hy.
  - exists y, d. simpl INR in Hy. rewrite while_skip.
    + split; [reflexivity | lra].
    + cbn [fst]. Rlit. Rcmp_false.
  - destruct (Rlt_dec y 0) as [Hneg|Hpos].
    + exists y, d. rewrite while_skip.
      * split; [reflexivity | lra].
      * cbn [fst]. Rlit. Rcmp_false.
    + rewrite while_next by (cbn [fst]; Rlit; Rcmp_true).
      cbn [fst snd].
      destruct (IH (y - t)%num (bump i 1 d)) as (y1 & d1 & E & Hr & Hle).
      * cbn [sub Num_R]. lra.
      * rewrite S_INR in Hy. cbn [sub Num_R]. lra.
      * exists y1, d1. cbn [sub Num_R] in Hle. split; [exact E | lra].
Qed.

(** One entry of the digit walk of [tan1] in exact arithmetic: the
    remainder stays non-negative and falls below the entry's angle. *)
Lemma tan_digit_R (i : nat) (t : R) :
  t = nth i (tans (T:=R)) (lit 0) ->
  0 < t ->
  forall fuel y d,
    0 <= y -> y < INR fuel * t ->
    exists y' d',
      tan_digit fuel i (y, d) = Some (y', d') /\ 0 <= y' < t /\ y' <= y.
Proof.
  intros Et Ht fuel y d Hy Hf.
  destruct (tan_subtract_R i t Et Ht fuel y d ltac:(lra) Hf)
    as (y1 & d1 & E & Hr & Hle).
  unfold tan_digit.
  subst t. set (t := nth i (tans (T:=R)) (lit 0)) in *.
  assert (Hstep : y1 <= y - t).
  { destruct fuel as [|f].
    - simpl INR in Hf. lra.
    - rewrite while_next in E by (cbn [fst]; Rlit; Rcmp_true).
      cbn [fst snd] in E.
      destruct (tan_subtract_R i t eq_refl Ht f (y - t)%num (bump i 1 d))
        as (y2 & d2 & E2 & _ & Hle2).
      + cbn [sub Num_R]. lra.
      + rewrite S_INR in Hf. cbn [sub Num_R]. lra.
      + fold t in E2. rewrite E2 in E. injection E as <- <-.
        cbn [sub Num_R] in Hle2. lra. }
  exists (y1 + t), (bump i (-1) d1). rewrite E.
  cbn [bind fst snd]. split; [reflexivity | lra].
Qed.

Lemma tan_digits_R (y : R) :
  0 <= y ->
  exists fuel y' digits,
    tan_digits fuel y = Some (y', digits) /\ 0 <= y' <= y.
Proof.
  intros Hy. pose proof atan_smallest_pos as Hpos.
  destruct (INR_unbounded (y / Ratan.atan (1 / 1000000))) as [fuel Hf].
  assert (Hfuel : y < INR fuel * Ratan.atan (1 / 1000000)).
  { apply Rmult_lt_reg_r with (/ Ratan.atan (1 / 1000000)).
    - apply Rinv_0_lt_compat, Hpos.
    - rewrite Rmult_assoc, Rinv_r by lra. unfold Rdiv in Hf. lra. }
  destruct (for_up_invariant (fun s : R * list Z => 0 <= fst s <= y)
              (tan_digit fuel) K 0 (y, repeat 0%Z K)) as ([y' digits] & E & Hr).
  - intros i [b d] Hi Hb. cbn [fst] in Hb.
    pose proof (tans_lower i ltac:(lia)) as Ht.
    destruct (tan_digit_R i _ eq_refl ltac:(lra) fuel b d)
      as (b' & d' & E & Hb' & Hle).
    + lra.
    + pose proof (pos_INR fuel). nra.
    + exists (b', d'). split; [exact E|]. cbn [fst]. lra.
  - cbn [fst]. lra.
  - exists fuel, y', digits. split; [exact E | exact Hr].
Qed.

(** In exact arithmetic [tan1] reaches its test [x == 0] on every input. *)
Lemma tan_vector_R (n : R) :
  exists fuel x y, tan_vector fuel n = Some (x, y).
Proof.
  destruct (range_reduction_R (Rabs n) (Rabs_pos n))
    as (f1 & r & k & E1 & Hr & _).
  destruct (tan_digits_R r ltac:(lra)) as (f2 & y' & digits & E2 & _).
  exists (Nat.max f1 f2). unfold tan_vector. cbn [fabs Num_R].
  rewrite (range_reduction_more_fuel f1 _ _ _ (Nat.le_max_l f1 f2) E1).
  cbn [bind].
  rewrite (tan_digits_more_fuel f2 _ _ _ (Nat.le_max_r f1 f2) E2).
  cbn [bind]. destruct (tan_rotate digits y') as [x y]. eauto.
Qed.

(** Negating a double does not change whether it equals zero. *)
Lemma float_eqb_opp_zero (q : float) :
  PrimFloat.eqb (PrimFloat.opp q) 0 = PrimFloat.eqb q 0.
Proof.
  rewrite !eqb_spec, opp_spec.
  replace (Prim2SF 0) with (S754_zero false) by reflexivity.
  destruct (Prim2SF q) as [s|s| |s m e]; try destruct s; reflexivity.
Qed.

(** C7, as the specification states it, fails on the harness input 0:
    [Tan(0)] rotates to (16, 0), so [x] is not 0, and returns the
    quotient 0 / 16, which is 0 as well.  The value 0 is returned
    without [x == 0]. *)
Lemma tan1_zero_quotient :
  tan_vector 100 0%float = Some (16, 0)%float /\
  PrimFloat.eqb 16 0 = false /\
  tan1 100 0%float = Some 0%float.
Proof. vm_compute. repeat split. Qed.

(** C7, as the code has it.  Once [tan1] holds its rotated vector
    [(x, y)], it returns 0 when [x == 0] and otherwise the quotient
    [y / x], negated for a negative input, whatever the arithmetic.
    So the value returned is 0 exactly when [x == 0] or that quotient
    is 0: in double arithmetic for every input that reaches the test,
    in exact arithmetic (where every input reaches it) exactly when
    [x = 0] or [y = 0].  In double arithmetic [Tan(pi/2)] rotates
    (1, 0) twice by the first table entry, to (0, 2), and returns 0;
    [Tan(0)] rotates to (16, 0) and returns 0 as the quotient. *)
Theorem tan1_sentinel :
  (forall (T : Type) (N : Num T) (fuel : nat) (n x y : T),
      tan_vector fuel n = Some (x, y) ->
      tan1 fuel n
      = Some (if eqb x (lit 0) then lit 0
              else if ltb n (lit 0) then opp (div y x) else div y x))
  /\ (forall (fuel : nat) (n x y : float),
        tan_vector fuel n = Some (x, y) ->
        exists r,
          tan1 fuel n = Some r
          /\ (PrimFloat.eqb r 0 = true
              <-> PrimFloat.eqb x 0 = true
                  \/ PrimFloat.eqb (PrimFloat.div y x) 0 = true))
  /\ (forall n : R,
        exists fuel x y r,
          tan_vector fuel n = Some (x, y) /\ tan1 fuel n = Some r
          /\ (r = 0 <-> x = 0 \/ y = 0))
  /\ tan_vector 100 (pi / 2)%float = Some (0, 2)%float
  /\ tan1 100 (pi / 2)%float = Some 0%float
  /\ tan_vector 100 0%float = Some (16, 0)%float
  /\ tan1 100 0%float = Some 0%float.
Proof.
  assert (Hval : forall (T : Type) (N : Num T) (fuel : nat) (n x y : T),
             tan_vector fuel n = Some (x, y) ->
             tan1 fuel n
             = Some (if eqb x (lit 0) then lit 0
                     else if ltb n (lit 0) then opp (div y x) else div y x)).
  { intros T N fuel n x y E. unfold tan1, tan_outcome. rewrite E.
    cbn [bind]. destruct (eqb x (lit 0)); cbn [bind]; [reflexivity|].
    destruct (ltb n (lit 0)); reflexivity. }
  split; [exact Hval|]. split; [|split].
  - intros fuel n x y E. rewrite (Hval _ _ fuel n x y E).
    change (eqb x (lit 0)) with (PrimFloat.eqb x 0).
    destruct (PrimFloat.eqb x 0) eqn:Ex.
    + exists (lit 0). split; [reflexivity|].
      split; [intros _; left; reflexivity | intros _; reflexivity].
    + destruct (ltb n (lit 0)); eexists; (split; [reflexivity|]).
      * change (opp (div y x)) with (PrimFloat.opp (PrimFloat.div y x)).
        rewrite float_eqb_opp_zero.
        split; [intros H; right; exact H | intros [H|H]; [discriminate | exact H]].
      * change (div y x) with (PrimFloat.div y x).
        split; [intros H; right; exact H | intros [H|H]; [discriminate | exact H]].
  - intros n. destruct (tan_vector_R n) as (fuel & x & y & E).
    exists fuel, x, y. eexists. split; [exact E|].
    split; [exact (Hval _ _ fuel n x y E)|].
    cbn [eqb ltb lit opp div Num_R].
    replace (Q2R 0) with 0 by (unfold Q2R; cbn [Qnum Qden]; lra).
    unfold Reqb. destruct (Req_dec_T x 0) as [Hx|Hx].
    + split; [intros _; left; exact Hx | intros _; reflexivity].
    + assert (Hq : y / x = 0 <-> y = 0).
      { split; intros H.
        - apply (f_equal (fun z => z * x)) in H.
          unfold Rdiv in H. rewrite Rmult_assoc, Rinv_l in H by exact Hx. lra.
        - subst y. unfold Rdiv. ring. }
      destruct (Rltb n 0).
      * split.
        -- intros H. right. apply Hq. lra.
        -- intros [H|H]; [contradiction|]. apply Hq in H. lra.
      * split.
        -- intros H. right. apply Hq. exact H.
        -- intros [H|H]; [contradiction|]. apply Hq. exact H.
  - vm_compute. repeat split.
Qed.

Lemma tan1_sentinel_witness :
  tan_vector 100 (pi / 2)%float = Some (0, 2)%float
  /\ tan1 100 (pi / 2)%float = Some 0%float.
Proof.
  assert (E : tan_vector 100 (pi / 2)%float = Some (0, 2)%float)
    by (vm_compute; reflexivity).
  split; [exact E|].
  rewrite (proj1 tan1_sentinel float Num_float 100%nat _ _ _ E).
  vm_compute. reflexivity.
Defined.

(** The harness inputs of [tan1] in double arithmetic. *)
Example tan1_tests :
  map (tan1 100) [0; 0.984736; 0.1; 0.5; 1.5; pi / 2; -1.5; 1.234e5]%float
  = map Some
      [0; 1.5063308518065321; 0.10033467208545019; 0.54630248984379059;
       14.101419947171722; 0; -14.101419947171722;
       5.2381673556199333]%float.
Proof. vm_compute. reflexivity. Qed.

(** ** atan: no error exit, and how far the result is from the arctangent *)

(** One vectoring step turns the vector by the angle of the entry. *)
Lemma atan_rotation (x y t : R) :
  0 < x -> 0 <= y -> 0 < t -> 0 <= y - x * t ->
  Ratan.atan (y / x)
  = Ratan.atan t + Ratan.atan ((y - x * t) / (x + y * t)).
Proof.
  intros Hx Hy Ht Hge.
  assert (Hq : 0 <= y / x) by (apply Rle_mult_inv_pos; assumption).
  assert (Hyt : 0 <= y * t) by nra.
  replace ((y - x * t) / (x + y * t)) with (atan_sub (y / x) t).
  - apply atan_sub_correct.
    + assert (0 <= y / x * t) by nra. lra.
    + pose proof (atan_bound (y / x)) as Hb1.
      pose proof (atan_bound t) as Hb2.
      assert (0 <= Ratan.atan (y / x)).
      { destruct Hq as [Hq| <-]; [|rewrite atan_0; lra].
        left. rewrite <- atan_0. apply atan_increasing, Hq. }
      assert (0 < Ratan.atan t)
        by (rewrite <- atan_0; apply atan_increasing, Ht).
      lra.
    + apply atan_bound.
  - unfold atan_sub. field. split; lra.
Qed.

Lemma table_in_range (i : nat) :
  (i < K)%nat ->
  1 / 1000000 <= nth i (table (T:=R)) (lit 0) <= 1
  /\ nth i (tans (T:=R)) (lit 0) = Ratan.atan (nth i (table (T:=R)) (lit 0)).
Proof.
  intros Hi. unfold K in Hi.
  do 7 (destruct i as [|i];
        [cbn [nth table tans]; split; [Rlit; lra | reflexivity]|]).
  lia.
Qed.

(** The recombination adds the remainder to a sum over the digits. *)
Lemma atan_recombine_split (digits : list Z) (r : R) :
  atan_recombine digits r = r + atan_recombine digits 0.
Proof.
  unfold atan_recombine, K. cbn [for_down Nat.sub Nat.pred].
  cbn [add mul Num_R]. ring.
Qed.

Lemma atan_recombine_zeros : atan_recombine (repeat 0%Z K) (0 : R) = 0.
Proof.
  unfold atan_recombine, K. cbn [for_down Nat.sub Nat.pred repeat digit nth].
  cbn [add mul of_int Num_R]. ring.
Qed.

Lemma atan_recombine_bump (i : nat) (digits : list Z) :
  length digits = K -> (i < K)%nat ->
  atan_recombine (bump i 1 digits) (0 : R)
  = atan_recombine digits 0 + nth i tans (lit 0).
Proof.
  unfold K. intros Hlen Hi.
  do 8 (destruct digits as [|? digits]; try discriminate Hlen).
  unfold atan_recombine, K. cbn [for_down Nat.sub Nat.pred].
  do 7 (destruct i as [|i];
        [cbn [bump digit nth]; cbn [add mul of_int Num_R];
         rewrite plus_IZR; ring|]).
  lia.
Qed.

(** The loop of one entry in exact arithmetic: it keeps [atan_angle]
    and leaves with the vector below the entry's slope. *)
Lemma atan_digit_loop_R (i : nat) (t : R) :
  (i < K)%nat -> t = nth i (table (T:=R)) (lit 0) ->
  forall fuel x y digits,
    1 <= x -> 0 <= y -> y < INR (S fuel) * t -> length digits = K ->
    exists x' y' digits',
      atan_digit_loop fuel i (x, y, digits) = Some (x', y', digits')
      /\ 1 <= x' /\ 0 <= y' <= y /\ y' < x' * t /\ length digits' = K
      /\ atan_angle (x', y', digits') = atan_angle (x, y, digits).
Proof.
  intros Hi Et. destruct (table_in_range i Hi) as [Ht Etan].
  rewrite <- Et in Ht, Etan. unfold atan_digit_loop.
  assert (Hbody : forall x y digits,
            atan_digit_body i (x, y, digits)
            = if Rltb (y - x * t) 0 then None
              else Some (x + y * t, y - x * t, bump i 1 digits)).
  { intros x y digits. unfold atan_digit_body. rewrite <- Et.
    cbn [add sub mul ltb Num_R]. replace (lit 0 : R) with 0 by (Rlit; lra).
    reflexivity. }
  induction fuel as [|f IH]; intros x y digits Hx Hy Hf Hlen.
  - exists x, y, digits. cbn [do_while]. rewrite Hbody.
    simpl INR in Hf.
    replace (Rltb (y - x * t) 0) with true by (symmetry; Rcmp_true; nra).
    repeat split; try lra; try assumption. nra.
  - cbn [do_while]. rewrite Hbody.
    destruct (Rltb (y - x * t) 0) eqn:E.
    + apply Rltb_true in E. exists x, y, digits.
      repeat split; try lra; assumption.
    + apply Rltb_false in E.
      destruct (IH (x + y * t) (y - x * t) (bump i 1 digits))
        as (x' & y' & d' & E' & Hx' & Hy' & Hlt & Hlen' & Hangle).
      * nra.
      * lra.
      * rewrite S_INR in Hf. nra.
      * rewrite bump_length. exact Hlen.
      * exists x', y', d'. split; [exact E'|].
        split; [exact Hx'|]. split; [nra|]. split; [exact Hlt|].
        split; [exact Hlen'|]. rewrite Hangle. unfold atan_angle.
        rewrite atan_recombine_bump by assumption.
        rewrite Etan. rewrite (atan_rotation x y t) by lra. ring.
Qed.

(** All seven entries. *)
Lemma atan_digits_R (y0 : R) :
  0 <= y0 ->
  exists fuel x y digits,
    atan_digits fuel y0 = Some (x, y, digits)
    /\ 1 <= x /\ 0 <= y < x * (1 / 1000000)
    /\ Ratan.atan (y / x) + atan_recombine digits 0 = Ratan.atan y0.
Proof.
  intros Hy0.
  destruct (INR_unbounded (y0 * 1000000)) as [fuel Hf].
  destruct (for_up_indexed
              (fun j (s : R * R * list Z) =>
                 let '(x, y, digits) := s in
                 1 <= x /\ 0 <= y <= y0 /\ length digits = K
                 /\ atan_angle s = Ratan.atan y0
                 /\ (forall i, j = S i ->
                               y < x * nth i (table (T:=R)) (lit 0)))
              (atan_digit_loop fuel) K 0 (lit 1, y0, repeat 0%Z K))
    as ([[x y] digits] & E & Hx & Hy & _ & Hangle & Hlast).
  - intros i [[x y] digits] Hi (Hx & Hy & Hlen & Hangle & _).
    destruct (table_in_range i ltac:(lia)) as [Ht _].
    destruct (atan_digit_loop_R i _ ltac:(lia) eq_refl fuel x y digits)
      as (x' & y' & d' & E' & Hx' & Hy' & Hlt & Hlen' & Hangle').
    + exact Hx.
    + lra.
    + rewrite S_INR. pose proof (pos_INR fuel). nra.
    + exact Hlen.
    + exists (x', y', d'). split; [exact E'|].
      split; [exact Hx'|]. split; [lra|]. split; [exact Hlen'|].
      split; [rewrite Hangle'; exact Hangle|].
      intros i' [= <-]. exact Hlt.
  - replace (lit 1 : R) with 1 by (Rlit; lra).
    split; [lra|]. split; [lra|]. split; [apply repeat_length|].
    split; [|discriminate].
    unfold atan_angle. rewrite atan_recombine_zeros.
    replace (y0 / 1) with y0 by lra. ring.
  - exists fuel, x, y, digits. split; [exact E|]. split; [exact Hx|].
    split; [|exact Hangle].
    specialize (Hlast 6%nat eq_refl). cbn [nth table] in Hlast.
    revert Hlast. Rlit. lra.
Qed.

(** In exact arithmetic [atan1] returns on every input, and what it
    returns is within 1/(3 * 10^18) of the arctangent: the remainder
    [r = y / x] stands in for its own arctangent, and
    [0 <= r - atan r <= r^3 / 3] with [r < 1e-6]. *)
Lemma atan1_R (n : R) :
  exists fuel r,
    atan1 fuel n = Some r
    /\ Rabs (r - Ratan.atan n) <= 1 / (3 * 10 ^ 18).
Proof.
  destruct (atan_digits_R (Rabs n) (Rabs_pos n))
    as (fuel & x & y & digits & E & Hx & Hy & Hangle).
  exists fuel. unfold atan1. cbn [fabs Num_R]. rewrite E. cbn [bind].
  rewrite atan_recombine_split. cbn [div Num_R].
  set (q := y / x) in *. set (D := atan_recombine digits 0) in *.
  assert (Hq : 0 <= q < 1 / 1000000).
  { unfold q. split.
    - apply Rle_mult_inv_pos; lra.
    - apply Rmult_lt_reg_r with x; [lra|].
      unfold Rdiv at 1. rewrite Rmult_assoc, Rinv_l by lra. lra. }
  assert (Herr : 0 <= q - Ratan.atan q <= 1 / (3 * 10 ^ 18)).
  { destruct (Req_dec q 0) as [->|Hne].
    - rewrite atan_0. lra.
    - pose proof (atan_series_bounds q ltac:(lra)) as Hb.
      assert (q ^ 3 <= (1 / 1000000) ^ 3).
      { apply pow_incr. lra. }
      lra. }
  eexists. split; [reflexivity|].
  destruct ((n <? lit 0)%num) eqn:Hneg.
  - revert Hneg. Rlit. intros Hneg. apply Rltb_true in Hneg.
    rewrite Rabs_left in Hangle by lra.
    rewrite atan_opp in Hangle. cbn [opp Num_R].
    replace (- (q + D) - Ratan.atan n) with (- (q - Ratan.atan q)) by lra.
    rewrite Rabs_Ropp, Rabs_pos_eq; lra.
  - revert Hneg. Rlit. intros Hneg. apply Rltb_false in Hneg.
    rewrite Rabs_pos_eq in Hangle by lra.
    replace (q + D - Ratan.atan n) with (q - Ratan.atan q) by lra.
    rewrite Rabs_pos_eq; lra.
Qed.

Lemma atan1_tests :
  Forall (fun n : float =>
            exists r, atan1 100 n = Some r
                      /\ PrimFloat.leb (- (pi / 2)) r = true
                      /\ PrimFloat.leb r (pi / 2) = true)%float
         tests_atan.
Proof.
  unfold tests_atan.
  repeat (apply Forall_cons; [eexists; vm_compute; repeat split|]).
  apply Forall_nil.
Qed.


(** X23.  [atan1] has no error exit: whatever the
    arithmetic, once the seven vectoring loops have left, the result
    is the recombination over the remainder [y / x], negated for a
    negative input.  In exact arithmetic the loops leave on every
    input and the result is within 1/(3 * 10^18) of the arctangent,
    hence within that distance of the interval (-PI/2, PI/2).  In
    double arithmetic the results on the harness inputs lie in the
    closed interval between [- pi / 2] and [pi / 2]. *)
Theorem atan1_range :
  (forall (T : Type) (N : Num T) (fuel : nat) (n x y : T) (digits : list Z),
      atan_digits fuel (fabs n) = Some (x, y, digits) ->
      atan1 fuel n
      = Some (if ltb n (lit 0) then opp (atan_recombine digits (div y x))
              else atan_recombine digits (div y x)))
  /\ (forall n : R,
        exists fuel r,
          atan1 fuel n = Some r
          /\ Rabs (r - Ratan.atan n) <= 1 / (3 * 10 ^ 18)
          /\ - PI / 2 - 1 / (3 * 10 ^ 18) < r < PI / 2 + 1 / (3 * 10 ^ 18))
  /\ Forall (fun n : float =>
               exists r, atan1 100 n = Some r
                         /\ PrimFloat.leb (- (pi / 2)) r = true
                         /\ PrimFloat.leb r (pi / 2) = true)%float
            tests_atan.
Proof.
  split; [|split; [|exact atan1_tests]].
  - intros T N fuel n x y digits E. unfold atan1. rewrite E. reflexivity.
  - intros n. destruct (atan1_R n) as (fuel & r & E & Herr).
    exists fuel, r. split; [exact E|]. split; [exact Herr|].
    pose proof (atan_bound n) as Hb.
    pose proof (Rle_abs (r - Ratan.atan n)) as H1.
    pose proof (Rle_abs (- (r - Ratan.atan n))) as H2.
    rewrite Rabs_Ropp in H2. lra.
Qed.

Lemma atan1_range_witness :
  atan_digits 100 (PrimFloat.abs (-20))
    = Some (29.327744807058902, 5.9392508421511939e-06,
            [1; 7; 3; 7; 7; 6; 0]%Z)%float
  /\ atan1 100 (-20)%float = Some (-1.5208379310729538)%float.
Proof.
  assert (E : atan_digits 100 (fabs (-20)%float)
              = Some (29.327744807058902, 5.9392508421511939e-06,
                      [1; 7; 3; 7; 7; 6; 0]%Z)%float)
    by (vm_compute; reflexivity).
  split; [exact E|].
  rewrite (proj1 atan1_range float Num_float 100%nat (-20)%float _ _ _ E).
  vm_compute. reflexivity.
Defined.

(** ** Further properties *)

(** X1.  In exact arithmetic [ln1] returns on every positive input and
    its result lies between the natural logarithm and the natural
    logarithm plus 2e-12: the only error is that of replacing
    [- ln (a / 10)] by [(10 - a) / 10] for the last mantissa [a],
    which is within one part in a million of 10. *)
Theorem ln1_accuracy (x : R) :
  0 < x ->
  exists fuel l, ln1 fuel x = Some l /\ 0 <= l - ln x <= 2 / 10 ^ 12.
Proof. exact (ln1_R x). Qed.

Lemma ln1_accuracy_witness :
  0 < 10 /\
  exists fuel l, ln1 fuel 10 = Some l /\ 0 <= l - ln 10 <= 2 / 10 ^ 12.
Proof.
  split; [lra|]. apply ln1_accuracy. lra.
Defined.

(** The three concrete scenarios of the specification, in double
    arithmetic: [Ln(10)] is within 1e-7 of 2.302585092994046,
    [Sqrt(2)] within 1e-14 of 1.4142135623730951 and [Atan(1)] within
    1e-7 of 0.7853981633974483. *)
Theorem concrete_scenarios :
  (exists l, ln1 200 10%float = Some l
             /\ PrimFloat.ltb (PrimFloat.abs (l - 2.302585092994046)) 1e-7
                = true)%float
  /\ (exists r, sqrt1 200 2%float = Some r
                /\ PrimFloat.ltb (PrimFloat.abs (r - 1.4142135623730951)) 1e-14
                   = true)%float
  /\ (exists r, atan1 200 1%float = Some r
                /\ PrimFloat.ltb (PrimFloat.abs (r - 0.7853981633974483)) 1e-7
                   = true)%float.
Proof.
  repeat split; eexists; vm_compute; split; reflexivity.
Qed.

(** ** Counters and loops, continued *)

Lemma bump_bump (i : nat) (a b : Z) (digits : list Z) :
  bump i a (bump i b digits) = bump i (b + a) digits.
Proof.
  revert i. induction digits as [|x r IH]; intros [|i]; cbn [bump];
    try reflexivity.
  - f_equal. lia.
  - f_equal. apply IH.
Qed.

Lemma bump_zero (i : nat) (digits : list Z) : bump i 0 digits = digits.
Proof.
  revert i. induction digits as [|x r IH]; intros [|i]; cbn [bump];
    try reflexivity.
  - f_equal. lia.
  - f_equal. apply IH.
Qed.

Lemma bump_comm (i j : nat) (a b : Z) (digits : list Z) :
  bump i a (bump j b digits) = bump j b (bump i a digits).
Proof.
  revert i j. induction digits as [|x r IH]; intros [|i] [|j]; cbn [bump];
    try reflexivity.
  - f_equal. lia.
  - f_equal. apply IH.
Qed.

Lemma bump_nonneg_by (i : nat) (k : Z) (digits : list Z) :
  (0 <= k)%Z ->
  Forall (fun d => (0 <= d)%Z) digits ->
  Forall (fun d => (0 <= d)%Z) (bump i k digits).
Proof.
  intros Hk Hd. revert i. induction Hd as [|d digits Hd Hrest IH]; intros i.
  - destruct i; constructor.
  - destruct i as [|i]; cbn [bump]; constructor; auto. lia.
Qed.

Lemma weighted_bump_by (i : nat) (k : Z) (digits : list Z) (values : list R) :
  (i < length digits)%nat ->
  weighted (bump i k digits) values
  = weighted digits values + IZR k * nth i values 0.
Proof.
  revert i values. induction digits as [|d digits IH]; intros i values Hi.
  - simpl in Hi. lia.
  - destruct values as [|v values].
    + destruct i; simpl; lra.
    + destruct i as [|i]; cbn [bump weighted nth].
      * rewrite plus_IZR. lra.
      * rewrite IH by (simpl in Hi; lia). lra.
Qed.

Lemma digit_bump_same (i : nat) (k : Z) (digits : list Z) :
  (i < length digits)%nat ->
  digit (bump i k digits) i = (digit digits i + k)%Z.
Proof.
  unfold digit. revert i. induction digits as [|x r IH]; intros [|i] Hi;
    simpl in *; try lia.
  apply IH. lia.
Qed.

Lemma digit_bump_other (i j : nat) (k : Z) (digits : list Z) :
  i <> j -> digit (bump i k digits) j = digit digits j.
Proof.
  unfold digit. revert i j.
  induction digits as [|x r IH]; intros [|i] [|j] Hij; simpl; try reflexivity;
    try congruence.
  apply IH. congruence.
Qed.

Lemma digit_repeat_zero (n i : nat) : digit (repeat 0%Z n) i = 0%Z.
Proof.
  unfold digit. revert i. induction n as [|n IH]; intros [|i]; simpl; auto.
Qed.

(** A change of the state that the body and the test of a loop do not
    see passes through the loop. *)
Lemma do_while_map {St : Type} (h : St -> St) (body : St -> option St)
    (cond : St -> bool) :
  (forall s, body (h s) = option_map h (body s)) ->
  (forall s, cond (h s) = cond s) ->
  forall fuel s,
    do_while fuel body cond (h s) = option_map h (do_while fuel body cond s).
Proof.
  intros Hb Hc. induction fuel as [|f IH]; intros s; cbn [do_while];
    rewrite Hb; destruct (body s) as [s'|]; cbn [option_map];
    try reflexivity; rewrite Hc; destruct (cond s'); try reflexivity.
  apply IH.
Qed.

Lemma for_up_map {St : Type} (h : St -> St) (body : nat -> St -> option St) :
  (forall j s, body j (h s) = option_map h (body j s)) ->
  forall n lo s, for_up lo n body (h s) = option_map h (for_up lo n body s).
Proof.
  intros Hb. induction n as [|n IH]; intros lo s; cbn [for_up].
  - reflexivity.
  - rewrite Hb. destruct (body lo s) as [s'|]; cbn [bind option_map].
    + apply IH.
    + reflexivity.
Qed.

Lemma for_up_step {St : Type} (lo n : nat) (body : nat -> St -> option St)
    (s : St) :
  for_up lo (S n) body s = bind (body lo s) (for_up (S lo) n body).
Proof. reflexivity. Qed.

Lemma pow_count_below (t b : R) (k m : nat) :
  1 <= t -> t ^ k < b -> b <= t ^ m -> (k < m)%nat.
Proof.
  intros Ht Hk Hm.
  destruct (Nat.lt_ge_cases k m) as [|Hge]; [assumption|].
  pose proof (Rle_pow t m k Ht Hge). lra.
Qed.

Lemma ln_le_ten_ln (a b : R) :
  0 < a -> 0 < b -> a <= b ^ 10 -> ln a <= 10 * ln b.
Proof.
  intros Ha Hb Hab.
  replace (10 * ln b) with (INR 10 * ln b) by (simpl; lra).
  rewrite <- ln_pow by exact Hb.
  destruct Hab as [Hlt | ->];
    [left; apply ln_increasing; assumption | right; reflexivity].
Qed.

Lemma ln_10_below_9 : ln 10 <= 9.
Proof.
  pose proof (exp_ineq1_le 9) as He.
  rewrite <- (ln_exp 9).
  destruct (Rle_lt_or_eq_dec _ _ He) as [Hlt|Heq].
  - left. apply ln_increasing; lra.
  - right. f_equal. lra.
Qed.

(** [ln 10] is above 2.3: a power of [1 + 2249/2000000] that stays
    below 10, by repeated squaring with upward rounding. *)
Lemma pow_square_step (x u : R) (n : nat) :
  0 <= x -> x * x <= u -> x ^ (2 * n) <= u ^ n.
Proof.
  intros Hx Hu. rewrite pow_mult. apply pow_incr. simpl. nra.
Qed.

Lemma ln_10_above : 23 / 10 < ln 10.
Proof.
  assert (Hx : 0 < 1 + 2249 / 2000000) by lra.
  pose proof (ln_one_plus (2249 / 2000000) ltac:(lra)) as [Hlo _].
  assert (Hpow : (1 + 2249 / 2000000) ^ 2048 <= 10).
  {
    apply Rle_trans with ((1002250264501 / 1000000000000) ^ 1024).
    { clear Hlo; apply (pow_square_step (1 + 2249 / 2000000) (1002250264501 / 1000000000000) 1024); lra. }
    apply Rle_trans with ((1004505592693 / 1000000000000) ^ 512).
    { clear Hlo; apply (pow_square_step (1002250264501 / 1000000000000) (1004505592693 / 1000000000000) 512); lra. }
    apply Rle_trans with ((126128935719 / 125000000000) ^ 256).
    { clear Hlo; apply (pow_square_step (1004505592693 / 1000000000000) (126128935719 / 125000000000) 256); lra. }
    apply Rle_trans with ((1018144539239 / 1000000000000) ^ 128).
    { clear Hlo; apply (pow_square_step (126128935719 / 125000000000) (1018144539239 / 1000000000000) 128); lra. }
    apply Rle_trans with ((1036618302783 / 1000000000000) ^ 64).
    { clear Hlo; apply (pow_square_step (1018144539239 / 1000000000000) (1036618302783 / 1000000000000) 64); lra. }
    apply Rle_trans with ((214915501133 / 200000000000) ^ 32).
    { clear Hlo; apply (pow_square_step (1036618302783 / 1000000000000) (214915501133 / 200000000000) 32); lra. }
    apply Rle_trans with ((577358407841 / 500000000000) ^ 16).
    { clear Hlo; apply (pow_square_step (214915501133 / 200000000000) (577358407841 / 500000000000) 16); lra. }
    apply Rle_trans with ((1333370924419 / 1000000000000) ^ 8).
    { clear Hlo; apply (pow_square_step (577358407841 / 500000000000) (1333370924419 / 1000000000000) 8); lra. }
    apply Rle_trans with ((888939011043 / 500000000000) ^ 4).
    { clear Hlo; apply (pow_square_step (1333370924419 / 1000000000000) (888939011043 / 500000000000) 4); lra. }
    apply Rle_trans with ((3160850261417 / 1000000000000) ^ 2).
    { clear Hlo; apply (pow_square_step (888939011043 / 500000000000) (3160850261417 / 1000000000000) 2); lra. }
    apply Rle_trans with ((99909743751 / 10000000000) ^ 1).
    { clear Hlo; apply (pow_square_step (3160850261417 / 1000000000000) (99909743751 / 10000000000) 1); lra. }
    simpl pow. lra. }
  assert (Hln : ln ((1 + 2249 / 2000000) ^ 2048) <= ln 10).
  { destruct Hpow as [Hlt | ->]; [left | right; reflexivity].
    apply ln_increasing; [apply pow_lt; exact Hx | exact Hlt]. }
  rewrite ln_pow in Hln by exact Hx. clear Hpow.
  replace (INR 2048) with 2048 in Hln
    by (rewrite INR_IZR_INZ; reflexivity).
  lra.
Qed.

(** ** Doubles: signs, zero and infinity *)

Lemma float_abs_opp (x : float) :
  PrimFloat.abs (PrimFloat.opp x) = PrimFloat.abs x.
Proof.
  apply Prim2SF_inj. rewrite !abs_spec, opp_spec.
  destruct (Prim2SF x); reflexivity.
Qed.

(** What the tests of the sources see of a double above zero and of
    its negation. *)
Lemma float_pos_tests (n : float) :
  PrimFloat.ltb 0 n = true ->
  PrimFloat.ltb n 0 = false /\ PrimFloat.eqb n 0 = false
  /\ PrimFloat.ltb (PrimFloat.opp n) 0 = true
  /\ PrimFloat.ltb (lit 230) (PrimFloat.opp n) = false.
Proof.
  rewrite !ltb_spec, eqb_spec, opp_spec.
  replace (Prim2SF 0) with (S754_zero false) by reflexivity.
  set (c := Prim2SF (lit 230)). vm_compute in c. subst c.
  destruct (Prim2SF n) as [s|s| |s m e]; try destruct s; cbn;
    try discriminate; auto.
Qed.

Lemma float_nonneg_not_neg (a : float) :
  PrimFloat.leb 0 a = true -> PrimFloat.ltb a 0 = false.
Proof.
  rewrite leb_spec, ltb_spec.
  replace (Prim2SF 0) with (S754_zero false) by reflexivity.
  destruct (Prim2SF a) as [s|s| |s m e]; try destruct s; cbn;
    try discriminate; auto.
Qed.

Lemma float_div_by_zero (n : float) :
  PrimFloat.ltb 0 n = true -> PrimFloat.div n 0 = infinity.
Proof.
  intros H. apply Prim2SF_inj. rewrite div_spec. revert H.
  rewrite ltb_spec.
  replace (Prim2SF 0) with (S754_zero false) by reflexivity.
  destruct (Prim2SF n) as [s|s| |s m e]; try destruct s; cbn;
    try discriminate; reflexivity.
Qed.

Lemma float_div_by_infinity (n : float) :
  PrimFloat.ltb 0 n = true -> PrimFloat.div n (lit 10) = 0%float ->
  PrimFloat.div n infinity = 0%float.
Proof.
  intros H H10. apply Prim2SF_inj. rewrite div_spec.
  apply (f_equal Prim2SF) in H10. rewrite div_spec in H10.
  revert H H10. rewrite ltb_spec.
  replace (Prim2SF 0) with (S754_zero false) by reflexivity.
  replace (Prim2SF infinity) with (S754_infinity false) by reflexivity.
  destruct (Prim2SF n) as [s|s| |s m e]; try destruct s; cbn;
    try discriminate; try reflexivity.
Qed.

(** ** exp: absorbed subtractions, negative inputs, decades and counters *)

(** The first digit loop of [exp1] never leaves when subtracting
    [ln10] from the magnitude gives the magnitude back. *)
Lemma exp1_absorbed (fuel : nat) (n : float) :
  PrimFloat.ltb (lit 230) n = false ->
  PrimFloat.leb 0 (PrimFloat.abs n) = true ->
  PrimFloat.sub (PrimFloat.abs n) ln10 = PrimFloat.abs n ->
  exp1 fuel n = None.
Proof.
  intros Hguard Hpos Hsub.
  pose proof (float_nonneg_not_neg _ Hpos) as Hneg.
  assert (Hbody : forall d,
            exp_digit_body 0 (PrimFloat.abs n, d)
            = Some (PrimFloat.abs n, bump 0 1 d)).
  { intros d. unfold exp_digit_body. cbn [fst snd nth exp_logs].
    change (sub (PrimFloat.abs n) ln10)
      with (PrimFloat.sub (PrimFloat.abs n) ln10).
    rewrite Hsub.
    change (ltb (PrimFloat.abs n) (lit 0))
      with (PrimFloat.ltb (PrimFloat.abs n) 0).
    rewrite Hneg. reflexivity. }
  assert (Hloop : forall f d,
            exp_digit_loop f 0 (PrimFloat.abs n, d) = None).
  { unfold exp_digit_loop.
    induction f as [|f IH]; intros d; cbn [do_while]; rewrite Hbody;
      cbn [fst];
      change (leb (lit 0) (PrimFloat.abs n))
        with (PrimFloat.leb 0 (PrimFloat.abs n));
      rewrite Hpos.
    - reflexivity.
    - apply IH. }
  unfold exp1.
  change (ltb (lit 230) n) with (PrimFloat.ltb (lit 230) n).
  rewrite Hguard. change (fabs n) with (PrimFloat.abs n).
  unfold exp_digits. cbn [for_up Nat.add K]. rewrite Hloop. reflexivity.
Qed.

(** X3.  In double arithmetic [exp1] does not return, whatever the
    number of passes allowed, on any input that is not above 230 and
    whose magnitude [a] absorbs the first subtraction, [a - ln10 == a]:
    the first digit loop then counts without end (and would overflow
    its [int] counter).  This is the case at [-1e17] and at minus
    infinity. *)
Theorem exp1_stalls (fuel : nat) (n : float) :
  PrimFloat.ltb (lit 230) n = false ->
  PrimFloat.leb 0 (PrimFloat.abs n) = true ->
  PrimFloat.sub (PrimFloat.abs n) ln10 = PrimFloat.abs n ->
  exp1 fuel n = None.
Proof. exact (exp1_absorbed fuel n). Qed.

Lemma exp1_stalls_witness :
  exp1 1000 (-1e17)%float = None /\ exp1 1000 neg_infinity = None.
Proof.
  split.
  - apply (exp1_stalls 1000 (-1e17)%float); vm_compute; reflexivity.
  - apply (exp1_stalls 1000 neg_infinity); vm_compute; reflexivity.
Defined.

(** X4.  In double arithmetic, for every [n > 0] that is not above 230,
    [Exp(-n)] is exactly [1 / Exp(n)]: the two calls run the same
    loops on [fabs(n)] and differ in the final reciprocal only (and
    neither returns when the other does not). *)
Theorem exp1_reciprocal (fuel : nat) (n : float) :
  PrimFloat.ltb 0 n = true -> PrimFloat.ltb (lit 230) n = false ->
  exp1 fuel (PrimFloat.opp n)
  = option_map (fun r => PrimFloat.div 1 r) (exp1 fuel n).
Proof.
  intros H H230. destruct (float_pos_tests n H) as (H1 & _ & H2 & H3).
  unfold exp1.
  change (fabs (PrimFloat.opp n)) with (PrimFloat.abs (PrimFloat.opp n)).
  change (ltb (PrimFloat.opp n) (lit 0))
    with (PrimFloat.ltb (PrimFloat.opp n) 0).
  change (ltb n (lit 0)) with (PrimFloat.ltb n 0).
  change (ltb (lit 230) (PrimFloat.opp n))
    with (PrimFloat.ltb (lit 230) (PrimFloat.opp n)).
  change (ltb (lit 230) n) with (PrimFloat.ltb (lit 230) n).
  rewrite float_abs_opp, H1, H2, H3, H230.
  change (PrimFloat.abs n) with (fabs n).
  destruct (exp_digits fuel (fabs n)) as [[a d]|]; reflexivity.
Qed.

Lemma exp1_reciprocal_witness :
  exp1 100 (-1)%float
  = option_map (fun r => PrimFloat.div 1 r) (exp1 100 1%float)
  /\ exp1 100 1%float = Some 2.718281828459026%float.
Proof.
  split.
  - apply (exp1_reciprocal 100 1%float); vm_compute; reflexivity.
  - vm_compute. reflexivity.
Defined.

(** A count added to entry [i] beforehand passes through the digit
    loops of [exp1], which only read the remainder. *)
Lemma exp_digit_loop_bumped {T : Type} `{Num T} (i : nat) (c : Z)
    (fuel j : nat) (s : T * list Z) :
  exp_digit_loop fuel j (fst s, bump i c (snd s))
  = option_map (fun s' => (fst s', bump i c (snd s')))
      (exp_digit_loop fuel j s).
Proof.
  unfold exp_digit_loop.
  rewrite <- (do_while_map (fun s' => (fst s', bump i c (snd s')))).
  - reflexivity.
  - intros [a d]. unfold exp_digit_body. cbn [fst snd].
    destruct (ltb _ _); cbn [option_map]; [reflexivity|].
    rewrite bump_comm. reflexivity.
  - intros [a d]. reflexivity.
Qed.

(** The reconstruction does not read entry 0. *)
Lemma exp_reconstruct_bumped {T : Type} `{Num T} (c : Z) (digits : list Z)
    (r : T) :
  exp_reconstruct (bump 0 c digits) r = exp_reconstruct digits r.
Proof.
  unfold exp_reconstruct, K. cbn [for_down Nat.pred]. unfold exp_rebuild_step.
  rewrite !digit_bump_other by lia. reflexivity.
Qed.

(** X5.  In exact arithmetic, adding [ln 10] to a non-negative input
    of [exp1] multiplies the result by 10 exactly, as long as the sum
    stays within the accepted range: the first digit loop counts one
    more, every other loop runs as before, and the final loop
    multiplies by 10 once more. *)
Theorem exp1_times_ten (n : R) :
  0 <= n -> n + ln 10 <= 230 ->
  exists fuel r,
    exp1 fuel n = Some r /\ exp1 fuel (n + ln 10) = Some (r * 10).
Proof.
  intros Hn H230.
  assert (Hln : 0 < ln 10) by (rewrite <- ln_1; apply ln_increasing; lra).
  destruct (exp_digits_sum n Hn) as (f & a & digits & E & Ha & Hlen & Hd & _).
  assert (EL : nth 0 (exp_logs (T:=R)) (lit 0) = ln 10).
  { cbn [nth exp_logs]. unfold ln10. Rlit. f_equal. lra. }
  assert (E' : exp_digits (S f) (n + ln 10) = Some (a, bump 0 1 digits)).
  { revert E. unfold exp_digits, K. cbn [Nat.add].
    rewrite (for_up_step 0 7 (exp_digit_loop f)).
    rewrite (for_up_step 0 7 (exp_digit_loop (S f))).
    destruct (exp_digit_loop f 0 (n, repeat 0%Z 8)) as [s1|] eqn:E1;
      [|discriminate].
    cbn [bind]. intros E.
    assert (E0 : exp_digit_loop (S f) 0 (n + ln 10, repeat 0%Z 8)
                 = Some (fst s1, bump 0 1 (snd s1))).
    { unfold exp_digit_loop. cbn [do_while]. unfold exp_digit_body at 1.
      cbn [fst snd]. rewrite EL. cbn [sub Num_R].
      replace (n + ln 10 - ln 10) with n by ring.
      replace ((n <? lit 0)%num) with false by (symmetry; Rlit; Rcmp_false).
      cbn [fst].
      replace ((lit 0 <=? n)%num) with true by (symmetry; Rlit; Rcmp_true).
      fold (exp_digit_loop f 0 (n, bump 0 1 (repeat 0%Z 8))).
      rewrite (exp_digit_loop_bumped 0 1 f 0 (n, repeat 0%Z 8)).
      rewrite E1. reflexivity. }
    rewrite E0. cbn [bind].
    pose proof (for_up_more_fuel (exp_digit_loop f) (exp_digit_loop (S f))
                  ltac:(intros j s s'; apply do_while_more_fuel; lia)
                  _ _ _ _ E) as E2.
    pose proof (for_up_map
                  (fun s' : R * list Z => (fst s', bump 0 1 (snd s')))
                  (exp_digit_loop (S f))
                  ltac:(intros j s; apply exp_digit_loop_bumped) 7 1 s1) as Hm.
    cbn beta in Hm. rewrite Hm, E2. reflexivity. }
  assert (Hd0 : (0 <= digit digits 0)%Z).
  { unfold digit. destruct digits as [|d0 digits]; [discriminate Hlen|].
    cbn [nth]. inversion Hd; assumption. }
  assert (E1 : exp_digits (S f) n = Some (a, digits)).
  { revert E. unfold exp_digits. apply for_up_more_fuel.
    intros j s s'. apply do_while_more_fuel. lia. }
  exists (S f). unfold exp1.
  replace ((n >? lit 230)%num) with false
    by (symmetry; Rlit; Rcmp_false).
  replace (((n + ln 10)%R >? lit 230)%num) with false
    by (symmetry; Rlit; Rcmp_false).
  cbn [fabs Num_R]. rewrite !Rabs_pos_eq by lra.
  rewrite E1, E'. cbn [bind].
  replace ((n <? lit 0)%num) with false by (symmetry; Rlit; Rcmp_false).
  replace (((n + ln 10)%R <? lit 0)%num) with false
    by (symmetry; Rlit; Rcmp_false).
  rewrite exp_reconstruct_bumped.
  rewrite digit_bump_same by (rewrite Hlen; unfold K; lia).
  eexists. split; [reflexivity|].
  unfold repeat_int. rewrite Z2Nat.inj_add by lia.
  rewrite Nat.add_comm. cbn [Z.to_nat Pos.to_nat Pos.iter_op Nat.add].
  rewrite Nat.iter_succ. f_equal. Rlit. lra.
Qed.

Lemma exp1_times_ten_witness :
  0 <= 1 /\ 1 + ln 10 <= 230 /\
  exists fuel r,
    exp1 fuel 1 = Some r /\ exp1 fuel (1 + ln 10) = Some (r * 10).
Proof.
  assert (H : 1 + ln 10 <= 230) by (pose proof ln_10_below_9; lra).
  split; [lra|]. split; [exact H|].
  apply (exp1_times_ten 1); [lra | exact H].
Defined.

(** Each logarithm of the table of [exp1] is at most ten times the
    next one. *)
Lemma exp_logs_ratio (j : nat) :
  (j < K)%nat ->
  nth j (exp_logs (T:=R)) (lit 0) <= 10 * nth (S j) (exp_logs (T:=R)) (lit 0).
Proof.
  intros Hj. unfold K in Hj.
  do 7 (destruct j as [|j];
        [cbn [nth exp_logs]; unfold ln10; Rlit;
         apply ln_le_ten_ln; [lra | lra | simpl pow; lra]|]).
  lia.
Qed.

(** A digit loop of [exp1] in exact arithmetic, with its count. *)
Lemma exp_digit_loop_count (j : nat) (L : R) :
  L = nth j (exp_logs (T:=R)) (lit 0) -> 0 < L ->
  forall fuel a digits,
    0 <= a -> a < INR (S fuel) * L ->
    exists k : nat,
      exp_digit_loop fuel j (a, digits)
      = Some (a - INR k * L, bump j (Z.of_nat k) digits)
      /\ 0 <= a - INR k * L < L.
Proof.
  intros EL HL. unfold exp_digit_loop.
  assert (Hbody : forall a digits,
            exp_digit_body j (a, digits)
            = if Rltb (a - L) 0 then None
              else Some (a - L, bump j 1 digits)).
  { intros a digits. unfold exp_digit_body. rewrite <- EL. cbn [fst snd].
    cbn [sub ltb Num_R]. replace (lit 0 : R) with 0 by (Rlit; lra).
    reflexivity. }
  assert (Hcond : forall a, 0 <= a -> (a >=? lit 0)%num = true).
  { intros a Ha. Rlit. Rcmp_true. }
  induction fuel as [|f IH]; intros a digits Ha Hf.
  - exists O. cbn [do_while]. rewrite Hbody. simpl INR in *.
    replace (Rltb (a - L) 0) with true by (symmetry; Rcmp_true).
    cbn [Z.of_nat]. rewrite bump_zero.
    replace (a - 0 * L) with a by ring. split; [reflexivity | lra].
  - cbn [do_while]. rewrite Hbody.
    destruct (Rltb (a - L) 0) eqn:E.
    + apply Rltb_true in E. exists O. cbn [Z.of_nat]. rewrite bump_zero.
      simpl INR. replace (a - 0 * L) with a by ring.
      split; [reflexivity | lra].
    + apply Rltb_false in E. cbn [fst]. rewrite Hcond by exact E.
      destruct (IH (a - L) (bump j 1 digits)) as (k & E' & Hk).
      * exact E.
      * rewrite S_INR in Hf. lra.
      * exists (S k). rewrite E', bump_bump, S_INR.
        replace (1 + Z.of_nat k)%Z with (Z.of_nat (S k)) by lia.
        replace (a - (INR k + 1) * L) with (a - L - INR k * L) by ring.
        split; [reflexivity | lra].
Qed.

(** The digit loops of [exp1] in exact arithmetic, with their counts:
    entry 0 is the number of whole multiples of [ln 10] in the
    magnitude, entries 1 to [K] are decimal digits. *)
Lemma exp_digits_count_R (a0 : R) :
  0 <= a0 ->
  exists fuel a digits,
    exp_digits fuel a0 = Some (a, digits)
    /\ (0 <= digit digits 0)%Z
    /\ IZR (digit digits 0) * ln 10 <= a0 < (IZR (digit digits 0) + 1) * ln 10
    /\ (a0 <= 230 -> (digit digits 0 <= 99)%Z)
    /\ forall j, (1 <= j <= K)%nat -> (0 <= digit digits j <= 9)%Z.
Proof.
  intros Ha0.
  destruct (INR_unbounded (a0 / ln (1000001 / 1000000))) as [fuel Hf].
  pose proof ln_smallest_pos as Hpos.
  assert (Hfuel : a0 < INR (S fuel) * ln (1000001 / 1000000)).
  { rewrite S_INR. apply Rmult_lt_reg_r with (/ ln (1000001 / 1000000)).
    - apply Rinv_0_lt_compat, Hpos.
    - rewrite Rmult_assoc, Rinv_r by lra. unfold Rdiv in Hf. lra. }
  destruct (for_up_indexed
              (fun j (s : R * list Z) =>
                 0 <= fst s <= a0 /\ length (snd s) = (K + 1)%nat
                 /\ (forall i, (j <= i)%nat -> digit (snd s) i = 0%Z)
                 /\ (forall i, (1 <= i < j)%nat ->
                               (0 <= digit (snd s) i <= 9)%Z)
                 /\ (forall i, j = S i ->
                               fst s < nth i (exp_logs (T:=R)) (lit 0))
                 /\ (j = O -> fst s = a0)
                 /\ ((1 <= j)%nat ->
                     (0 <= digit (snd s) 0)%Z
                     /\ IZR (digit (snd s) 0) * ln 10 <= a0
                        < (IZR (digit (snd s) 0) + 1) * ln 10))
              (exp_digit_loop fuel) (K + 1) 0 (a0, repeat 0%Z (K + 1)))
    as ([a digits] & E & Ha & Hlen & Hz & Hb & Hlast & _ & H0).
  - intros j [a digits] Hj (Ha & Hlen & Hz & Hb & Hlast & Hstart & H0).
    cbn [fst snd] in *.
    pose proof (exp_logs_lower j ltac:(lia)) as HL.
    set (L := nth j (exp_logs (T:=R)) (lit 0)) in *.
    destruct (exp_digit_loop_count j L eq_refl ltac:(lra) fuel a digits)
      as (k & E & Hk).
    + lra.
    + assert (0 <= INR (S fuel)) by apply pos_INR. nra.
    + exists (a - INR k * L, bump j (Z.of_nat k) digits).
      split; [exact E|]. cbn [fst snd].
      assert (HkL : 0 <= INR k * L).
      { apply Rmult_le_pos; [apply pos_INR | lra]. }
      assert (Hdj : digit (bump j (Z.of_nat k) digits) j = Z.of_nat k).
      { rewrite digit_bump_same by lia. rewrite Hz by lia. lia. }
      split; [lra|]. split; [rewrite bump_length; exact Hlen|].
      split; [|split; [|split; [|split]]].
      * intros i Hi. rewrite digit_bump_other by lia. apply Hz. lia.
      * intros i Hi. destruct (Nat.eq_dec i j) as [->|Hne].
        -- rewrite Hdj.
           destruct j as [|j']; [lia|].
           specialize (Hlast j' eq_refl).
           pose proof (exp_logs_ratio j' ltac:(lia)) as Hratio.
           fold L in Hratio.
           assert (Hk10 : INR k < 10) by nra.
           assert (k < 10)%nat.
           { apply INR_lt. simpl INR in *. lra. }
           lia.
        -- rewrite digit_bump_other by lia. apply Hb. lia.
      * intros i [= <-]. fold L. lra.
      * intros Ej. lia.
      * intros _. destruct j as [|j'].
        -- rewrite Hdj. split; [lia|].
           assert (EL : L = ln 10).
           { unfold L. cbn [nth exp_logs]. unfold ln10. Rlit. f_equal. lra. }
           rewrite <- EL, <- INR_IZR_INZ.
           rewrite (Hstart eq_refl) in Hk. lra.
        -- rewrite digit_bump_other by lia. apply H0. lia.
  - cbn [fst snd]. split; [lra|]. split; [apply repeat_length|].
    split; [intros; apply digit_repeat_zero|].
    split; [intros; lia|]. split; [discriminate|].
    split; [reflexivity | lia].
  - cbn [fst snd] in *. exists fuel, a, digits. split; [exact E|].
    destruct (H0 ltac:(unfold K; lia)) as [H00 H01].
    split; [exact H00|]. split; [exact H01|].
    split; [|intros j Hj; apply Hb; lia].
    intros H230. pose proof ln_10_above as Hln.
    destruct (Z_lt_le_dec (digit digits 0) 100) as [Hlt|Hge]; [lia|].
    apply IZR_le in Hge. nra.
Qed.

Lemma exp_digits_more_fuel {T : Type} `{Num T} (f f' : nat) (a : T) s :
  (f <= f')%nat -> exp_digits f a = Some s -> exp_digits f' a = Some s.
Proof.
  intros Hle. unfold exp_digits. apply for_up_more_fuel.
  intros j s0 s1. apply do_while_more_fuel, Hle.
Qed.

(** X6.  In exact arithmetic the digit loops of [exp1] return on every
    magnitude [a0] from 0 up to [2^31 * ln 10] (about 4.94e9) with
    counters that fit the [int] of the source: entry 0 is the number
    of whole multiples of [ln 10] in [a0], below 2^31, and at most 99
    when [a0 <= 230] (as the comment at the range check says); entries
    1 to [K] lie between 0 and 9, so each inner loop of the
    reconstruction runs at most nine times.  From [2^31 * ln 10] on
    the [int] counter of the source overflows, and nothing is stated. *)
Theorem exp_digits_bounded (a0 : R) :
  0 <= a0 < 2147483648 * ln 10 ->
  exists fuel a digits,
    exp_digits fuel a0 = Some (a, digits)
    /\ (0 <= digit digits 0 < 2147483648)%Z
    /\ IZR (digit digits 0) * ln 10 <= a0 < (IZR (digit digits 0) + 1) * ln 10
    /\ (a0 <= 230 -> (digit digits 0 <= 99)%Z)
    /\ forall j, (1 <= j <= K)%nat -> (0 <= digit digits j <= 9)%Z.
Proof.
  intros [Ha0 Hmax].
  destruct (exp_digits_count_R a0 Ha0)
    as (fuel & a & digits & E & H0 & Hfloor & H99 & Hd).
  exists fuel, a, digits. split; [exact E|].
  split; [|split; [exact Hfloor | split; [exact H99 | exact Hd]]].
  split; [exact H0|].
  pose proof ln_10_above as Hln.
  apply lt_IZR.
  apply Rmult_lt_reg_r with (ln 10); [lra|]. lra.
Qed.

Lemma exp_digits_bounded_witness :
  0 <= 5 < 2147483648 * ln 10 /\
  exists fuel a digits,
    exp_digits fuel 5 = Some (a, digits)
    /\ (0 <= digit digits 0 < 2147483648)%Z
    /\ IZR (digit digits 0) * ln 10 <= 5 < (IZR (digit digits 0) + 1) * ln 10
    /\ (5 <= 230 -> (digit digits 0 <= 99)%Z)
    /\ forall j, (1 <= j <= K)%nat -> (0 <= digit digits j <= 9)%Z.
Proof.
  assert (H : 0 <= 5 < 2147483648 * ln 10)
    by (pose proof ln_10_above; lra).
  split; [exact H|]. apply (exp_digits_bounded 5 H).
Defined.

(** C1, as the code has it.  [exp1] returns 0 on every input above
    230, whatever the arithmetic.  In exact arithmetic every input
    from [- 2^31 * ln 10] (about -4.94e9) up to 230 gives a strictly
    positive result, whose logarithm is within 1e-12 of the input, and
    on the way the counters fit the [int] of the source: entry 0 stays
    below 2^31 and the others are decimal digits.  (Below that range
    [digits[0]] overflows in the source; nothing is stated there.)  In
    double arithmetic [Exp(231)] is 0 and [Exp(230)] is finite and
    positive, between 7.722e99 and 7.723e99 (e^230 = 7.72201...e99). *)
Theorem exp1_range :
  (forall (T : Type) (N : Num T) (fuel : nat) (n : T),
      ltb (lit 230) n = true -> exp1 fuel n = Some (lit 0))
  /\ (forall n : R,
        - (2147483648 * ln 10) < n <= 230 ->
        exists fuel a digits r,
          exp_digits fuel (fabs n) = Some (a, digits)
          /\ (0 <= digit digits 0 < 2147483648)%Z
          /\ (forall j, (1 <= j <= K)%nat -> (0 <= digit digits j <= 9)%Z)
          /\ exp1 fuel n = Some r
          /\ 0 < r /\ Rabs (ln r - n) <= 1 / 10 ^ 12)
  /\ exp1 200 231%float = Some 0%float
  /\ (exists r : float,
        exp1 200 230%float = Some r
        /\ PrimFloat.ltb 7.722e99 r = true /\ PrimFloat.ltb r 7.723e99 = true).
Proof.
  split; [intros T N; apply exp1_above_230|].
  split; [|split; [exact exp1_at_231 | exact exp1_at_230]].
  intros n [Hlo Hhi].
  pose proof ln_10_above as Hln.
  assert (Habs : 0 <= Rabs n < 2147483648 * ln 10).
  { split; [apply Rabs_pos|].
    unfold Rabs. destruct (Rcase_abs n); lra. }
  destruct (exp_digits_count_R (Rabs n) (proj1 Habs))
    as (f1 & a & digits & E & H0 & Hfloor & _ & Hd).
  destruct (exp1_R n Hhi) as (f2 & r & Er & Hr & Hacc).
  exists (Nat.max f1 f2), a, digits, r.
  split; [exact (exp_digits_more_fuel f1 _ _ _ (Nat.le_max_l f1 f2) E)|].
  split.
  { split; [exact H0|]. apply lt_IZR.
    apply Rmult_lt_reg_r with (ln 10); [lra|]. lra. }
  split; [exact Hd|].
  split; [exact (exp1_more_fuel f2 _ _ _ (Nat.le_max_r f1 f2) Er)|].
  split; [exact Hr | exact Hacc].
Qed.

Lemma exp1_range_witness :
  (PrimFloat.ltb 230 1e10 = true /\ exp1 0 1e10%float = Some 0%float)
  /\ (- (2147483648 * ln 10) < -1000 <= 230
      /\ exists fuel a digits r,
           exp_digits fuel (fabs (-1000)%R) = Some (a, digits)
           /\ (0 <= digit digits 0 < 2147483648)%Z
           /\ (forall j, (1 <= j <= K)%nat -> (0 <= digit digits j <= 9)%Z)
           /\ exp1 fuel (-1000)%R = Some r
           /\ 0 < r /\ Rabs (ln r - -1000) <= 1 / 10 ^ 12).
Proof.
  assert (H : - (2147483648 * ln 10) < -1000 <= 230)
    by (pose proof ln_10_above; lra).
  split.
  - split; [reflexivity|].
    exact (proj1 exp1_range float Num_float O 1e10%float eq_refl).
  - split; [exact H|]. apply (proj1 (proj2 exp1_range) (-1000) H).
Defined.

(** ** ln: decades and counters *)

(** The exponent loop of [ln1] reads the mantissa only: an amount
    already in the accumulator comes out on top of the loop's own. *)
Lemma ln_exponent_shift (c : R) :
  forall fuel a k,
    while fuel (fun s : R * R => (fst s >=? lit 10)%num)
      (fun s => (fst s / lit 10, snd s + ln10)%num) (a, k + c)
    = option_map (fun s => (fst s, snd s + c))
        (while fuel (fun s : R * R => (fst s >=? lit 10)%num)
           (fun s => (fst s / lit 10, snd s + ln10)%num) (a, k)).
Proof.
  induction fuel as [|f IH]; intros a k; cbn [while fst snd].
  - destruct ((lit 10 <=? a)%num); reflexivity.
  - destruct ((lit 10 <=? a)%num); [|reflexivity].
    rewrite <- IH. do 2 f_equal. cbn [add Num_R]. ring.
Qed.

(** X7.  In exact arithmetic, multiplying an input [x >= 1] of [ln1]
    by 10 adds [ln 10] to the result exactly: the exponent loop
    divides once more and leaves the same mantissa, so the digit loops
    and the recombination run as before. *)
Theorem ln1_times_ten (x : R) :
  1 <= x ->
  exists fuel l,
    ln1 fuel x = Some l /\ ln1 fuel (10 * x) = Some (l + ln 10).
Proof.
  intros Hx.
  destruct (ln1_R x ltac:(lra)) as (f & l & E & _).
  exists (S f), l. split; [apply (ln1_more_fuel f); [lia | exact E]|].
  revert E. unfold ln1.
  replace ((x <=? lit 0)%num) with false by (symmetry; Rlit; Rcmp_false).
  replace (((10 * x)%R <=? lit 0)%num) with false
    by (symmetry; Rlit; Rcmp_false).
  destruct (ln_exponent f x) as [[a0 k]|] eqn:E1; [|discriminate].
  cbn [bind].
  destruct (ln_digits f a0) as [[a digits]|] eqn:E2; [|discriminate].
  cbn [bind]. intros [= <-].
  assert (E1' : ln_exponent (S f) (10 * x) = Some (a0, k + ln 10)).
  { revert E1. unfold ln_exponent. intros E1.
    rewrite while_next by (cbn [fst]; Rlit; Rcmp_true).
    cbn [fst snd].
    replace ((10 * x)%R / lit 10)%num with x by (Rlit; lra).
    replace (lit 0 + ln10)%num with ((lit 0 : R) + ln 10)
      by (unfold ln10; Rlit; do 2 f_equal; lra).
    rewrite ln_exponent_shift, E1. reflexivity. }
  assert (E2' : ln_digits (S f) a0 = Some (a, digits)).
  { revert E2. unfold ln_digits. apply for_up_more_fuel.
    intros j s s'. apply do_while_more_fuel. lia. }
  rewrite E1'. cbn [bind]. rewrite E2'. cbn [bind].
  apply f_equal. unfold ln10. cbn [add sub log lit Num_R]. ring.
Qed.

Lemma ln1_times_ten_witness :
  1 <= 2 /\
  exists fuel l,
    ln1 fuel 2 = Some l /\ ln1 fuel (10 * 2) = Some (l + ln 10).
Proof.
  split; [lra|]. apply (ln1_times_ten 2). lra.
Defined.

(** Each ratio of the table of [ln1] is at most the tenth power of the
    next one. *)
Lemma ln_table_ratio (j : nat) :
  (S j < M)%nat ->
  nth j (ln_table (T:=R)) (lit 0) <= nth (S j) (ln_table (T:=R)) (lit 0) ^ 10.
Proof.
  intros Hj. unfold M in Hj.
  do 6 (destruct j as [|j]; [cbn [nth ln_table]; Rlit; simpl pow; lra|]).
  lia.
Qed.

(** A digit loop of [ln1] in exact arithmetic, with its count. *)
Lemma ln_digit_loop_count (i : nat) (t : R) :
  t = nth i (ln_table (T:=R)) (lit 0) -> 1 < t ->
  forall fuel a digits,
    0 < a < 10 -> 10 <= a * t ^ S fuel ->
    exists k : nat,
      ln_digit_loop fuel i (a, digits)
      = Some (a * t ^ k, bump i (Z.of_nat k) digits)
      /\ a * t ^ k < 10 /\ 10 <= a * t ^ S k.
Proof.
  intros Et Ht. unfold ln_digit_loop.
  assert (Hbody : forall a digits,
            ln_digit_body i (a, digits)
            = if Rleb 10 (a * t) then None
              else Some (a * t, bump i 1 digits)).
  { intros a digits. unfold ln_digit_body. rewrite <- Et. cbn [fst snd].
    cbn [mul leb Num_R]. replace (lit 10 : R) with 10 by (Rlit; lra).
    reflexivity. }
  assert (Hcond : forall a, a < 10 -> (a <? lit 10)%num = true).
  { intros a Ha. Rlit. Rcmp_true. }
  induction fuel as [|f IH]; intros a digits Ha Hreach.
  - exists O. cbn [do_while]. rewrite Hbody. simpl pow in *.
    replace (Rleb 10 (a * t)) with true by (symmetry; Rcmp_true).
    cbn [Z.of_nat]. rewrite bump_zero. replace (a * 1) with a by ring.
    split; [reflexivity | lra].
  - cbn [do_while]. rewrite Hbody.
    destruct (Rleb 10 (a * t)) eqn:E.
    + apply Rleb_true in E. exists O. cbn [Z.of_nat]. rewrite bump_zero.
      simpl pow. replace (a * 1) with a by ring.
      split; [reflexivity | lra].
    + apply Rleb_false in E. cbn [fst]. rewrite Hcond by exact E.
      destruct (IH (a * t) (bump i 1 digits)) as (k & E' & Hk).
      * nra.
      * change (t ^ S (S f)) with (t * t ^ S f) in Hreach. lra.
      * exists (S k). rewrite E', bump_bump.
        replace (1 + Z.of_nat k)%Z with (Z.of_nat (S k)) by lia.
        change (t ^ S (S k)) with (t * t ^ S k).
        change (t ^ S k) with (t * t ^ k) at 1 2.
        replace (a * (t * t ^ k)) with (a * t * t ^ k) by ring.
        split; [reflexivity|].
        replace (a * (t * t ^ S k)) with (a * t * t ^ S k) by ring.
        exact Hk.
Qed.

(** The digit loops of [ln1] on a mantissa between 1 and 10. *)
Lemma ln_digits_count_R (a0 : R) :
  1 <= a0 < 10 ->
  exists fuel a digits,
    ln_digits fuel a0 = Some (a, digits)
    /\ (digit digits 0 <= 3)%Z
    /\ forall j, (j < M)%nat -> (0 <= digit digits j <= 9)%Z.
Proof.
  intros Ha0.
  destruct (pow_reaches (1000001 / 1000000) (10 / a0) ltac:(lra)) as [fuel Hf].
  assert (Hreach : 10 <= a0 * (1000001 / 1000000) ^ fuel).
  { apply Rmult_le_reg_r with (/ a0).
    - apply Rinv_0_lt_compat. lra.
    - rewrite (Rmult_comm a0), Rmult_assoc, Rinv_r by lra.
      unfold Rdiv in Hf. lra. }
  destruct (for_up_indexed
              (fun j (s : R * list Z) =>
                 a0 <= fst s < 10 /\ length (snd s) = M
                 /\ (forall i, (j <= i)%nat -> digit (snd s) i = 0%Z)
                 /\ (forall i, (i < j)%nat -> (0 <= digit (snd s) i <= 9)%Z)
                 /\ (forall i, j = S i ->
                               10 <= fst s * nth i (ln_table (T:=R)) (lit 0))
                 /\ ((1 <= j)%nat -> (digit (snd s) 0 <= 3)%Z))
              (ln_digit_loop fuel) M 0 (a0, repeat 0%Z M))
    as ([a digits] & E & Ha & Hlen & Hz & Hb & Hlast & H0).
  - intros i [a digits] Hi (Ha & Hlen & Hz & Hb & Hlast & H0).
    cbn [fst snd] in *.
    destruct (ln_table_in_range i ltac:(lia)) as [Ht _].
    set (t := nth i (ln_table (T:=R)) (lit 0)) in *.
    destruct (ln_digit_loop_count i t eq_refl ltac:(lra) fuel a digits)
      as (k & E' & Hk1 & Hk2).
    + lra.
    + assert (Hpow : (1000001 / 1000000) ^ fuel <= t ^ S fuel).
      { apply Rle_trans with (t ^ fuel).
        - apply pow_incr. lra.
        - simpl. assert (0 < t ^ fuel) by (apply pow_lt; lra). nra. }
      assert (0 < (1000001 / 1000000) ^ fuel) by (apply pow_lt; lra).
      nra.
    + exists (a * t ^ k, bump i (Z.of_nat k) digits).
      split; [exact E'|]. cbn [fst snd].
      assert (Hdi : digit (bump i (Z.of_nat k) digits) i = Z.of_nat k).
      { rewrite digit_bump_same by lia. rewrite Hz by lia. lia. }
      assert (Htk : 1 <= t ^ k) by (apply pow_R1_Rle; lra).
      assert (Hk : (i = 0%nat -> (k < 4)%nat) /\ (k < 10)%nat).
      { destruct i as [|i'].
        - assert (Et : t = 2) by (unfold t; cbn [nth ln_table]; Rlit; lra).
          assert (k < 4)%nat.
          { apply (pow_count_below t 10); [lra | nra |].
            rewrite Et. simpl pow. lra. }
          split; [tauto | lia].
        - split; [discriminate|].
          specialize (Hlast i' eq_refl).
          pose proof (ln_table_ratio i' ltac:(lia)) as Hratio. fold t in Hratio.
          set (u := nth i' (ln_table (T:=R)) (lit 0)) in *.
          apply (pow_count_below t u); [lra | | exact Hratio].
          nra. }
      split; [nra|]. split; [rewrite bump_length; exact Hlen|].
      split; [|split; [|split]].
      * intros j Hj. rewrite digit_bump_other by lia. apply Hz. lia.
      * intros j Hj. destruct (Nat.eq_dec j i) as [->|Hne].
        -- rewrite Hdi. lia.
        -- rewrite digit_bump_other by lia. apply Hb. lia.
      * intros j [= <-]. fold t.
        change (t ^ S k) with (t * t ^ k) in Hk2. lra.
      * intros _. destruct i as [|i'].
        -- rewrite Hdi. destruct Hk as [Hk _]. specialize (Hk eq_refl). lia.
        -- rewrite digit_bump_other by lia. apply H0. lia.
  - cbn [fst snd]. split; [lra|]. split; [apply repeat_length|].
    split; [intros; apply digit_repeat_zero|].
    split; [intros; lia|]. split; [discriminate | lia].
  - cbn [fst snd] in *. exists fuel, a, digits. split; [exact E|].
    split; [apply H0; unfold M; lia|].
    intros j Hj. apply Hb. exact Hj.
Qed.

(** X8.  In exact arithmetic, on every input [n >= 1] the exponent
    loop and the digit loops of [ln1] return with counters that are
    decimal digits: every entry lies between 0 and 9, and entry 0 (the
    doublings) is at most 3.  The bound needs [n >= 1]: below 1 the
    mantissa is [n] itself and entry 0 grows with [- log2 n]. *)
Theorem ln1_digits_bounded (n : R) :
  1 <= n ->
  exists fuel a0 kln10 a digits,
    ln_exponent fuel n = Some (a0, kln10)
    /\ ln_digits fuel a0 = Some (a, digits)
    /\ (digit digits 0 <= 3)%Z
    /\ forall j, (j < M)%nat -> (0 <= digit digits j <= 9)%Z.
Proof.
  intros Hn.
  destruct (ten_power_above n) as [f1 Hf1].
  destruct (ln_exponent_R f1 n ltac:(lra) Hf1) as (a0 & j & E1 & Ha0 & H1 & _).
  destruct (ln_digits_count_R a0 ltac:(lra))
    as (f2 & a & digits & E2 & Hd0 & Hd).
  exists (Nat.max f1 f2), a0, (INR j * ln 10), a, digits.
  split; [|split; [|split; [exact Hd0 | exact Hd]]].
  - unfold ln_exponent in *.
    exact (while_more_fuel _ _ _ _ _ _ (Nat.le_max_l f1 f2) E1).
  - revert E2. unfold ln_digits. apply for_up_more_fuel.
    intros i s s'. apply do_while_more_fuel, Nat.le_max_r.
Qed.

Lemma ln1_digits_bounded_witness :
  1 <= 1234 /\
  exists fuel a0 kln10 a digits,
    ln_exponent fuel 1234 = Some (a0, kln10)
    /\ ln_digits fuel a0 = Some (a, digits)
    /\ (digit digits 0 <= 3)%Z
    /\ forall j, (j < M)%nat -> (0 <= digit digits j <= 9)%Z.
Proof.
  split; [lra|]. apply (ln1_digits_bounded 1234). lra.
Defined.

(** ** sqrt: distance to the square root, and underflow of the first guess *)

(** X2.  In exact arithmetic [sqrt1] returns on every [n > 0], and its
    result is never below the square root and at most 1e-15 above it:
    every Newton iterate after the first lies on or above the root, and
    the last step, which the loop test bounds by 1e-15, bounds the
    distance that is left. *)
Theorem sqrt1_accuracy (n : R) :
  0 < n ->
  exists fuel r,
    sqrt1 fuel n = Some r /\ 0 <= r - R_sqrt.sqrt n <= 1 / 10 ^ 15.
Proof.
  intros Hn.
  destruct (sqrt1_positive_R n Hn)
    as (fuel & l & r & _ & Hr & Hl & Hrl & Hd & Hsq).
  exists fuel, r. split; [exact Hr|].
  assert (Hs : 0 < R_sqrt.sqrt n) by (apply sqrt_lt_R0; exact Hn).
  assert (Hss : R_sqrt.sqrt n * R_sqrt.sqrt n = n) by (apply sqrt_sqrt; lra).
  assert (Hrpos : 0 < r).
  { rewrite Hrl. assert (0 < n / l) by (apply Rdiv_lt_0_compat; lra). lra. }
  set (s := R_sqrt.sqrt n) in *. set (d := l - r) in *.
  assert (Hprod : (r - s) * (r + s) = d * d) by nra.
  assert (Hge : 0 <= r - s).
  { destruct (Rle_or_lt 0 (r - s)) as [|Hneg]; [assumption|].
    assert (0 <= d * d) by nra. nra. }
  split; [exact Hge|].
  assert (Hd2 : Rabs d * Rabs d = d * d).
  { unfold Rabs. destruct (Rcase_abs d); ring. }
  assert (Hda : 0 <= Rabs d) by apply Rabs_pos.
  assert (Hle : r - s <= Rabs d).
  { destruct (Rle_or_lt (r - s) (Rabs d)) as [|Hgt]; [assumption|].
    assert ((r - s) * (r - s) <= (r - s) * (r + s)) by nra.
    nra. }
  lra.
Qed.

Lemma sqrt1_accuracy_witness :
  0 < 2 /\
  exists fuel r,
    sqrt1 fuel 2 = Some r /\ 0 <= r - R_sqrt.sqrt 2 <= 1 / 10 ^ 15.
Proof.
  split; [lra|]. apply (sqrt1_accuracy 2). lra.
Defined.

Lemma sqrt1_more_fuel {T : Type} `{Num T} (f f' : nat) (n r : T) :
  (f <= f')%nat -> sqrt1 f n = Some r -> sqrt1 f' n = Some r.
Proof.
  intros Hle. unfold sqrt1.
  destruct (n <? lit 0)%num; [tauto|].
  destruct (n =? lit 0)%num; [tauto|].
  unfold sqrt_loop.
  destruct (do_while f _ _ _) as [s|] eqn:E; [|discriminate].
  rewrite (do_while_more_fuel _ _ _ _ _ _ Hle E). tauto.
Qed.

(** X9.  In double arithmetic [sqrt1] returns +infinity on every
    positive input so small that the first guess [n / 10] underflows
    to 0 (the five smallest positive doubles): the first pass divides
    by zero, the second divides by infinity, and the loop test then
    compares a NaN and leaves. *)
Theorem sqrt1_underflow (fuel : nat) (n : float) :
  PrimFloat.ltb 0 n = true -> PrimFloat.div n (lit 10) = 0%float ->
  sqrt1 (S fuel) n = Some infinity.
Proof.
  intros Hpos H10.
  destruct (float_pos_tests n Hpos) as (Hneg & Hzero & _).
  unfold sqrt1.
  change (ltb n (lit 0)) with (PrimFloat.ltb n 0).
  change (eqb n (lit 0)) with (PrimFloat.eqb n 0).
  rewrite Hneg, Hzero.
  change (div n (lit 10)) with (PrimFloat.div n (lit 10)).
  rewrite H10. unfold sqrt_loop. cbn [do_while].
  assert (E1 : sqrt_step n (0%float, 0%float) = (0%float, infinity)).
  { unfold sqrt_step. cbn [fst snd].
    change (div n 0%float) with (PrimFloat.div n 0).
    rewrite (float_div_by_zero n Hpos). vm_compute. reflexivity. }
  assert (E2 : sqrt_step n (0%float, infinity) = (infinity, infinity)).
  { unfold sqrt_step. cbn [fst snd].
    change (div n infinity) with (PrimFloat.div n infinity).
    rewrite (float_div_by_infinity n Hpos H10). vm_compute. reflexivity. }
  rewrite E1.
  replace (sqrt_cond (0%float, infinity)) with true
    by (vm_compute; reflexivity).
  destruct fuel; cbn [do_while]; rewrite E2;
    replace (sqrt_cond (infinity, infinity)) with false
      by (vm_compute; reflexivity);
    reflexivity.
Qed.

Lemma sqrt1_underflow_witness :
  sqrt1 1 5e-324%float = Some infinity
  /\ sqrt1 1 2.5e-323%float = Some infinity.
Proof.
  split.
  - apply (sqrt1_underflow 0 5e-324%float); vm_compute; reflexivity.
  - apply (sqrt1_underflow 0 2.5e-323%float); vm_compute; reflexivity.
Defined.

(** ** NaN and the infinities *)

(** The first vectoring loop of [atan1] never leaves once its vector
    holds a NaN: the test [y - xnew < 0] is then false on every pass. *)
Lemma atan_loop_nan (f : nat) (d : list Z) :
  atan_digit_loop f 0 (nan, nan, d) = None.
Proof.
  unfold atan_digit_loop. revert d.
  assert (Hbody : forall d, atan_digit_body 0 (nan, nan, d)
                            = Some (nan, nan, bump 0 1 d))
    by (intros d; vm_compute; reflexivity).
  induction f as [|f IH]; intros d; cbn [do_while]; rewrite Hbody.
  - reflexivity.
  - apply IH.
Qed.

Lemma atan_loop_stuck (f : nat) (y : float) :
  y = nan \/ y = infinity ->
  atan_digit_loop f 0 (lit 1, y, repeat 0%Z K) = None.
Proof.
  assert (H1 : forall f d, atan_digit_loop f 0 (infinity, nan, d) = None).
  { intros [|g] d; unfold atan_digit_loop; cbn [do_while].
    - vm_compute. reflexivity.
    - replace (atan_digit_body 0 (infinity, nan, d))
        with (Some (nan, nan, bump 0 1 d)) by (vm_compute; reflexivity).
      apply atan_loop_nan. }
  assert (H2 : forall f d,
            atan_digit_loop f 0 (infinity, infinity, d) = None).
  { intros [|g] d; unfold atan_digit_loop; cbn [do_while].
    - vm_compute. reflexivity.
    - replace (atan_digit_body 0 (infinity, infinity, d))
        with (Some (infinity, nan, bump 0 1 d)) by (vm_compute; reflexivity).
      apply H1. }
  intros [-> | ->]; destruct f as [|g]; unfold atan_digit_loop;
    cbn [do_while]; try (vm_compute; reflexivity).
  - replace (atan_digit_body 0 (lit 1, nan, repeat 0%Z K))
      with (Some (nan, nan, bump 0 1 (repeat 0%Z K)))
      by (vm_compute; reflexivity).
    apply atan_loop_nan.
  - replace (atan_digit_body 0 (lit 1, infinity, repeat 0%Z K))
      with (Some (infinity, infinity, bump 0 1 (repeat 0%Z K)))
      by (vm_compute; reflexivity).
    apply H2.
Qed.

Lemma atan1_stuck (f : nat) (n : float) :
  PrimFloat.abs n = nan \/ PrimFloat.abs n = infinity -> atan1 f n = None.
Proof.
  intros Hn. unfold atan1, atan_digits.
  change (fabs n) with (PrimFloat.abs n).
  cbn [for_up K]. rewrite (atan_loop_stuck f (PrimFloat.abs n) Hn).
  reflexivity.
Qed.

(** The exponent loop of [ln1] never leaves at +infinity. *)
Lemma ln_exponent_infinity (f : nat) (k : float) :
  while f (fun s : float * float => (fst s >=? lit 10)%num)
    (fun s => (fst s / lit 10, snd s + ln10)%num) (infinity, k) = None.
Proof.
  revert k. induction f as [|f IH]; intros k.
  - reflexivity.
  - cbn [while fst snd].
    replace (lit 10 <=? infinity)%num with true by (vm_compute; reflexivity).
    replace (infinity / lit 10)%num with infinity by (vm_compute; reflexivity).
    apply IH.
Qed.

(** X10.  A NaN input in double arithmetic: [ln1], [exp1] and [sqrt1]
    return NaN (every loop test is false, so each loop is left after
    one pass), and [atan1] does not return, whatever the number of
    passes allowed: its first loop leaves only when [y - xnew < 0],
    which a NaN never satisfies. *)
Theorem nan_inputs (fuel : nat) :
  ln1 fuel nan = Some nan /\ exp1 fuel nan = Some nan
  /\ sqrt1 fuel nan = Some nan /\ atan1 fuel nan = None.
Proof.
  split; [|split; [|split]].
  - apply (ln1_more_fuel 0 fuel); [lia | vm_compute; reflexivity].
  - apply (exp1_more_fuel 0 fuel); [lia | vm_compute; reflexivity].
  - apply (sqrt1_more_fuel 0 fuel); [lia | vm_compute; reflexivity].
  - apply atan1_stuck. left. reflexivity.
Qed.

(** X11.  Infinite inputs in double arithmetic.  [ln1] does not return
    at +infinity (the exponent loop divides infinity by 10 for ever)
    and returns its sentinel 0 at -infinity; [exp1] returns 0 at
    +infinity (above 230) and does not return at -infinity; [sqrt1]
    returns NaN at +infinity and 0 at -infinity; [atan1] returns at
    neither. *)
Theorem infinite_inputs (fuel : nat) :
  ln1 fuel infinity = None /\ ln1 fuel neg_infinity = Some 0%float
  /\ exp1 fuel infinity = Some 0%float /\ exp1 fuel neg_infinity = None
  /\ sqrt1 fuel infinity = Some nan /\ sqrt1 fuel neg_infinity = Some 0%float
  /\ atan1 fuel infinity = None /\ atan1 fuel neg_infinity = None.
Proof.
  split; [|split; [|split; [|split; [|split; [|split; [|split]]]]]].
  - unfold ln1.
    replace (infinity <=? lit 0)%num with false by (vm_compute; reflexivity).
    unfold ln_exponent. rewrite ln_exponent_infinity. reflexivity.
  - apply (ln1_more_fuel 0 fuel); [lia | vm_compute; reflexivity].
  - apply (exp1_more_fuel 0 fuel); [lia | vm_compute; reflexivity].
  - apply exp1_absorbed; vm_compute; reflexivity.
  - apply (sqrt1_more_fuel 0 fuel); [lia | vm_compute; reflexivity].
  - apply (sqrt1_more_fuel 0 fuel); [lia | vm_compute; reflexivity].
  - apply atan1_stuck. right. reflexivity.
  - apply atan1_stuck. right. reflexivity.
Qed.

(** ** Range reduction: one representative for each class *)

(** Two angles of (0, 2 pi] a whole number of periods apart are equal. *)
Lemma reduced_unique (r r' : R) (k : Z) :
  0 < r <= two_pi_R -> 0 < r' <= two_pi_R ->
  r = r' + IZR k * two_pi_R -> r = r'.
Proof.
  intros Hr Hr' E.
  pose proof two_pi_R_value as Hv.
  assert (Hc : 0 < two_pi_R) by lra.
  destruct (Z_lt_le_dec k 0) as [Hneg|Hnn].
  - assert (IZR k <= -1) by (apply IZR_le; lia). nra.
  - destruct (Z_lt_le_dec 0 k) as [Hpos|Hle].
    + assert (1 <= IZR k) by (apply IZR_le; lia). nra.
    + assert (k = 0%Z) by lia. subst k. lra.
Qed.

Lemma range_reduction_class (n m : R) (k : Z) :
  0 <= n -> 0 <= m -> m = n + IZR k * two_pi_R ->
  exists fuel r,
    range_reduction fuel n = Some r /\ range_reduction fuel m = Some r
    /\ 0 < r <= two_pi_R.
Proof.
  intros Hn Hm E.
  destruct (range_reduction_R n Hn) as (f1 & r & k1 & E1 & Hr & Hk1).
  destruct (range_reduction_R m Hm) as (f2 & r' & k2 & E2 & Hr' & Hk2).
  assert (r = r').
  { apply (reduced_unique r r' (k2 - k1 - k)%Z Hr Hr').
    rewrite !minus_IZR. lra. }
  subst r'.
  exists (Nat.max f1 f2), r.
  split; [|split; [|exact Hr]].
  - exact (range_reduction_more_fuel f1 _ _ _ (Nat.le_max_l f1 f2) E1).
  - exact (range_reduction_more_fuel f2 _ _ _ (Nat.le_max_r f1 f2) E2).
Qed.

(** An angle of (0, 2 pi] is its own reduction. *)
Lemma range_reduction_fixed (r : R) :
  0 < r <= two_pi_R -> exists fuel, range_reduction fuel r = Some r.
Proof.
  intros Hr.
  destruct (range_reduction_R r ltac:(lra)) as (f & r' & k & E & Hr' & Hk).
  exists f. rewrite E. f_equal. symmetry.
  apply (reduced_unique r r' k Hr Hr' Hk).
Qed.

(** X12.  In exact arithmetic the reduced angle depends on the class
    of the input modulo [2 * pi] only, and is a fixed point: [n] and
    [n] plus any number of periods are reduced to the same [r], and
    reducing [r] again gives [r].  The period is twice the decimal
    constant [pi] of trig.cpp. *)
Theorem range_reduction_canonical (n : R) (k : nat) :
  0 <= n ->
  exists fuel r,
    range_reduction fuel n = Some r
    /\ range_reduction fuel (n + INR k * (2 * pi)) = Some r
    /\ range_reduction fuel r = Some r.
Proof.
  intros Hn. fold two_pi_R.
  assert (Hc : 0 < two_pi_R) by (pose proof two_pi_R_value; lra).
  assert (Hm : 0 <= n + INR k * two_pi_R).
  { pose proof (pos_INR k). nra. }
  destruct (range_reduction_class n (n + INR k * two_pi_R) (Z.of_nat k) Hn Hm)
    as (f1 & r & E1 & E2 & Hr).
  { rewrite <- INR_IZR_INZ. reflexivity. }
  destruct (range_reduction_fixed r Hr) as (f2 & E3).
  exists (Nat.max f1 f2), r.
  split; [|split].
  - exact (range_reduction_more_fuel f1 _ _ _ (Nat.le_max_l f1 f2) E1).
  - exact (range_reduction_more_fuel f1 _ _ _ (Nat.le_max_l f1 f2) E2).
  - exact (range_reduction_more_fuel f2 _ _ _ (Nat.le_max_r f1 f2) E3).
Qed.

Lemma range_reduction_canonical_witness :
  0 <= 1 /\
  exists fuel r,
    range_reduction fuel 1 = Some r
    /\ range_reduction fuel (1 + INR 3 * (2 * pi)) = Some r
    /\ range_reduction fuel r = Some r.
Proof.
  split; [lra|]. apply (range_reduction_canonical 1 3). lra.
Defined.

(** ** tan: the angle of the rotated vector *)

(** The subtraction loop of one entry of [tan1], with its count. *)
Lemma tan_subtract_count (i : nat) (t : R) :
  t = nth i (tans (T:=R)) (lit 0) ->
  0 < t ->
  forall fuel y d,
    - t <= y -> y < INR fuel * t ->
    exists k : nat,
      while fuel (fun s : R * list Z => (fst s >=? lit 0)%num)
        (fun s => ((fst s - nth i tans (lit 0))%num, bump i 1 (snd s))) (y, d)
      = Some (y - INR k * t, bump i (Z.of_nat k) d)
      /\ - t <= y - INR k * t < 0 /\ (0 <= y -> (1 <= k)%nat).
Proof.
  intros Et Ht. subst t. set (t := nth i (tans (T:=R)) (lit 0)) in *.
  induction fuel as [|f IH]; intros y d Hlo Hy.
  - exists O. simpl INR in *. rewrite while_skip.
    + cbn [Z.of_nat]. rewrite bump_zero.
      replace (y - 0 * t) with y by ring.
      split; [reflexivity | split; lra].
    + cbn [fst]. Rlit. Rcmp_false.
  - destruct (Rlt_dec y 0) as [Hneg|Hpos].
    + exists O. simpl INR. rewrite while_skip.
      * cbn [Z.of_nat]. rewrite bump_zero.
        replace (y - 0 * t) with y by ring.
        split; [reflexivity | split; lra].
      * cbn [fst]. Rlit. Rcmp_false.
    + rewrite while_next by (cbn [fst]; Rlit; Rcmp_true).
      cbn [fst snd].
      destruct (IH (y - t)%num (bump i 1 d)) as (k & E & Hr & _).
      * cbn [sub Num_R]. lra.
      * rewrite S_INR in Hy. cbn [sub Num_R]. lra.
      * exists (S k). rewrite E. cbn [sub Num_R] in *.
        rewrite bump_bump, S_INR.
        replace (1 + Z.of_nat k)%Z with (Z.of_nat (S k)) by lia.
        replace (y - (INR k + 1) * t) with (y - t - INR k * t) by ring.
        split; [reflexivity | split; [lra | intros _; lia]].
Qed.

(** One entry of the digit walk of [tan1] once more, with what it
    keeps: the counters stay non-negative, and the remainder plus the
    angles counted so far does not change. *)
Lemma tan_digit_sum (i : nat) (t : R) :
  t = nth i (tans (T:=R)) (lit 0) ->
  0 < t ->
  forall fuel y d,
    (i < length d)%nat ->
    Forall (fun z => (0 <= z)%Z) d ->
    0 <= y -> y < INR fuel * t ->
    exists y' d',
      tan_digit fuel i (y, d) = Some (y', d')
      /\ 0 <= y' < t /\ y' <= y /\ length d' = length d
      /\ Forall (fun z => (0 <= z)%Z) d'
      /\ y' + weighted d' tans = y + weighted d tans.
Proof.
  intros Et Ht fuel y d Hi Hd Hy Hf.
  destruct (tan_subtract_count i t Et Ht fuel y d ltac:(lra) Hf)
    as (k & E & Hr & Hk).
  specialize (Hk Hy).
  unfold tan_digit. rewrite E. cbn [bind fst snd].
  subst t. set (t := nth i (tans (T:=R)) (lit 0)) in *.
  rewrite bump_bump.
  exists (y - INR k * t + t), (bump i (Z.of_nat k + -1) d).
  split; [reflexivity|].
  split; [lra|].
  split; [apply le_INR in Hk; simpl INR in Hk; nra|].
  split; [apply bump_length|].
  split; [apply bump_nonneg_by; [lia | exact Hd]|].
  rewrite weighted_bump_by by exact Hi.
  replace (nth i tans 0) with t by (unfold t; f_equal; Rlit; lra).
  rewrite plus_IZR, <- INR_IZR_INZ. lra.
Qed.

Lemma tan_digits_sum (y : R) :
  0 <= y ->
  exists fuel y' digits,
    tan_digits fuel y = Some (y', digits)
    /\ 0 <= y' < Ratan.atan (1 / 1000000)
    /\ length digits = K
    /\ Forall (fun z => (0 <= z)%Z) digits
    /\ y' + weighted digits tans = y.
Proof.
  intros Hy. pose proof atan_smallest_pos as Hpos.
  destruct (INR_unbounded (y / Ratan.atan (1 / 1000000))) as [fuel Hf].
  assert (Hfuel : y < INR fuel * Ratan.atan (1 / 1000000)).
  { apply Rmult_lt_reg_r with (/ Ratan.atan (1 / 1000000)).
    - apply Rinv_0_lt_compat, Hpos.
    - rewrite Rmult_assoc, Rinv_r by lra. unfold Rdiv in Hf. lra. }
  destruct (for_up_indexed
              (fun j (s : R * list Z) =>
                 0 <= fst s <= y /\ length (snd s) = K
                 /\ Forall (fun z => (0 <= z)%Z) (snd s)
                 /\ fst s + weighted (snd s) tans = y
                 /\ (j = K -> fst s < Ratan.atan (1 / 1000000)))
              (tan_digit fuel) K 0 (y, repeat 0%Z K))
    as ([y' digits] & E & Hr & Hlen & Hnn & Hsum & Hlast).
  - intros i [b d] Hi (Hb & Hlen & Hnn & Hsum & _). cbn [fst snd] in *.
    pose proof (tans_lower i ltac:(lia)) as Ht.
    destruct (tan_digit_sum i _ eq_refl ltac:(lra) fuel b d)
      as (b' & d' & E & Hb' & Hle & Hlen' & Hnn' & Hsum').
    + lia.
    + exact Hnn.
    + lra.
    + pose proof (pos_INR fuel). nra.
    + exists (b', d'). split; [exact E|]. cbn [fst snd].
      repeat split; try lra; try lia; try assumption.
      intros Ej. assert (i = 6%nat) by (unfold K in *; lia). subst i.
      cbn [nth tans] in Hb'. Rlit. lra.
  - cbn [fst snd]. rewrite weighted_zeros, repeat_length.
    repeat split; try lra; try reflexivity.
    + apply Forall_forall. intros z Hz. apply repeat_spec in Hz. lia.
    + unfold K. discriminate.
  - exists fuel, y', digits. cbn [fst snd] in *.
    repeat split; try lra; try assumption. apply Hlast. reflexivity.
Qed.

Lemma cos_atan_pos (t : R) : 0 < cos (Ratan.atan t).
Proof. apply cos_gt_0; pose proof (atan_bound t); lra. Qed.

(** The vector [(1, y)] that the rotations start from points in the
    direction [atan y]. *)
Lemma polar_start (y : R) : polar 1 y (Ratan.atan y).
Proof.
  pose proof (cos_atan_pos y) as Hc.
  pose proof (tan_atan y) as Ht. unfold tan in Ht.
  set (a := Ratan.atan y) in *. clearbody a. subst y.
  exists (/ cos a). split; [apply Rinv_0_lt_compat, Hc|].
  split; field; lra.
Qed.

(** One pseudo-rotation by the ratio [t] turns the direction by
    [atan t] (and stretches the vector). *)
Lemma polar_rotation (x y phi t : R) :
  polar x y phi -> polar (x - y * t) (y + x * t) (phi + Ratan.atan t).
Proof.
  intros (rho & Hrho & -> & ->).
  pose proof (cos_atan_pos t) as Hc.
  pose proof (tan_atan t) as Ht. unfold tan in Ht.
  set (a := Ratan.atan t) in *. clearbody a. subst t.
  exists (rho / cos a).
  split; [apply Rdiv_lt_0_compat; assumption|].
  rewrite cos_plus, sin_plus.
  split; field; lra.
Qed.

Lemma table_tans (i : nat) :
  (i < K)%nat ->
  nth i (tans (T:=R)) 0 = Ratan.atan (nth i (table (T:=R)) (lit 0)).
Proof.
  intros Hi. unfold K in Hi.
  do 7 (destruct i as [|i]; [reflexivity|]). lia.
Qed.

Lemma tan_rotation_polar (i : nat) (x y phi : R) :
  (i < K)%nat ->
  polar x y phi ->
  polar (fst (tan_rotation i (x, y))) (snd (tan_rotation i (x, y)))
        (phi + nth i tans 0).
Proof.
  intros Hi Hp. rewrite table_tans by exact Hi.
  unfold tan_rotation. cbn [fst snd sub add mul Num_R].
  apply polar_rotation, Hp.
Qed.

Lemma tan_rotation_iter (i : nat) (k : nat) (s : R * R) (phi : R) :
  (i < K)%nat ->
  polar (fst s) (snd s) phi ->
  polar (fst (Nat.iter k (tan_rotation i) s))
        (snd (Nat.iter k (tan_rotation i) s))
        (phi + INR k * nth i tans 0).
Proof.
  intros Hi Hp. induction k as [|k IH].
  - simpl. replace (phi + 0 * _) with phi by ring. exact Hp.
  - rewrite S_INR. cbn [Nat.iter nat_rect].
    change (nat_rect _ s (fun _ => tan_rotation i) k)
      with (Nat.iter k (tan_rotation i) s).
    destruct (Nat.iter k (tan_rotation i) s) as [x y]. cbn [fst snd] in IH.
    replace (phi + (INR k + 1) * nth i tans 0)
      with (phi + INR k * nth i tans 0 + nth i tans 0) by ring.
    apply tan_rotation_polar; assumption.
Qed.

Lemma tan_rotation_repeat (i : nat) (d : Z) (s : R * R) (phi : R) :
  (i < K)%nat -> (0 <= d)%Z ->
  polar (fst s) (snd s) phi ->
  polar (fst (repeat_int d (tan_rotation i) s))
        (snd (repeat_int d (tan_rotation i) s))
        (phi + IZR d * nth i tans 0).
Proof.
  intros Hi Hd Hp. unfold repeat_int.
  replace (IZR d) with (INR (Z.to_nat d))
    by (rewrite INR_IZR_INZ, Z2Nat.id by exact Hd; reflexivity).
  apply tan_rotation_iter; assumption.
Qed.

(** The rotations of [tan1] turn the start vector [(1, y)] by the
    angles that the digit walk counted. *)
Lemma tan_rotate_polar (digits : list Z) (y : R) :
  length digits = K ->
  Forall (fun z => (0 <= z)%Z) digits ->
  polar (fst (tan_rotate digits y)) (snd (tan_rotate digits y))
        (Ratan.atan y + weighted digits tans).
Proof.
  intros Hlen Hnn. unfold K in Hlen.
  destruct digits as [|d0 [|d1 [|d2 [|d3 [|d4 [|d5 [|d6 [|]]]]]]]];
    try discriminate Hlen.
  repeat match goal with
         | H : Forall _ (_ :: _) |- _ => inversion H; subst; clear H
         end.
  unfold tan_rotate, K. cbn [for_down Nat.sub Nat.pred digit nth].
  assert (P0 : polar (fst ((lit 1 : R), y)) (snd ((lit 1 : R), y))
                 (Ratan.atan y)).
  { cbn [fst snd]. replace (lit 1 : R) with 1 by (Rlit; lra).
    apply polar_start. }
  replace (Ratan.atan y + weighted [d0; d1; d2; d3; d4; d5; d6] tans)
    with (Ratan.atan y + IZR d6 * nth 6 tans 0 + IZR d5 * nth 5 tans 0
          + IZR d4 * nth 4 tans 0 + IZR d3 * nth 3 tans 0
          + IZR d2 * nth 2 tans 0 + IZR d1 * nth 1 tans 0
          + IZR d0 * nth 0 tans 0)
    by (cbn [weighted nth tans]; ring).
  repeat (apply tan_rotation_repeat; [unfold K; lia | assumption |]).
  exact P0.
Qed.

(** The remainder that the digit walk leaves is used as its own
    tangent; this costs at most a third of its cube. *)
Lemma atan_gap (y : R) :
  0 <= y < Ratan.atan (1 / 1000000) ->
  0 <= y - Ratan.atan y <= 1 / (3 * 10 ^ 18).
Proof.
  intros [Hy0 Hy1].
  assert (Hsmall : Ratan.atan (1 / 1000000) <= 1 / 1000000)
    by (apply atan_series_bounds; lra).
  destruct Hy0 as [Hpos | <-].
  - destruct (atan_series_bounds y ltac:(lra)) as [Hlo Hhi].
    split; [lra|].
    assert (Hy3 : y ^ 3 <= (1 / 1000000) ^ 3).
    { apply pow_incr. lra. }
    replace (1 / (3 * 10 ^ 18)) with ((1 / 1000000) ^ 3 / 3) by (simpl; field).
    lra.
  - rewrite atan_0. split; [lra|].
    replace (0 - 0) with 0 by ring.
    apply Rlt_le, Rdiv_lt_0_compat; [lra|].
    apply Rmult_lt_0_compat; [lra | apply pow_lt; lra].
Qed.

Lemma tan_rotated_R (r : R) :
  0 <= r ->
  exists fuel y digits e,
    tan_digits fuel r = Some (y, digits)
    /\ 0 <= e <= 1 / (3 * 10 ^ 18)
    /\ polar (fst (tan_rotate digits y)) (snd (tan_rotate digits y)) (r - e).
Proof.
  intros Hr.
  destruct (tan_digits_sum r Hr)
    as (fuel & y & digits & E & Hy & Hlen & Hnn & Hsum).
  exists fuel, y, digits, (y - Ratan.atan y).
  split; [exact E|]. split; [apply atan_gap, Hy|].
  replace (r - (y - Ratan.atan y)) with (Ratan.atan y + weighted digits tans)
    by lra.
  apply tan_rotate_polar; assumption.
Qed.

Lemma polar_quotient (x y phi : R) :
  polar x y phi ->
  (x = 0 <-> cos phi = 0) /\ (cos phi <> 0 -> y / x = tan phi).
Proof.
  intros (rho & Hrho & -> & ->). split; [split|].
  - intros H0. nra.
  - intros ->. ring.
  - intros Hc. unfold tan. field. split; lra.
Qed.

(** [tan1] in exact arithmetic, by its two exits: with [r] the reduced
    angle, the rotated vector points in a direction [r - e] at most
    1/(3 * 10^18) short of [r]. *)
Lemma tan_outcome_R (n : R) :
  exists fuel r e,
    range_reduction fuel (Rabs n) = Some r
    /\ 0 < r <= two_pi_R
    /\ 0 <= e <= 1 / (3 * 10 ^ 18)
    /\ tan_outcome fuel n
       = Some (if Reqb (cos (r - e)) 0 then Invalid
               else Quotient (if Rltb n 0 then - tan (r - e)
                              else tan (r - e))).
Proof.
  destruct (range_reduction_R (Rabs n) (Rabs_pos n))
    as (f1 & r & k & E1 & Hr & _).
  destruct (tan_rotated_R r ltac:(lra)) as (f2 & y & digits & e & E2 & He & Hp).
  exists (Nat.max f1 f2), r, e.
  pose proof (range_reduction_more_fuel f1 _ _ _ (Nat.le_max_l f1 f2) E1)
    as E1'.
  pose proof (tan_digits_more_fuel f2 _ _ _ (Nat.le_max_r f1 f2) E2) as E2'.
  split; [exact E1'|]. split; [exact Hr|]. split; [exact He|].
  unfold tan_outcome, tan_vector. cbn [fabs Num_R].
  rewrite E1'. cbn [bind]. rewrite E2'. cbn [bind].
  destruct (tan_rotate digits y) as [x' y']. cbn [fst snd] in Hp.
  destruct (polar_quotient _ _ _ Hp) as [Hx Hq].
  cbn [eqb ltb lit Num_R div opp].
  replace (Q2R 0) with 0 by (unfold Q2R; cbn [Qnum Qden]; lra).
  unfold Reqb at 1 2.
  destruct (Req_dec_T x' 0) as [Hx0|Hx0];
    destruct (Req_dec_T (cos (r - e)) 0) as [Hc0|Hc0]; try tauto.
  rewrite (Hq Hc0). reflexivity.
Qed.

Lemma tan_outcome_more_fuel {T : Type} `{Num T} (f f' : nat) (n : T) o :
  (f <= f')%nat -> tan_outcome f n = Some o -> tan_outcome f' n = Some o.
Proof.
  intros Hle. unfold tan_outcome, tan_vector.
  destruct (range_reduction f (fabs n)) as [r|] eqn:E1; [|discriminate].
  rewrite (range_reduction_more_fuel f f' _ _ Hle E1). cbn [bind].
  destruct (tan_digits f r) as [s|] eqn:E2; [|discriminate].
  rewrite (tan_digits_more_fuel f f' _ _ Hle E2). tauto.
Qed.

Lemma atan1_more_fuel {T : Type} `{Num T} (f f' : nat) (n r : T) :
  (f <= f')%nat -> atan1 f n = Some r -> atan1 f' n = Some r.
Proof.
  intros Hle. unfold atan1.
  destruct (atan_digits f (fabs n)) as [s|] eqn:E; [|discriminate].
  assert (E' : atan_digits f' (fabs n) = Some s).
  { revert E. unfold atan_digits. apply for_up_more_fuel.
    intros j s0 s1. unfold atan_digit_loop.
    apply do_while_more_fuel, Hle. }
  rewrite E'. tauto.
Qed.

(** X13.  [tan1] in exact arithmetic.  With [r] the reduced angle of
    [|n|] (which is [|n|] itself when [0 < |n| <= 2 pi]), there is an
    [e] between 0 and 1/(3 * 10^18) such that [tan1] returns the
    tangent of [r - e], negated for a negative input; it takes the
    error exit, returning 0, exactly when the cosine of [r - e] is 0. *)
Theorem tan1_accuracy (n : R) :
  exists fuel r e,
    range_reduction fuel (Rabs n) = Some r
    /\ (0 < Rabs n <= 2 * pi -> r = Rabs n)
    /\ 0 <= e <= 1 / (3 * 10 ^ 18)
    /\ (cos (r - e) = 0 ->
        tan_outcome fuel n = Some Invalid /\ tan1 fuel n = Some 0)
    /\ (cos (r - e) <> 0 ->
        tan1 fuel n = Some (if Rltb n 0 then - tan (r - e) else tan (r - e))).
Proof.
  destruct (tan_outcome_R n) as (fuel & r & e & E1 & Hr & He & Eo).
  exists fuel, r, e. split; [exact E1|].
  split.
  { fold two_pi_R. intros Hn.
    destruct (range_reduction_fixed (Rabs n) Hn) as (f' & E').
    pose proof (range_reduction_more_fuel _ _ _ _ (Nat.le_max_l fuel f') E1)
      as A.
    pose proof (range_reduction_more_fuel _ _ _ _ (Nat.le_max_r fuel f') E')
      as B.
    rewrite A in B. injection B as <-. reflexivity. }
  split; [exact He|].
  unfold tan1. rewrite Eo. unfold Reqb.
  destruct (Req_dec_T (cos (r - e)) 0) as [Hc|Hc]; cbn [bind].
  - split; [intros _ | tauto].
    split; [reflexivity|]. f_equal. Rlit. lra.
  - split; [tauto | intros _; reflexivity].
Qed.

(** X14.  In exact arithmetic [tan1] has the period [2 * pi] of
    trig.cpp exactly: for [n >= 0], adding any number of periods does
    not change the result. *)
Theorem tan1_periodic (n : R) (k : nat) :
  0 <= n ->
  exists fuel t,
    tan1 fuel n = Some t /\ tan1 fuel (n + INR k * (2 * pi)) = Some t.
Proof.
  intros Hn. fold two_pi_R.
  assert (Hc : 0 < two_pi_R) by (pose proof two_pi_R_value; lra).
  set (m := n + INR k * two_pi_R).
  assert (Hm : 0 <= m) by (unfold m; pose proof (pos_INR k); nra).
  destruct (range_reduction_class n m (Z.of_nat k) Hn Hm)
    as (f1 & r & E1 & E2 & Hr).
  { unfold m. rewrite <- INR_IZR_INZ. reflexivity. }
  destruct (tan_outcome_R n) as (f2 & r2 & e & E3 & _ & _ & E4).
  set (F := Nat.max f1 f2).
  assert (Eo : tan_outcome F n = tan_outcome F m).
  { unfold tan_outcome, tan_vector. cbn [fabs Num_R].
    rewrite (Rabs_pos_eq n Hn), (Rabs_pos_eq m Hm).
    rewrite (range_reduction_more_fuel f1 F _ _ (Nat.le_max_l f1 f2) E1).
    rewrite (range_reduction_more_fuel f1 F _ _ (Nat.le_max_l f1 f2) E2).
    cbn [ltb lit Num_R].
    replace (Rltb n (Q2R 0)) with false
      by (symmetry; apply Rltb_false; unfold Q2R; cbn [Qnum Qden]; lra).
    replace (Rltb m (Q2R 0)) with false
      by (symmetry; apply Rltb_false; unfold Q2R; cbn [Qnum Qden]; lra).
    reflexivity. }
  pose proof (tan_outcome_more_fuel f2 F _ _ (Nat.le_max_r f1 f2) E4) as E5.
  exists F. unfold tan1. rewrite <- Eo, E5. cbn [bind].
  destruct (Reqb (cos (r2 - e)) 0); eauto.
Qed.

Lemma tan1_periodic_witness :
  0 <= 1 /\
  exists fuel t,
    tan1 fuel 1 = Some t /\ tan1 fuel (1 + INR 3 * (2 * pi)) = Some t.
Proof.
  split; [lra|]. apply (tan1_periodic 1 3). lra.
Defined.

(** X15.  In double arithmetic [tan1] is odd, exit by exit: for every
    [n > 0] the call on [-n] leaves by the error exit when the call on
    [n] does, and otherwise returns the negated quotient, bit for bit
    (the error exit returns 0 for both signs). *)
Theorem tan_outcome_odd (fuel : nat) (n : float) :
  PrimFloat.ltb 0 n = true ->
  tan_outcome fuel (PrimFloat.opp n)
  = option_map tan_exit_opp (tan_outcome fuel n).
Proof.
  intros H. destruct (float_pos_tests n H) as (H1 & _ & H2 & _).
  unfold tan_outcome, tan_vector.
  change (fabs (PrimFloat.opp n)) with (PrimFloat.abs (PrimFloat.opp n)).
  change (ltb (PrimFloat.opp n) (lit 0))
    with (PrimFloat.ltb (PrimFloat.opp n) 0).
  change (ltb n (lit 0)) with (PrimFloat.ltb n 0).
  rewrite float_abs_opp, H1, H2.
  change (PrimFloat.abs n) with (fabs n).
  destruct (range_reduction fuel (fabs n)) as [r|]; [|reflexivity].
  cbn [bind].
  destruct (tan_digits fuel r) as [[y d]|]; [|reflexivity].
  cbn [bind].
  destruct (tan_rotate d y) as [x' y'].
  destruct (eqb x' (lit 0)); reflexivity.
Qed.

Lemma tan_outcome_odd_witness :
  tan_outcome 100 (-1.5)%float
  = option_map tan_exit_opp (tan_outcome 100 1.5%float)
  /\ tan_outcome 100 1.5%float = Some (Quotient 14.101419947171722%float).
Proof.
  split.
  - apply (tan_outcome_odd 100 1.5%float). reflexivity.
  - vm_compute. reflexivity.
Defined.

(** ** atan: odd symmetry, and the round trip through tan *)

(** X16.  In double arithmetic [atan1] is odd, bit for bit: for every
    [n > 0], [Atan(-n)] is the negation of [Atan(n)] (and neither
    returns when the other does not). *)
Theorem atan1_odd (fuel : nat) (n : float) :
  PrimFloat.ltb 0 n = true ->
  atan1 fuel (PrimFloat.opp n) = option_map PrimFloat.opp (atan1 fuel n).
Proof.
  intros H. destruct (float_pos_tests n H) as (H1 & _ & H2 & _).
  unfold atan1.
  change (fabs (PrimFloat.opp n)) with (PrimFloat.abs (PrimFloat.opp n)).
  change (ltb (PrimFloat.opp n) (lit 0))
    with (PrimFloat.ltb (PrimFloat.opp n) 0).
  change (ltb n (lit 0)) with (PrimFloat.ltb n 0).
  rewrite float_abs_opp, H1, H2.
  change (PrimFloat.abs n) with (fabs n).
  destruct (atan_digits fuel (fabs n)) as [[[x y] d]|]; reflexivity.
Qed.

Lemma atan1_odd_witness :
  atan1 100 (-20)%float = option_map PrimFloat.opp (atan1 100 20%float)
  /\ atan1 100 20%float = Some 1.5208379310729538%float.
Proof.
  split.
  - apply (atan1_odd 100 20%float). reflexivity.
  - vm_compute. reflexivity.
Defined.

(** The harness inputs strictly between 0 and [pi / 2] come back from
    [ATAN(TAN(x))] within 1e-15, in double arithmetic. *)
Lemma atan_of_tan_tests :
  Forall (fun x : float =>
            PrimFloat.ltb 0 x = true ->
            PrimFloat.ltb x (pi / 2)%float = true ->
            exists a, atan_of_tan 200 x = Some a
                      /\ PrimFloat.leb (PrimFloat.abs (a - x)) 1e-15 = true)%float
         tests_tan.
Proof.
  unfold tests_tan.
  repeat (apply Forall_cons;
          [first [ intros H; vm_compute in H; discriminate H
                 | intros _ H; vm_compute in H; discriminate H
                 | intros _ _; eexists; vm_compute; split; reflexivity ]|]).
  apply Forall_nil.
Qed.

(** X17.  The symmetry test of the harness, [ATAN(TAN(x))].  In exact
    arithmetic every [x] strictly between 0 and a quarter turn comes
    back within 2/(3 * 10^18); in double arithmetic the harness inputs
    in that range come back within 1e-15. *)
Theorem atan_of_tan_round_trip :
  (forall x : R,
      0 < x < PI / 2 ->
      exists fuel a,
        atan_of_tan fuel x = Some a /\ Rabs (a - x) <= 2 / (3 * 10 ^ 18))
  /\ Forall (fun x : float =>
               PrimFloat.ltb 0 x = true ->
               PrimFloat.ltb x (pi / 2)%float = true ->
               exists a, atan_of_tan 200 x = Some a
                         /\ PrimFloat.leb (PrimFloat.abs (a - x)) 1e-15
                            = true)%float
            tests_tan.
Proof.
  split; [|exact atan_of_tan_tests].
  intros x Hx.
  pose proof PI_4 as HPI. pose proof two_pi_R_value as Hv.
  destruct (tan_outcome_R x) as (f1 & r & e & E1 & Hr & He & Eo).
  assert (Habs : Rabs x = x) by (apply Rabs_pos_eq; lra).
  rewrite Habs in E1.
  assert (r = x).
  { destruct (range_reduction_fixed x ltac:(lra)) as (f' & E').
    pose proof (range_reduction_more_fuel _ _ _ _ (Nat.le_max_l f1 f') E1)
      as A.
    pose proof (range_reduction_more_fuel _ _ _ _ (Nat.le_max_r f1 f') E')
      as B.
    rewrite A in B. injection B as <-. reflexivity. }
  subst r.
  assert (He18 : 1 / (3 * 10 ^ 18) <= 1 / 3).
  { apply Rmult_le_compat_l; [lra|]. apply Rinv_le_contravar; [lra|].
    assert (1 <= 10 ^ 18) by (apply pow_R1_Rle; lra). lra. }
  pose proof PI2_3_2 as H32.
  assert (Hphi : - (PI / 2) < x - e < PI / 2) by lra.
  assert (Hcos : cos (x - e) <> 0).
  { apply Rgt_not_eq, cos_gt_0; lra. }
  destruct (atan1_R (tan (x - e))) as (f2 & a & E2 & Ha).
  rewrite (atan_tan _ Hphi) in Ha.
  exists (Nat.max f1 f2), a.
  unfold atan_of_tan, tan1.
  rewrite (tan_outcome_more_fuel f1 _ _ _ (Nat.le_max_l f1 f2) Eo).
  unfold Reqb. destruct (Req_dec_T (cos (x - e)) 0) as [Hc|_]; [tauto|].
  replace (Rltb x 0) with false by (symmetry; apply Rltb_false; lra).
  cbn [bind].
  rewrite (atan1_more_fuel f2 _ _ _ (Nat.le_max_r f1 f2) E2).
  split; [reflexivity|].
  replace (a - x) with ((a - (x - e)) + - e) by ring.
  eapply Rle_trans; [apply Rabs_triang|].
  rewrite Rabs_Ropp, (Rabs_pos_eq e) by lra.
  replace (2 / (3 * 10 ^ 18)) with (1 / (3 * 10 ^ 18) + 1 / (3 * 10 ^ 18))
    by field.
  lra.
Qed.

Lemma atan_of_tan_round_trip_witness :
  0 < 1 < PI / 2 /\
  exists fuel a,
    atan_of_tan fuel 1 = Some a /\ Rabs (a - 1) <= 2 / (3 * 10 ^ 18).
Proof.
  assert (H : 0 < 1 < PI / 2) by (pose proof PI2_3_2; lra).
  split; [exact H|]. apply (proj1 atan_of_tan_round_trip 1 H).
Defined.

(** ** The symmetry test on inputs that [ln1] rejects *)

(** X18.  In double arithmetic [EXP(LN(x))] is 1 for every [x <= 0]
    (either zero included): [ln1] reports the invalid input by
    returning 0, and [exp1] maps that 0 to 1, so the round trip
    answers a rejected input with an ordinary value. *)
Theorem exp_of_ln_nonpositive (fuel : nat) (x : float) :
  PrimFloat.leb x 0 = true -> exp_of_ln fuel x = Some 1%float.
Proof.
  intros Hx. unfold exp_of_ln, ln1.
  change (leb x (lit 0)) with (PrimFloat.leb x 0). rewrite Hx.
  cbn [bind].
  apply (exp1_more_fuel 0 fuel); [lia | vm_compute; reflexivity].
Qed.

Lemma exp_of_ln_nonpositive_witness :
  exp_of_ln 100 (-3)%float = Some 1%float
  /\ exp_of_ln 100 (-0)%float = Some 1%float.
Proof.
  split.
  - apply (exp_of_ln_nonpositive 100 (-3)%float). reflexivity.
  - apply (exp_of_ln_nonpositive 100 (-0)%float). reflexivity.
Defined.

(** ** sqrt: a bound on the passes *)
(** X19.  In exact arithmetic the Newton loop of [sqrt1] leaves
    within [k + 1] passes whenever its first move, [|n / 20 - 5|], is
    at most [2 ^ k] tolerances of 1e-15: every pass at least halves
    the move.  The result is positive.  For [n] up to 200 this gives
    54 passes at most. *)
Theorem sqrt1_passes (n : R) (k : nat) :
  0 < n -> Rabs (n / 20 - 5) * 10 ^ 15 <= 2 ^ k ->
  exists r, sqrt1 k n = Some r /\ 0 < r.
Proof.
  intros Hn Hk.
  assert (Hx : 0 < n / 10) by lra.
  assert (E0 : n / 10 - newton n (n / 10) = n / 20 - 5).
  { unfold newton. field. lra. }
  destruct (sqrt_loop_R n Hn k (n / 10) (n / 10) Hx) as (l & r & E & Hl & Hr & Hd).
  { rewrite E0. assert (0 < 10 ^ 15) by (apply pow_lt; lra).
    apply Rmult_le_reg_r with (10 ^ 15); [assumption|].
    unfold Rdiv at 2. rewrite Rmult_assoc, Rmult_assoc, Rinv_l by lra. lra. }
  exists r. split.
  - unfold sqrt1.
    replace ((n <? lit 0)%num) with false by (symmetry; Rlit; Rcmp_false).
    replace ((n =? lit 0)%num) with false by (symmetry; Rlit; Rcmp_false).
    unfold sqrt_loop.
    replace ((n / lit 10)%num) with (n / 10) by (Rlit; lra).
    rewrite E. reflexivity.
  - rewrite Hr. apply newton_pos; assumption.
Qed.

Lemma sqrt1_passes_witness :
  0 < 2 /\ Rabs (2 / 20 - 5) * 10 ^ 15 <= 2 ^ 53 /\
  exists r, sqrt1 53 2 = Some r /\ 0 < r.
Proof.
  assert (H : Rabs (2 / 20 - 5) * 10 ^ 15 <= 2 ^ 53).
  { rewrite Rabs_left by lra. lra. }
  split; [lra|]. split; [exact H|].
  apply (sqrt1_passes 2 53); [lra | exact H].
Defined.

(** ** tan and atan: the counters *)

(** The arctangent of a sum of [k] slopes [x] is at most [k] times
    the arctangent of [x]: a rotation by [atan x] lowers a slope
    [s >= x] by at least [x]. *)
Lemma atan_subadditive (x : R) :
  0 < x ->
  forall (k : nat) (s : R),
    0 <= s <= INR k * x -> Ratan.atan s <= INR k * Ratan.atan x.
Proof.
  intros Hx.
  assert (Hax : 0 < Ratan.atan x) by (rewrite <- atan_0; apply atan_increasing; lra).
  induction k as [|k IH]; intros s Hs.
  - simpl INR in *. assert (s = 0) by lra. subst s. rewrite atan_0. lra.
  - rewrite S_INR in *.
    assert (Hk : 0 <= INR k * Ratan.atan x).
    { apply Rmult_le_pos; [apply pos_INR | lra]. }
    destruct (Rlt_le_dec s x) as [Hlt|Hge].
    + assert (Ratan.atan s < Ratan.atan x) by (apply atan_increasing; lra).
      lra.
    + pose proof (atan_rotation 1 s x ltac:(lra) ltac:(lra) Hx ltac:(lra)) as E.
      replace (s / 1) with s in E by (field).
      rewrite E.
      assert (Hden : 0 < 1 + s * x) by nra.
      assert (Hs' : 0 <= (s - 1 * x) / (1 + s * x) <= INR k * x).
      { split.
        - apply Rmult_le_pos; [lra | left; apply Rinv_0_lt_compat; exact Hden].
        - apply Rle_trans with (s - x); [|lra].
          apply Rmult_le_reg_r with (1 + s * x); [lra|].
          unfold Rdiv. rewrite Rmult_assoc, Rinv_l by lra.
          assert (0 <= (s - x) * (s * x)).
          { apply Rmult_le_pos; [lra | apply Rmult_le_pos; lra]. }
          lra. }
      specialize (IH _ Hs'). lra.
Qed.

(** Each angle of the table of [tan1] is at most ten times the next. *)
Lemma tans_ratio (i : nat) :
  (S i < K)%nat ->
  nth i (tans (T:=R)) (lit 0) <= 10 * nth (S i) (tans (T:=R)) (lit 0).
Proof.
  intros Hi. unfold K in Hi.
  do 6 (destruct i as [|i];
        [cbn [nth tans]; Rlit;
         match goal with
         | |- Ratan.atan ?s <= 10 * Ratan.atan ?x =>
             let H := fresh in
             assert (H : Ratan.atan s <= INR 10 * Ratan.atan x)
               by (apply (atan_subadditive x); [lra | simpl INR; lra]);
             simpl INR in H; lra
         end|]).
  lia.
Qed.

(** One entry of the digit walk of [tan1], with its count. *)
Lemma tan_digit_count (i : nat) (t : R) :
  t = nth i (tans (T:=R)) (lit 0) ->
  0 < t ->
  forall fuel y d,
    0 <= y -> y < INR fuel * t ->
    exists m : nat,
      tan_digit fuel i (y, d)
      = Some (y - INR m * t, bump i (Z.of_nat m) d)
      /\ 0 <= y - INR m * t < t.
Proof.
  intros Et Ht fuel y d Hy Hf.
  destruct (tan_subtract_count i t Et Ht fuel y d ltac:(lra) Hf)
    as (k & E & Hr & Hk).
  specialize (Hk Hy). destruct k as [|m]; [lia|].
  exists m. unfold tan_digit. rewrite E. cbn [bind fst snd].
  subst t. set (t := nth i (tans (T:=R)) (lit 0)) in *.
  rewrite bump_bump. rewrite S_INR in *.
  replace (Z.of_nat (S m) + -1)%Z with (Z.of_nat m) by lia.
  split; [|lra].
  do 2 f_equal. cbn [add Num_R]. fold t. ring.
Qed.

(** The digit walk of [tan1] on a reduced angle. *)
Lemma tan_digits_count_R (r : R) :
  0 <= r <= two_pi_R ->
  exists fuel y digits,
    tan_digits fuel r = Some (y, digits)
    /\ (0 <= digit digits 0 <= 8)%Z
    /\ forall j, (1 <= j < K)%nat -> (0 <= digit digits j <= 9)%Z.
Proof.
  intros Hr. pose proof atan_smallest_pos as Hpos.
  destruct (INR_unbounded (r / Ratan.atan (1 / 1000000))) as [fuel Hf].
  assert (Hfuel : r < INR fuel * Ratan.atan (1 / 1000000)).
  { apply Rmult_lt_reg_r with (/ Ratan.atan (1 / 1000000)).
    - apply Rinv_0_lt_compat, Hpos.
    - rewrite Rmult_assoc, Rinv_r by lra. unfold Rdiv in Hf. lra. }
  destruct (for_up_indexed
              (fun j (s : R * list Z) =>
                 0 <= fst s <= r /\ length (snd s) = K
                 /\ (forall i, (j <= i)%nat -> digit (snd s) i = 0%Z)
                 /\ (forall i, (1 <= i < j)%nat ->
                               (0 <= digit (snd s) i <= 9)%Z)
                 /\ (forall i, j = S i ->
                               fst s < nth i (tans (T:=R)) (lit 0))
                 /\ ((1 <= j)%nat -> (0 <= digit (snd s) 0 <= 8)%Z))
              (tan_digit fuel) K 0 (r, repeat 0%Z K))
    as ([y digits] & E & Hy & Hlen & Hz & Hb & Hlast & H0).
  - intros i [b d] Hi (Hb & Hlen & Hz & Hd & Hlast & H0). cbn [fst snd] in *.
    pose proof (tans_lower i ltac:(lia)) as Ht.
    set (t := nth i (tans (T:=R)) (lit 0)) in *.
    destruct (tan_digit_count i t eq_refl ltac:(lra) fuel b d)
      as (m & E & Hm).
    + lra.
    + pose proof (pos_INR fuel). nra.
    + exists (b - INR m * t, bump i (Z.of_nat m) d).
      split; [exact E|]. cbn [fst snd].
      assert (HmL : 0 <= INR m * t).
      { apply Rmult_le_pos; [apply pos_INR | lra]. }
      assert (Hdi : digit (bump i (Z.of_nat m) d) i = Z.of_nat m).
      { rewrite digit_bump_same by lia. rewrite Hz by lia. lia. }
      split; [lra|]. split; [rewrite bump_length; exact Hlen|].
      split; [|split; [|split]].
      * intros j Hj. rewrite digit_bump_other by lia. apply Hz. lia.
      * intros j Hj. destruct (Nat.eq_dec j i) as [->|Hne].
        -- rewrite Hdi.
           destruct i as [|i']; [lia|].
           specialize (Hlast i' eq_refl).
           pose proof (tans_ratio i' ltac:(lia)) as Hratio.
           fold t in Hratio.
           assert (Hm10 : INR m < 10) by nra.
           assert (m < 10)%nat.
           { apply INR_lt. simpl INR in *. lra. }
           lia.
        -- rewrite digit_bump_other by lia. apply Hd. lia.
      * intros j [= <-]. fold t. lra.
      * intros _. destruct i as [|i'].
        -- rewrite Hdi.
           assert (Et : t = PI / 4).
           { unfold t. cbn [nth tans]. Rlit.
             replace (1 * / 1) with 1 by lra. apply atan_1. }
           pose proof PI2_3_2 as HPI. pose proof two_pi_R_value as Hv.
           assert (Hm9 : INR m < 9) by nra.
           assert (m < 9)%nat.
           { apply INR_lt. simpl INR in *. lra. }
           lia.
        -- rewrite digit_bump_other by lia. apply H0. lia.
  - cbn [fst snd]. split; [lra|]. split; [apply repeat_length|].
    split; [intros; apply digit_repeat_zero|].
    split; [intros; lia|]. split; [discriminate | lia].
  - cbn [fst snd] in *. exists fuel, y, digits. split; [exact E|].
    split; [apply H0; unfold K; lia|].
    intros j Hj. apply Hb. lia.
Qed.

(** X20.  In exact arithmetic, on every input the range reduction and
    the digit walk of [tan1] return with counters that are decimal
    digits: entry 0 (the eighths of a turn) lies between 0 and 8 and
    entries 1 to 6 between 0 and 9, so the rotation loops run at most
    62 times in all. *)
Theorem tan1_digits_bounded (n : R) :
  exists fuel r y digits,
    range_reduction fuel (Rabs n) = Some r
    /\ tan_digits fuel r = Some (y, digits)
    /\ (0 <= digit digits 0 <= 8)%Z
    /\ forall j, (1 <= j < K)%nat -> (0 <= digit digits j <= 9)%Z.
Proof.
  destruct (range_reduction_R (Rabs n) (Rabs_pos n))
    as (f1 & r & k & E1 & Hr & _).
  destruct (tan_digits_count_R r ltac:(lra)) as (f2 & y & digits & E2 & H0 & Hd).
  exists (Nat.max f1 f2), r, y, digits.
  split; [|split; [|split; [exact H0 | exact Hd]]].
  - exact (range_reduction_more_fuel f1 _ _ _ (Nat.le_max_l f1 f2) E1).
  - exact (tan_digits_more_fuel f2 _ _ _ (Nat.le_max_r f1 f2) E2).
Qed.

(** A vectoring loop of [atan1] in exact arithmetic, with its count:
    each rotation by the slope [t] lowers the slope of the vector by
    at least [t]. *)
Lemma atan_digit_loop_count (i : nat) (t : R) :
  t = nth i (table (T:=R)) (lit 0) -> 0 < t ->
  forall fuel x y digits s,
    1 <= x -> 0 <= y -> y < INR (S fuel) * t -> y < x * s ->
    exists (k : nat) x' y',
      atan_digit_loop fuel i (x, y, digits)
      = Some (x', y', bump i (Z.of_nat k) digits)
      /\ 1 <= x' /\ 0 <= y' <= y /\ y' < x' * t /\ INR k * t < s.
Proof.
  intros Et Ht. unfold atan_digit_loop.
  assert (Hbody : forall x y digits,
            atan_digit_body i (x, y, digits)
            = if Rltb (y - x * t) 0 then None
              else Some (x + y * t, y - x * t, bump i 1 digits)).
  { intros x y digits. unfold atan_digit_body. rewrite <- Et.
    cbn [add sub mul ltb Num_R]. replace (lit 0 : R) with 0 by (Rlit; lra).
    reflexivity. }
  induction fuel as [|f IH]; intros x y digits s Hx Hy Hf Hs.
  - exists O, x, y. cbn [do_while]. rewrite Hbody.
    simpl INR in Hf.
    replace (Rltb (y - x * t) 0) with true by (symmetry; Rcmp_true; nra).
    cbn [Z.of_nat]. rewrite bump_zero. simpl INR.
    repeat split; try lra; nra.
  - cbn [do_while]. rewrite Hbody.
    destruct (Rltb (y - x * t) 0) eqn:E.
    + apply Rltb_true in E. exists O, x, y.
      cbn [Z.of_nat]. rewrite bump_zero. simpl INR.
      repeat split; try lra; nra.
    + apply Rltb_false in E.
      destruct (IH (x + y * t) (y - x * t) (bump i 1 digits) (s - t))
        as (k & x' & y' & E' & Hx' & Hy' & Hlt & Hk).
      * nra.
      * lra.
      * rewrite S_INR in Hf. nra.
      * assert (0 <= s - t) by nra.
        assert (0 <= y * t * (s - t)).
        { apply Rmult_le_pos; [apply Rmult_le_pos; lra | assumption]. }
        nra.
      * exists (S k), x', y'. rewrite E', bump_bump, S_INR.
        replace (1 + Z.of_nat k)%Z with (Z.of_nat (S k)) by lia.
        split; [reflexivity|]. split; [exact Hx'|]. split; [nra|].
        split; [exact Hlt | lra].
Qed.

Lemma atan_digit_loop_next (i : nat) (t : R) :
  t = nth i (table (T:=R)) (lit 0) ->
  forall fuel x y digits,
    0 <= y - x * t ->
    atan_digit_loop (S fuel) i (x, y, digits)
    = atan_digit_loop fuel i (x + y * t, y - x * t, bump i 1 digits).
Proof.
  intros Et fuel x y digits Hge. unfold atan_digit_loop. cbn [do_while].
  unfold atan_digit_body at 1. rewrite <- Et.
  cbn [add sub mul ltb Num_R]. replace (lit 0 : R) with 0 by (Rlit; lra).
  replace (Rltb (y - x * t) 0) with false by (symmetry; Rcmp_false).
  reflexivity.
Qed.

(** The first loop of [atan1], by the slope 1: one rotation at most. *)
Lemma atan_first_loop_count :
  forall fuel x y digits,
    1 <= x -> 0 <= y -> y < INR (S fuel) ->
    exists (k : nat) x' y',
      atan_digit_loop fuel 0 (x, y, digits)
      = Some (x', y', bump 0 (Z.of_nat k) digits)
      /\ 1 <= x' /\ 0 <= y' <= y /\ y' < x' /\ (k <= 1)%nat.
Proof.
  intros fuel x y digits Hx Hy Hf.
  assert (Et : 1 = nth 0 (table (T:=R)) (lit 0))
    by (cbn [nth table]; Rlit; lra).
  destruct (Rlt_le_dec y x) as [Hlt|Hge].
  - destruct (atan_digit_loop_count 0 1 Et ltac:(lra) fuel x y digits 1)
      as (k & x' & y' & E & Hx' & Hy' & Hs & Hk); try lra.
    exists k, x', y'. split; [exact E|].
    split; [exact Hx'|]. split; [exact Hy'|]. split; [lra|].
    assert (k < 1)%nat by (apply INR_lt; simpl INR; lra). lia.
  - destruct fuel as [|f]; [simpl INR in Hf; lra|].
    rewrite (atan_digit_loop_next 0 1 Et) by lra.
    destruct (atan_digit_loop_count 0 1 Et ltac:(lra) f (x + y * 1) (y - x * 1)
                (bump 0 1 digits) 1)
      as (k & x' & y' & E & Hx' & Hy' & Hs & Hk); try lra.
    { rewrite !S_INR in Hf. rewrite S_INR. lra. }
    exists (S k), x', y'. rewrite E, bump_bump.
    replace (1 + Z.of_nat k)%Z with (Z.of_nat (S k)) by lia.
    split; [reflexivity|].
    split; [exact Hx'|]. split; [lra|]. split; [lra|].
    assert (k < 1)%nat by (apply INR_lt; simpl INR; lra). lia.
Qed.

Lemma table_ratio (i : nat) :
  (S i < K)%nat ->
  nth i (table (T:=R)) (lit 0) = 10 * nth (S i) (table (T:=R)) (lit 0)
  /\ 0 < nth (S i) (table (T:=R)) (lit 0).
Proof.
  intros Hi. unfold K in Hi.
  do 6 (destruct i as [|i]; [cbn [nth table]; Rlit; lra|]).
  lia.
Qed.

(** The vectoring loops of [atan1] on a magnitude. *)
Lemma atan_digits_count_R (y0 : R) :
  0 <= y0 ->
  exists fuel x y digits,
    atan_digits fuel y0 = Some (x, y, digits)
    /\ (0 <= digit digits 0 <= 1)%Z
    /\ forall j, (1 <= j < K)%nat -> (0 <= digit digits j <= 9)%Z.
Proof.
  intros Hy0.
  destruct (INR_unbounded (y0 * 1000000)) as [fuel Hf].
  destruct (for_up_indexed
              (fun j (s : R * R * list Z) =>
                 let '(x, y, digits) := s in
                 1 <= x /\ 0 <= y <= y0 /\ length digits = K
                 /\ (forall i, (j <= i)%nat -> digit digits i = 0%Z)
                 /\ (forall i, (1 <= i < j)%nat -> (0 <= digit digits i <= 9)%Z)
                 /\ (forall i, j = S i ->
                               y < x * nth i (table (T:=R)) (lit 0))
                 /\ ((1 <= j)%nat -> (0 <= digit digits 0 <= 1)%Z))
              (atan_digit_loop fuel) K 0 (lit 1, y0, repeat 0%Z K))
    as ([[x y] digits] & E & Hx & Hy & Hlen & Hz & Hb & Hlast & H0).
  - intros i [[x y] digits] Hi (Hx & Hy & Hlen & Hz & Hb & Hlast & H0).
    destruct i as [|i'].
    + destruct (atan_first_loop_count fuel x y digits Hx ltac:(lra))
        as (k & x' & y' & E & Hx' & Hy' & Hs & Hk).
      { rewrite S_INR. nra. }
      exists (x', y', bump 0 (Z.of_nat k) digits). split; [exact E|].
      assert (Hd0 : digit (bump 0 (Z.of_nat k) digits) 0 = Z.of_nat k).
      { rewrite digit_bump_same by (rewrite Hlen; unfold K; lia).
        rewrite Hz by lia. lia. }
      split; [exact Hx'|]. split; [lra|].
      split; [rewrite bump_length; exact Hlen|].
      split; [|split; [|split]].
      * intros j Hj. rewrite digit_bump_other by lia. apply Hz. lia.
      * intros j Hj. lia.
      * intros j [= <-]. cbn [nth table]. Rlit. lra.
      * intros _. rewrite Hd0. lia.
    + destruct (table_ratio i' ltac:(lia)) as [Hratio Ht].
      set (t := nth (S i') (table (T:=R)) (lit 0)) in *.
      specialize (Hlast i' eq_refl). rewrite Hratio in Hlast.
      assert (Htlo : 1 / 1000000 <= t).
      { unfold t. unfold K in Hi.
        do 6 (destruct i' as [|i']; [cbn [nth table]; Rlit; lra|]). lia. }
      destruct (atan_digit_loop_count (S i') t eq_refl Ht fuel x y digits
                  (10 * t))
        as (k & x' & y' & E & Hx' & Hy' & Hs & Hk); try lra.
      { rewrite S_INR. nra. }
      exists (x', y', bump (S i') (Z.of_nat k) digits). split; [exact E|].
      assert (Hdi : digit (bump (S i') (Z.of_nat k) digits) (S i')
                    = Z.of_nat k).
      { rewrite digit_bump_same by lia. rewrite Hz by lia. lia. }
      assert (k < 10)%nat.
      { apply INR_lt. simpl INR. nra. }
      split; [exact Hx'|]. split; [lra|].
      split; [rewrite bump_length; exact Hlen|].
      split; [|split; [|split]].
      * intros j Hj. rewrite digit_bump_other by lia. apply Hz. lia.
      * intros j Hj. destruct (Nat.eq_dec j (S i')) as [->|Hne].
        -- rewrite Hdi. lia.
        -- rewrite digit_bump_other by lia. apply Hb. lia.
      * intros j [= <-]. fold t. exact Hs.
      * intros _. rewrite digit_bump_other by lia. apply H0. lia.
  - replace (lit 1 : R) with 1 by (Rlit; lra).
    split; [lra|]. split; [lra|]. split; [apply repeat_length|].
    split; [intros; apply digit_repeat_zero|].
    split; [intros; lia|]. split; [discriminate | lia].
  - exists fuel, x, y, digits. split; [exact E|].
    split; [apply H0; unfold K; lia|].
    intros j Hj. apply Hb. lia.
Qed.

(** X21.  In exact arithmetic, on every input the vectoring loops of
    [atan1] return with counters that are decimal digits: entry 0 (the
    rotations by [atan 1]) is 0 or 1 and entries 1 to 6 lie between 0
    and 9.  In double arithmetic entry 0 can reach 2 (at -12345e23). *)
Theorem atan1_digits_bounded (n : R) :
  exists fuel x y digits,
    atan_digits fuel (fabs n) = Some (x, y, digits)
    /\ (0 <= digit digits 0 <= 1)%Z
    /\ forall j, (1 <= j < K)%nat -> (0 <= digit digits j <= 9)%Z.
Proof.
  cbn [fabs Num_R]. apply atan_digits_count_R, Rabs_pos.
Qed.
